(** * An explicit-free-list allocator (mm.c): model and properties

    The heap is a growable region of 4-byte words carrying boundary tags
    (header and footer) around every block; free blocks are also linked in
    an explicit free list.  The functions of [mm.c] are transcribed below
    with the allocator's globals threaded as an explicit [state].  The
    helper headers ([mm_block.h], [mm_list.h], [memlib.h]) are modelled
    after their documented contracts. *)

From Stdlib Require Import ZArith List Lia Bool Permutation.
Import ListNotations.
Open Scope Z_scope.

(** ** Machine integers *)

(** A C [int]: 32 bits, two's complement, wrapping. *)
Definition wrap32 (z : Z) : Z := (z + 2 ^ 31) mod 2 ^ 32 - 2 ^ 31.

(** A C [size_t].  Blocks of 16 bytes hold a header, a footer and the two
    links of the free list, so pointers (and [size_t]) are 4 bytes wide. *)
Definition to_size_t (z : Z) : Z := z mod 2 ^ 32.

Definition int_add (a b : Z) : Z := wrap32 (a + b).
Definition int_sub (a b : Z) : Z := wrap32 (a - b).
Definition int_mul (a b : Z) : Z := wrap32 (a * b).
(** C division truncates toward zero. *)
Definition int_div (a b : Z) : Z := wrap32 (Z.quot a b).

Definition NULL : Z := 0.

(** ** Allocator state *)

Record state : Type := mkState {
  mem : Z -> Z;           (* the int stored at each (byte) address *)
  mem_brk : Z;            (* memlib: first address past the heap *)
  mem_max_addr : Z;       (* memlib: first address the heap may not reach *)
  heap_blocks : Z;        (* address of the prologue header *)
  mm_list_headp : list Z  (* free list, traversal order, head first *)
}.

Definition upd (m : Z -> Z) (a v : Z) : Z -> Z :=
  fun x => if x =? a then v else m x.

Definition store (st : state) (a v : Z) : state :=
  mkState (upd (mem st) a v) (mem_brk st) (mem_max_addr st)
          (heap_blocks st) (mm_list_headp st).

Definition set_list (st : state) (l : list Z) : state :=
  mkState (mem st) (mem_brk st) (mem_max_addr st) (heap_blocks st) l.

Definition set_heap_blocks (st : state) (hb : Z) : state :=
  mkState (mem st) (mem_brk st) (mem_max_addr st) hb (mm_list_headp st).

(** ** memlib.h *)

(** Modelled from the spec: [mem_sbrk] of memlib.h, the backing-store
    primitive [grow(byte_count)]: it extends the region contiguously from
    its previous end and returns the old end, or fails (here: when the
    request is negative or does not fit below [mem_max_addr]) leaving
    everything as it was.  [None] stands for the failure sentinel
    [(void * )-1]. *)
Definition mem_sbrk (st : state) (incr : Z) : option (Z * state) :=
  if (incr <? 0) || (mem_max_addr st <? mem_brk st + incr) then None
  else Some (mem_brk st,
             mkState (mem st) (mem_brk st + incr) (mem_max_addr st)
                     (heap_blocks st) (mm_list_headp st)).

(** The libc [memcpy], on the word-granular memory; the allocator only ever
    copies whole payloads, a multiple of 8 bytes, between disjoint blocks. *)
Definition memcpy (st : state) (dst src n : Z) : state :=
  mkState (fun x => if (dst <=? x) && (x <? dst + n)
                    then mem st (src + (x - dst)) else mem st x)
          (mem_brk st) (mem_max_addr st) (heap_blocks st) (mm_list_headp st).

(** ** mm_block.h: the block codec *)

(** Modelled from the spec: [size_of(block)] of mm_block.h, the size field
    packed in the header word (the low three bits hold flags). *)
Definition mm_block_size (st : state) (bp : Z) : Z := Z.land (mem st bp) (-8).

(** Modelled from the spec: [is_allocated(block)] of mm_block.h, the
    allocation bit packed in the header word. *)
Definition mm_block_allocated (st : state) (bp : Z) : Z := Z.land (mem st bp) 1.

(** Modelled from the spec: [set_header] of mm_block.h, encode and write the
    tag at the block's first word. *)
Definition mm_block_set_header (st : state) (bp size allocated : Z) : state :=
  store st bp (Z.lor size allocated).

(** Modelled from the spec: [set_footer] of mm_block.h, encode and write the
    tag at the block's last word; the block's extent is the one its header
    announces, so callers write the header first. *)
Definition mm_block_set_footer (st : state) (bp size allocated : Z) : state :=
  store st (bp + mm_block_size st bp - 4) (Z.lor size allocated).

(** Modelled from the spec: [next_physical(block)] of mm_block.h, header
    address plus [size_of(block)]. *)
Definition mm_block_next (st : state) (bp : Z) : Z := bp + mm_block_size st bp.

(** Modelled from the spec: [prev_physical(block)] of mm_block.h, header
    address minus the size read from the word just before the header (the
    predecessor's footer). *)
Definition mm_block_prev (st : state) (bp : Z) : Z :=
  bp - Z.land (mem st (bp - 4)) (-8).

(** ** mm_list.h: the explicit free list *)

Fixpoint remove_first (x : Z) (l : list Z) : list Z :=
  match l with
  | [] => []
  | y :: t => if y =? x then t else y :: remove_first x t
  end.

(** Modelled from the spec: [init()] of mm_list.h resets the list to empty. *)
Definition mm_list_init (st : state) : state := set_list st [].

(** Modelled from the spec: [prepend(block)] of mm_list.h inserts at the
    traversal head. *)
Definition mm_list_prepend (st : state) (bp : Z) : state :=
  set_list st (bp :: mm_list_headp st).

(** Modelled from the spec: [remove(block)] of mm_list.h detaches the block
    from wherever it sits in the list. *)
Definition mm_list_remove (st : state) (bp : Z) : state :=
  set_list st (remove_first bp (mm_list_headp st)).

(** ** mm.c *)

Definition free_coalesce (st : state) (bp : Z) : Z * state :=
  (* mark block as free *)
  let size := mm_block_size st bp in
  let st := mm_block_set_header st bp size 0 in
  let st := mm_block_set_footer st bp size 0 in
  (* check whether contiguous blocks are allocated *)
  let prev_alloc := mm_block_allocated st (mm_block_prev st bp) in
  let next_alloc := mm_block_allocated st (mm_block_next st bp) in
  if negb (prev_alloc =? 0) && negb (next_alloc =? 0) then
    let st := mm_list_prepend st bp in
    (bp, st)
  else if negb (prev_alloc =? 0) && (next_alloc =? 0) then
    let size := int_add size (mm_block_size st (mm_block_next st bp)) in
    let st := mm_list_remove st (mm_block_next st bp) in
    let st := mm_list_prepend st bp in
    let st := mm_block_set_header st bp size 0 in
    let st := mm_block_set_footer st bp size 0 in
    (bp, st)
  else if (prev_alloc =? 0) && negb (next_alloc =? 0) then
    let size := int_add size (mm_block_size st (mm_block_prev st bp)) in
    let st' := mm_block_set_header st (mm_block_prev st bp) size 0 in
    let st'' := mm_block_set_footer st' (mm_block_prev st' bp) size 0 in
    (mm_block_prev st'' bp, st'')
  else
    let size := int_add size
                  (int_add (mm_block_size st (mm_block_next st bp))
                           (mm_block_size st (mm_block_prev st bp))) in
    let st := mm_list_remove st (mm_block_next st bp) in
    let st' := mm_block_set_header st (mm_block_prev st bp) size 0 in
    let st'' := mm_block_set_footer st' (mm_block_prev st' bp) size 0 in
    (mm_block_prev st'' bp, st'').

Definition extend_heap (st : state) (size : Z) : Z * state :=
  (* bp points to the beginning of the new block *)
  match mem_sbrk st size with
  | None => (NULL, st)
  | Some (bp, st) =>
      (* write header over old epilogue, then the footer *)
      let old_epilogue := bp - 4 in
      let st := mm_block_set_header st old_epilogue size 0 in
      let st := mm_block_set_footer st old_epilogue size 0 in
      (* write new epilogue *)
      let st := mm_block_set_header st (mm_block_next st old_epilogue) 0 1 in
      (* merge new block with previous one if possible *)
      free_coalesce st old_epilogue
  end.

Definition mm_init (st : state) : Z * state :=
  (* init list of free blocks *)
  let st := mm_list_init st in
  (* create empty heap of 4 x 4-byte words *)
  match mem_sbrk st 16 with
  | None => (-1, st)
  | Some (new_region, st) =>
      let st := set_heap_blocks st new_region in
      let st := mm_block_set_header st (heap_blocks st) 0 0 in
      let st := mm_block_set_header st (heap_blocks st + 4) 8 1 in
      let st := mm_block_set_footer st (heap_blocks st + 4) 8 1 in
      let st := mm_block_set_header st (heap_blocks st + 12) 0 1 in
      let st := set_heap_blocks st (heap_blocks st + 4) in
      let st := snd (extend_heap st 64) in
      (0, st)
  end.

Definition mm_free (st : state) (bp : Z) : state :=
  if bp =? NULL then st
  else
    let blockHeader := bp - 4 in
    snd (free_coalesce st blockHeader).

(** The [while (bp != NULL)] walk of [find_fit], over the list from [l]. *)
Fixpoint find_fit_from (st : state) (l : list Z) (size : Z) : Z :=
  match l with
  | [] => NULL
  | bp :: rest =>
      if size <=? mm_block_size st bp then bp
      else find_fit_from st rest size
  end.

Definition find_fit (st : state) (size : Z) : Z :=
  find_fit_from st (mm_list_headp st) size.

Definition place (st : state) (bp size : Z) : Z * state :=
  let old_size := mm_block_size st bp in
  let new_size := int_sub old_size size in
  if 16 <=? new_size then
    if 75 <=? size then
      let st := mm_block_set_header st bp new_size 1 in
      let st := mm_block_set_footer st bp new_size 1 in
      let new_bp := mm_block_next st bp in
      let st := mm_block_set_header st new_bp size 1 in
      let st := mm_block_set_footer st new_bp size 1 in
      let st := mm_block_set_header st bp new_size 0 in
      let st := mm_block_set_footer st bp new_size 0 in
      (new_bp, st)
    else
      let st := mm_block_set_header st bp size 1 in
      let st := mm_block_set_footer st bp size 1 in
      let new_bp := mm_block_next st bp in
      let st := mm_list_prepend st new_bp in
      let st := mm_block_set_header st new_bp new_size 0 in
      let st := mm_block_set_footer st new_bp new_size 0 in
      let st := mm_list_remove st bp in
      (bp, st)
  else
    let st := mm_block_set_header st bp old_size 1 in
    let st := mm_block_set_footer st bp old_size 1 in
    let st := mm_list_remove st bp in
    (bp, st).

Definition required_block_size (payload_size : Z) : Z :=
  let payload_size := int_add payload_size 8 in  (* add 8 for header/footer *)
  int_mul (int_div (int_add payload_size 7) 8) 8. (* round up to multiple of 8 *)

(** The [while (temp == NULL)] loop of [mm_malloc].  Each iteration spends
    one unit of [fuel]; [None] means the loop was still running when the
    fuel ran out. *)
Fixpoint malloc_loop (fuel : nat) (st : state) (required_size temp : Z)
  : option (Z * state) :=
  if temp =? NULL then
    match fuel with
    | O => None
    | S fuel' =>
        let tempp := if 512 <? required_size then required_size else 512 in
        let st := snd (extend_heap st tempp) in
        malloc_loop fuel' st required_size (find_fit st required_size)
    end
  else Some (temp, st).

Definition mm_malloc (fuel : nat) (st : state) (size : Z) : option (Z * state) :=
  (* ignore spurious requests *)
  if size =? 0 then Some (NULL, st)
  else
    let required_size := required_block_size (wrap32 size) in
    match malloc_loop fuel st required_size (find_fit st required_size) with
    | None => None
    | Some (temp, st) =>
        let '(result, st) := place st temp required_size in
        Some (result + 4, st)
    end.

Definition mm_realloc (fuel : nat) (st : state) (ptr size : Z)
  : option (Z * state) :=
  (* Equivalent to malloc if ptr is NULL *)
  if ptr =? NULL then mm_malloc fuel st size
  (* Equivalent to free if size is 0 *)
  else if size =? 0 then Some (NULL, mm_free st ptr)
  else
    let block_header := ptr - 4 in
    let old_size := to_size_t (int_sub (mm_block_size st block_header) 8) in
    if size <=? old_size then Some (ptr, st)
    else
      let next_block := mm_block_next st block_header in
      let absorb :=
        if mm_block_allocated st next_block =? 0 then
          let combined_size :=
            to_size_t (int_add (mm_block_size st block_header)
                               (mm_block_size st next_block)) in
          if size <=? to_size_t (combined_size - 8) then
            let st := mm_list_remove st next_block in
            let st := mm_block_set_header st block_header (wrap32 combined_size) 1 in
            let st := mm_block_set_footer st block_header (wrap32 combined_size) 1 in
            Some st
          else None
        else None in
      match absorb with
      | Some st => Some (ptr, st)
      | None =>
          match mm_malloc fuel st size with
          | None => None
          | Some (new_ptr, st) =>
              if new_ptr =? NULL then Some (NULL, st)
              else
                let tempp := wrap32 (if size <? old_size then size else old_size) in
                let st := memcpy st new_ptr ptr (to_size_t tempp) in
                let st := mm_free st ptr in
                Some (new_ptr, st)
          end
      end.

(** * Vocabulary of the statements *)

(** ** Blocks and what an operation leaves alone *)

(** [block st a s al]: the words of [st] show, at address [a], a block of
    [s] bytes with allocation bit [al]: the header decodes to [(s, al)] and
    the footer, the block's last word, is identical to the header. *)
Definition block (st : state) (a s al : Z) : Prop :=
  mm_block_size st a = s /\ mm_block_allocated st a = al /\
  mem st (a + s - 4) = mem st a.

(** Everything outside the bytes [[lo, hi)] and outside the free list is
    the same in [st] and [st']. *)
Definition same_outside (st st' : state) (lo hi : Z) : Prop :=
  (forall x, x < lo \/ hi <= x -> mem st' x = mem st x) /\
  mem_brk st' = mem_brk st /\ mem_max_addr st' = mem_max_addr st /\
  heap_blocks st' = heap_blocks st.

(** The break, the limit of the store and the heap base are the same. *)
Definition same_bounds (st st' : state) : Prop :=
  mem_brk st' = mem_brk st /\ mem_max_addr st' = mem_max_addr st /\
  heap_blocks st' = heap_blocks st.

(** The spec's rounding: the least multiple of 8 that is at least [x]. *)
Definition round_up_8 (x : Z) : Z := 8 * ((x + 7) / 8).

(** ** Memories met inside the operations *)

(** The memory once the block itself is marked free. *)
Definition marked_free (st : state) (bp s : Z) : Z -> Z :=
  upd (upd (mem st) bp (Z.lor s 0)) (bp + s - 4) (Z.lor s 0).

(** The state in which [extend_heap] calls [free_coalesce]: the old epilogue
    has become the header of a free block of [size] bytes, and a new
    epilogue follows it. *)
Definition grown (st : state) (size : Z) : state :=
  mkState (upd (upd (upd (mem st)
             (mem_brk st - 4) (Z.lor size 0))
             (mem_brk st - 4 + size - 4) (Z.lor size 0))
             (mem_brk st - 4 + size) (Z.lor 0 1))
          (mem_brk st + size) (mem_max_addr st) (heap_blocks st)
          (mm_list_headp st).

(** The words written by a successful [mm_init] on a store whose break was
    at [b]: padding, prologue header and footer, then the 64-byte free
    block with the epilogue after it. *)
Definition init_mem (m : Z -> Z) (b : Z) : Z -> Z :=
  upd (upd (upd (upd (upd (upd (upd (upd (upd m
    b (Z.lor 0 0)) (b + 4) (Z.lor 8 1)) (b + 8) (Z.lor 8 1)) (b + 12) (Z.lor 0 1))
    (b + 12) (Z.lor 64 0)) (b + 72) (Z.lor 64 0)) (b + 76) (Z.lor 0 1))
    (b + 12) (Z.lor 64 0)) (b + 72) (Z.lor 64 0).

(** ** Two adjacent blocks, both freed *)

(** Where the merged block starts, how large it is, and the free list
    once both are freed. *)
Definition merged_start (a sp ap : Z) : Z := if ap =? 0 then a - sp else a.

Definition merged_size (sa sb sp ap sn an : Z) : Z :=
  (if ap =? 0 then sp else 0) + sa + sb + (if an =? 0 then sn else 0).

Definition merged_list (st : state) (a sa sb ap an : Z) : list Z :=
  (if ap =? 0 then [] else [a]) ++
  (if an =? 0 then remove_first (a + sa + sb) (mm_list_headp st)
   else mm_list_headp st).

(** ** The heap as a chain of blocks *)

(** [chain m a bs e]: the words of [m] from address [a] up to [e] are
    exactly the blocks [bs] (size and allocation bit of each, in address
    order), every one with matching header and footer. *)
Fixpoint chain (m : Z -> Z) (a : Z) (bs : list (Z * Z)) (e : Z) : Prop :=
  match bs with
  | [] => a = e
  | (s, al) :: rest =>
      (8 <= s /\ s mod 8 = 0) /\ (al = 0 \/ al = 1) /\
      m a = Z.lor s al /\ m (a + s - 4) = Z.lor s al /\
      chain m (a + s) rest e
  end.

(** Total size of the blocks. *)
Fixpoint total (bs : list (Z * Z)) : Z :=
  match bs with
  | [] => 0
  | (s, _) :: rest => s + total rest
  end.

(** The blocks with their addresses, and the addresses of the free ones. *)
Fixpoint layout (a : Z) (bs : list (Z * Z)) : list (Z * Z * Z) :=
  match bs with
  | [] => []
  | (s, al) :: rest => (a, s, al) :: layout (a + s) rest
  end.

Fixpoint free_addrs (a : Z) (bs : list (Z * Z)) : list Z :=
  match bs with
  | [] => []
  | (s, al) :: rest =>
      if al =? 0 then a :: free_addrs (a + s) rest
      else free_addrs (a + s) rest
  end.

(** No two neighbouring blocks are both free. *)
Fixpoint coalesced (bs : list (Z * Z)) : Prop :=
  match bs with
  | [] => True
  | (_, al) :: rest =>
      (al = 0 -> match rest with (_, al') :: _ => al' <> 0 | [] => True end) /\
      coalesced rest
  end.

(** Every block but the one at [hb] (the prologue) has at least 16 bytes:
    room for a header, a footer and the two links of the free list. *)
Definition min_sized (hb : Z) (bs : list (Z * Z)) : Prop :=
  forall x s al, In (x, s, al) (layout hb bs) -> x <> hb -> 16 <= s.

(** The shape of the heap, without the facts that never change. *)
Record shape (st : state) (bs : list (Z * Z)) : Prop := {
  sh_chain : chain (mem st) (heap_blocks st) bs (mem_brk st - 4);
  sh_epilogue : mem st (mem_brk st - 4) = Z.lor 0 1;
  sh_list : Permutation (mm_list_headp st) (free_addrs (heap_blocks st) bs)
}.

(** The invariant: the heap is a chain of well-formed blocks that starts
    with the prologue (8 bytes, allocated) and ends at the epilogue, the
    free list is a permutation of the addresses of the free blocks, block
    addresses are 4 modulo 8, every size fits an [int], free blocks are
    never neighbours, and every block after the prologue has at least 16
    bytes. *)
Record heap_ok (st : state) (bs : list (Z * Z)) : Prop := {
  ok_shape : shape st bs;
  ok_head : hd_error bs = Some (8, 1);
  ok_align : heap_blocks st mod 8 = 4;
  ok_pos : 0 < heap_blocks st;
  ok_brk : mem_brk st <= mem_max_addr st;
  ok_range : mem_max_addr st - heap_blocks st < 2 ^ 31;
  ok_coalesced : coalesced bs;
  ok_min : min_sized (heap_blocks st) bs
}.

(** What [free_coalesce] expects at [bp]: well-formed blocks before and
    after, a header announcing [s] bytes, and a free list that does not
    yet count the block. *)
Record pre_free (st : state) (bp : Z) (pre : list (Z * Z)) (sp ap s al : Z)
    (post : list (Z * Z)) : Prop := {
  pf_pre : chain (mem st) (heap_blocks st) (pre ++ [(sp, ap)]) bp;
  pf_hdr : mem st bp = Z.lor s al;
  pf_size : 8 <= s /\ s mod 8 = 0;
  pf_bit : al = 0 \/ al = 1;
  pf_post : chain (mem st) (bp + s) post (mem_brk st - 4);
  pf_epilogue : mem st (mem_brk st - 4) = Z.lor 0 1;
  pf_list : Permutation (mm_list_headp st)
              (free_addrs (heap_blocks st) (pre ++ (sp, ap) :: (s, 1) :: post));
  pf_range : mem_brk st - heap_blocks st < 2 ^ 31
}.

(** The blocks after [free_coalesce] on the block of [s] bytes that sits
    between [pre ++ [(sp, ap)]] and [post]. *)
Definition coalesce_blocks (pre : list (Z * Z)) (sp ap s : Z)
    (post : list (Z * Z)) : list (Z * Z) :=
  match post with
  | (sn, an) :: post' =>
      if an =? 0 then
        if ap =? 0 then pre ++ (s + (sn + sp), 0) :: post'
        else pre ++ (sp, ap) :: (s + sn, 0) :: post'
      else
        if ap =? 0 then pre ++ (s + sp, 0) :: post
        else pre ++ (sp, ap) :: (s, 0) :: post
  | [] =>
      if ap =? 0 then pre ++ (s + sp, 0) :: post
      else pre ++ (sp, ap) :: (s, 0) :: post
  end.

(** The size of the block that follows, when it is free. *)
Definition free_next (post : list (Z * Z)) : Z :=
  match post with
  | (sn, an) :: _ => if an =? 0 then sn else 0
  | [] => 0
  end.

(** Whether the block that follows is free. *)
Definition next_is_free (post : list (Z * Z)) : bool :=
  match post with
  | (_, an) :: _ => an =? 0
  | [] => false
  end.

(** The blocks after [place] has served [R] bytes from the free block of
    [S] bytes between [pre] and [post]. *)
Definition place_blocks (pre : list (Z * Z)) (S R : Z) (post : list (Z * Z))
  : list (Z * Z) :=
  if S - R <? 16 then pre ++ (S, 1) :: post
  else if 75 <=? R then pre ++ (S - R, 0) :: (R, 1) :: post
  else pre ++ (R, 1) :: (S - R, 0) :: post.

(** Every allocated block of [bs] is an allocated block of [bs'], at the
    same address and with the same size. *)
Definition keeps_allocated (hb : Z) (bs bs' : list (Z * Z)) : Prop :=
  forall x sz, In (x, sz, 1) (layout hb bs) -> In (x, sz, 1) (layout hb bs').

(** The words of the block of [sz] bytes at [x], tags included, are the
    same in [st'] as in [st]. *)
Definition block_kept (st st' : state) (x sz : Z) : Prop :=
  forall y, x <= y < x + sz -> mem st' y = mem st y.

(** No allocated block of [bs] has had a word changed between [st] and
    [st']. *)
Definition keeps_contents (st st' : state) (bs : list (Z * Z)) : Prop :=
  forall x sz, In (x, sz, 1) (layout (heap_blocks st) bs) ->
               block_kept st st' x sz.

(** Between [st] and [st'] no word below the heap's first block or at or
    above the (new) break has changed. *)
Definition outside_kept (st st' : state) : Prop :=
  forall y, y < heap_blocks st \/ mem_brk st' <= y -> mem st' y = mem st y.

(** [p] is the payload of an allocated block of [bs] other than the
    prologue. *)
Definition live_in (st : state) (bs : list (Z * Z)) (p : Z) : Prop :=
  p - 4 <> heap_blocks st /\ exists s, In (p - 4, s, 1) (layout (heap_blocks st) bs).

(** ** Heap walk, live pointers and reachable states *)

(** The addresses a heap walk visits: from the prologue, from block to
    physically next block, until a header of size 0 (the epilogue). *)
Inductive heap_walk (st : state) : Z -> Prop :=
| walk_first : heap_walk st (heap_blocks st)
| walk_next a :
    heap_walk st a -> mm_block_size st a <> 0 ->
    heap_walk st (mm_block_next st a).

(** A block that is neither of the two sentinels. *)
Definition is_block (st : state) (a : Z) : Prop :=
  heap_walk st a /\ a <> heap_blocks st /\ mm_block_size st a <> 0.

(** A live pointer: the payload address of an allocated block. *)
Definition live (st : state) (p : Z) : Prop :=
  is_block st (p - 4) /\ mm_block_allocated st (p - 4) <> 0.

(** The block-level content of two states is the same: the same blocks,
    with the same sizes and allocation bits. *)
Definition same_blocks (st st' : state) : Prop :=
  forall a,
    (is_block st' a <-> is_block st a) /\
    (is_block st a ->
     mm_block_size st' a = mm_block_size st a /\
     mm_block_allocated st' a = mm_block_allocated st a).

(** The states of the allocator at operation boundaries: after a
    successful [mm_init] on an 8-byte aligned store of less than 2^31
    bytes, then after any call of [mm_malloc], [mm_free] or [mm_realloc]
    that returns, on null or live pointers, with requests whose block size
    fits an [int]. *)
Inductive reachable : state -> Prop :=
| reach_init st0 :
    0 < mem_brk st0 -> mem_brk st0 mod 8 = 0 ->
    mem_max_addr st0 - mem_brk st0 < 2 ^ 31 ->
    fst (mm_init st0) = 0 ->
    reachable (snd (mm_init st0))
| reach_malloc st fuel n p st' :
    reachable st -> 0 <= n -> n + 15 < 2 ^ 31 ->
    mm_malloc fuel st n = Some (p, st') ->
    reachable st'
| reach_free st p :
    reachable st -> p = NULL \/ live st p ->
    reachable (mm_free st p)
| reach_realloc st fuel p n q st' :
    reachable st -> p = NULL \/ live st p ->
    0 <= n -> n + 15 < 2 ^ 31 ->
    mm_realloc fuel st p n = Some (q, st') ->
    reachable st'.

(** ** Concrete heaps used to exercise the statements *)

(** A backing store of [cap] bytes starting at address 1000, not yet
    initialised. *)
Definition arena (cap : Z) : state :=
  mkState (fun _ => 0) 1000 (1000 + cap) 0 [].

(** The freshly initialised heap on a 4096-byte store: one free block of 64
    bytes at 1012. *)
Definition fresh_heap : state := snd (mm_init (arena 4096)).

(** The state, and the pointer, of a result that did return. *)
Definition state_after (r : option (Z * state)) (dflt : state) : state :=
  match r with Some (_, s) => s | None => dflt end.

Definition pointer_of (r : option (Z * state)) : Z :=
  match r with Some (p, _) => p | None => NULL end.

(** [fresh_heap] after [mm_malloc(8)]: an allocated block of 16 bytes at
    1012 (payload 1016) followed by a free block of 48 bytes at 1028. *)
Definition heap_one_alloc : state :=
  state_after (mm_malloc 0 fresh_heap 8) fresh_heap.

(** The heap initialised on a store of exactly 80 bytes: the 16 bytes of
    sentinels and the first 64-byte free block fill it. *)
Definition full_heap : state := snd (mm_init (arena 80)).

(** [full_heap] after [mm_malloc(8)]: an allocated block of 16 bytes at
    1012 (payload 1016) and a free block of 48 bytes; the store has no byte
    left. *)
Definition full_heap_one_alloc : state :=
  state_after (mm_malloc 0 full_heap 8) full_heap.

(** [fresh_heap] after two [mm_malloc(40)]: allocated blocks of 48 bytes at
    1012 and 1060 (payloads 1016 and 1064), then a free block of 480 bytes
    at 1108 that ends the heap. *)
Definition two_allocs : state :=
  state_after
    (mm_malloc 1 (state_after (mm_malloc 0 fresh_heap 40) fresh_heap) 40)
    fresh_heap.

(** [heap_one_alloc] after a second [mm_malloc(8)]: allocated blocks of 16
    bytes at 1012 and 1028 (payloads 1016 and 1032), then a free block of
    32 bytes. *)
Definition two_small_allocs : state :=
  state_after (mm_malloc 0 heap_one_alloc 8) heap_one_alloc.

(** [fresh_heap] after [mm_malloc(100)]: no block fits, the heap grows by
    512 bytes and the block of 112 bytes is carved from the high end of the
    576-byte free block (payload 1480). *)
Definition grown_heap : state :=
  state_after (mm_malloc 1 fresh_heap 100) fresh_heap.

(** [two_allocs] after [mm_realloc(1016, 100)]: the block at 1012 cannot
    grow in place (its neighbour is allocated), so the payload moves to a
    new block (payload 1480) and the old block is freed. *)
Definition moved_heap : state :=
  state_after (mm_realloc 0 two_allocs 1016 100) two_allocs.

(** The state after [mm_init(); mm_malloc(4294967288); p = mm_malloc(56);
    mm_free(p)] on a 4096-byte store. *)
Definition corrupted_heap : state :=
  let s1 := state_after (mm_malloc 0 fresh_heap 4294967288) fresh_heap in
  let r2 := mm_malloc 0 s1 56 in
  mm_free (state_after r2 s1) (pointer_of r2).

(** * Properties *)

(** ** Arithmetic of tags and machine integers *)

Ltac zlia := first [lia | Z.to_euclidean_division_equations; lia].

Lemma wrap32_id z : - 2 ^ 31 <= z < 2 ^ 31 -> wrap32 z = z.
Proof. intros H. unfold wrap32. zlia. Qed.

Lemma to_size_t_id z : 0 <= z < 2 ^ 32 -> to_size_t z = z.
Proof. intros H. unfold to_size_t. zlia. Qed.

Lemma int_add_id a b : - 2 ^ 31 <= a + b < 2 ^ 31 -> int_add a b = a + b.
Proof. apply wrap32_id. Qed.

Lemma int_sub_id a b : - 2 ^ 31 <= a - b < 2 ^ 31 -> int_sub a b = a - b.
Proof. apply wrap32_id. Qed.

Lemma land_m8 x : Z.land x (-8) = 8 * (x / 8).
Proof.
  change (-8) with (Z.lnot (Z.ones 3)).
  rewrite <- Z.ldiff_land, Z.ldiff_ones_r by lia.
  rewrite Z.shiftl_mul_pow2, Z.shiftr_div_pow2 by lia.
  change (2 ^ 3) with 8. lia.
Qed.

Lemma land_1 x : Z.land x 1 = x mod 2.
Proof. change 1 with (Z.ones 1). now rewrite Z.land_ones by lia. Qed.

Lemma lor_bit s a : s mod 8 = 0 -> a = 0 \/ a = 1 -> Z.lor s a = s + a.
Proof.
  intros Hs [-> | ->].
  - now rewrite Z.lor_0_r, Z.add_0_r.
  - assert (Hd : Z.land s 1 = 0) by (rewrite land_1; zlia).
    rewrite <- Z.lxor_lor by assumption.
    symmetry. now apply Z.add_nocarry_lxor.
Qed.

(** Decoding a freshly encoded tag gives back its two fields. *)
Lemma tag_size s a : s mod 8 = 0 -> a = 0 \/ a = 1 -> Z.land (Z.lor s a) (-8) = s.
Proof. intros Hs Ha. rewrite lor_bit, land_m8 by assumption. zlia. Qed.

Lemma tag_alloc s a : s mod 8 = 0 -> a = 0 \/ a = 1 -> Z.land (Z.lor s a) 1 = a.
Proof. intros Hs Ha. rewrite lor_bit, land_1 by assumption. zlia. Qed.

Lemma size_mod8 x : Z.land x (-8) mod 8 = 0.
Proof. rewrite land_m8. zlia. Qed.

Lemma mm_block_size_mod8 st bp : mm_block_size st bp mod 8 = 0.
Proof. apply size_mod8. Qed.

(** ** Memory updates *)

Lemma upd_eq m a v x : x = a -> upd m a v x = v.
Proof. intros ->. unfold upd. now rewrite Z.eqb_refl. Qed.

Lemma upd_neq m a v x : x <> a -> upd m a v x = m x.
Proof. intros H. unfold upd. apply Z.eqb_neq in H. now rewrite H. Qed.

(** Symbolic execution of the codec over a chain of stores: expose the
    memory, settle each lookup by arithmetic, decode the tags met. *)
Ltac expose :=
  cbn beta iota delta
    [mem mem_brk mem_max_addr heap_blocks mm_list_headp store set_list
     set_heap_blocks mm_block_set_header mm_block_set_footer
     mm_list_prepend mm_list_remove mm_list_init fst snd].

Ltac bit := first [assumption | left; reflexivity | right; reflexivity | zlia].

Ltac mstep :=
  match goal with
  | |- context [upd ?m ?a ?v ?x] =>
      first [rewrite (upd_eq m a v x) by lia | rewrite (upd_neq m a v x) by lia]
  | |- context [Z.land (Z.lor ?s ?a) (-8)] => rewrite (tag_size s a) by bit
  | |- context [Z.land (Z.lor ?s ?a) 1] => rewrite (tag_alloc s a) by bit
  | H : mem ?st ?a = _ |- context [mem ?st ?b] =>
      first [rewrite H
            | replace (mem st b) with (mem st a) by (f_equal; lia); rewrite H]
  | |- context [int_add ?a ?b] => rewrite (int_add_id a b) by lia
  | |- context [int_sub ?a ?b] => rewrite (int_sub_id a b) by lia
  | |- context [wrap32 ?a] => rewrite (wrap32_id a) by lia
  | |- context [to_size_t ?a] => rewrite (to_size_t_id a) by lia
  end.

Ltac unfold_codec :=
  unfold mm_block_next, mm_block_prev, mm_block_allocated, mm_block_size;
  expose.

Ltac unfold_writes :=
  unfold mm_list_prepend, mm_list_remove, mm_list_init, mm_block_set_header,
    mm_block_set_footer, store, set_list, set_heap_blocks;
  expose.

Ltac msimpl :=
  repeat first [ progress unfold_codec
               | mstep
               | progress cbn [negb andb orb Z.eqb Pos.eqb Z.leb Z.ltb Z.compare
                               Pos.compare Pos.compare_cont] ].

(** Settle the guard of a conditional before looking at its branches. *)
Ltac mif :=
  match goal with
  | |- context [if ?c then _ else _] =>
      let H := fresh in
      first [ assert (H : c = true) by (msimpl; first [reflexivity | lia])
            | assert (H : c = false) by (msimpl; first [reflexivity | lia]) ];
      rewrite H; clear H
  end.

Ltac mexec := repeat mif; msimpl; unfold_writes; msimpl.

(** Stepping through a function body: a [let] is substituted once its
    definition has been brought to a plain record of stores, a conditional
    is replaced by the branch its guard selects. *)
Lemma let_subst {A B : Type} (e e' : A) (f : A -> B) (r : B) :
  e = e' -> f e' = r -> (let x := e in f x) = r.
Proof. intros -> <-. reflexivity. Qed.

Ltac canon := msimpl; unfold_writes; msimpl.

Ltac step :=
  lazymatch goal with
  | |- (let x := ?e in @?f x) = ?r =>
      refine (let_subst e _ f r _ _); [canon; reflexivity | cbv beta]
  | |- (if ?c then _ else _) = _ =>
      let H := fresh in
      first [ assert (H : c = true) by (msimpl; first [reflexivity | lia])
            | assert (H : c = false) by (msimpl; first [reflexivity | lia]) ];
      rewrite H; clear H
  | |- match Some _ with Some _ => _ | None => _ end = _ => cbv beta iota
  | |- match None with Some _ => _ | None => _ end = _ => cbv beta iota
  end.

Ltac steps := repeat step.

(** Two states (or results) built from the same stores at provably equal
    addresses. *)
Ltac state_eq := canon; repeat first [reflexivity | lia | progress f_equal].

Lemma mem_sbrk_ok st incr :
  0 <= incr -> mem_brk st + incr <= mem_max_addr st ->
  mem_sbrk st incr =
    Some (mem_brk st, mkState (mem st) (mem_brk st + incr) (mem_max_addr st)
                              (heap_blocks st) (mm_list_headp st)).
Proof.
  intros H1 H2. unfold mem_sbrk.
  replace (incr <? 0) with false by lia.
  replace (mem_max_addr st <? mem_brk st + incr) with false by lia.
  reflexivity.
Qed.

Lemma mem_sbrk_full st incr :
  mem_max_addr st < mem_brk st + incr -> mem_sbrk st incr = None.
Proof.
  intros H. unfold mem_sbrk.
  replace (mem_max_addr st <? mem_brk st + incr) with true by lia.
  now rewrite orb_true_r.
Qed.

(** ** The four cases of [free_coalesce] *)

Section FreeCoalesce.
Variables (st : state) (bp s al sp ap sn an : Z).
Hypothesis Hhdr : mem st bp = Z.lor s al.
Hypothesis Hpftr : mem st (bp - 4) = Z.lor sp ap.
Hypothesis Hphdr : mem st (bp - sp) = Z.lor sp ap.
Hypothesis Hnhdr : mem st (bp + s) = Z.lor sn an.
Hypothesis Hs : 8 <= s /\ s mod 8 = 0.
Hypothesis Hsp : 8 <= sp /\ sp mod 8 = 0.
Hypothesis Hsn : 0 <= sn /\ sn mod 8 = 0.
Hypothesis Hal : al = 0 \/ al = 1.
Hypothesis Hap : ap = 0 \/ ap = 1.
Hypothesis Han : an = 0 \/ an = 1.
Hypothesis Hrange : sp + s + sn < 2 ^ 31.

Lemma free_coalesce_alloc_alloc :
  ap = 1 -> an = 1 ->
  free_coalesce st bp =
    (bp, mkState (marked_free st bp s) (mem_brk st) (mem_max_addr st) (heap_blocks st)
                 (bp :: mm_list_headp st)).
Proof.
  intros -> ->. unfold marked_free. cbv beta delta [free_coalesce].
  steps. state_eq.
Qed.

Lemma free_coalesce_alloc_free :
  ap = 1 -> an = 0 ->
  free_coalesce st bp =
    (bp, mkState (upd (upd (marked_free st bp s) bp (Z.lor (s + sn) 0))
                      (bp + (s + sn) - 4) (Z.lor (s + sn) 0))
                 (mem_brk st) (mem_max_addr st) (heap_blocks st)
                 (bp :: remove_first (bp + s) (mm_list_headp st))).
Proof.
  intros -> ->. unfold marked_free. cbv beta delta [free_coalesce].
  steps. state_eq.
Qed.

Lemma free_coalesce_free_alloc :
  ap = 0 -> an = 1 ->
  free_coalesce st bp =
    (bp - sp,
     mkState (upd (upd (marked_free st bp s) (bp - sp) (Z.lor (s + sp) 0))
                  (bp - sp + (s + sp) - 4) (Z.lor (s + sp) 0))
             (mem_brk st) (mem_max_addr st) (heap_blocks st)
             (mm_list_headp st)).
Proof.
  intros -> ->. unfold marked_free. cbv beta delta [free_coalesce].
  steps. state_eq.
Qed.

Lemma free_coalesce_free_free :
  ap = 0 -> an = 0 ->
  free_coalesce st bp =
    (bp - sp,
     mkState (upd (upd (marked_free st bp s) (bp - sp) (Z.lor (s + (sn + sp)) 0))
                  (bp - sp + (s + (sn + sp)) - 4) (Z.lor (s + (sn + sp)) 0))
             (mem_brk st) (mem_max_addr st) (heap_blocks st)
             (remove_first (bp + s) (mm_list_headp st))).
Proof.
  intros -> ->. unfold marked_free. cbv beta delta [free_coalesce].
  steps. state_eq.
Qed.
End FreeCoalesce.

(** ** Growing the heap *)

Lemma extend_heap_grows st size :
  0 <= size -> size mod 8 = 0 -> mem_brk st + size <= mem_max_addr st ->
  extend_heap st size = free_coalesce (grown st size) (mem_brk st - 4).
Proof.
  intros Hpos Hmod Hfit. assert (Hne : size <> 4) by zlia.
  cbv beta delta [extend_heap].
  rewrite mem_sbrk_ok by assumption. cbv beta iota. steps.
  unfold grown. state_eq.
Qed.

(** ** Initialisation *)

Lemma mm_init_state st :
  mem_brk st + 80 <= mem_max_addr st ->
  mm_init st =
    (0, mkState (init_mem (mem st) (mem_brk st)) (mem_brk st + 80)
                (mem_max_addr st) (mem_brk st + 4) [mem_brk st + 12]).
Proof.
  intros Hcap. cbv beta delta [mm_init]. steps.
  rewrite mem_sbrk_ok by (expose; lia). steps.
  rewrite extend_heap_grows by (expose; zlia).
  unfold grown. expose.
  rewrite (free_coalesce_alloc_alloc _ _ 64 0 8 1 0 1)
    by (msimpl; first [reflexivity | zlia]).
  unfold marked_free, init_mem. state_eq.
Qed.

(** ** Placement and splitting *)

Section Place.
Variables (st : state) (bp S R : Z).
Hypothesis Hhdr : mem st bp = Z.lor S 0.
Hypothesis HS : S mod 8 = 0.
Hypothesis HR : R mod 8 = 0.
Hypothesis HRS : 0 < R <= S.
Hypothesis Hrange : S < 2 ^ 31.

Lemma place_whole :
  S - R < 16 ->
  place st bp R =
    (bp, mkState (upd (upd (mem st) bp (Z.lor S 1)) (bp + S - 4) (Z.lor S 1))
                 (mem_brk st) (mem_max_addr st) (heap_blocks st)
                 (remove_first bp (mm_list_headp st))).
Proof.
  intros Hsmall. assert (HR8 : 8 <= R) by zlia.
  cbv beta delta [place]. steps. state_eq.
Qed.

Lemma place_high :
  16 <= S - R -> 75 <= R ->
  place st bp R =
    (bp + (S - R),
     mkState (upd (upd (upd (upd (upd (upd (mem st)
                bp (Z.lor (S - R) 1)) (bp + (S - R) - 4) (Z.lor (S - R) 1))
                (bp + (S - R)) (Z.lor R 1))
                (bp + (S - R) + R - 4) (Z.lor R 1))
                bp (Z.lor (S - R) 0)) (bp + (S - R) - 4) (Z.lor (S - R) 0))
             (mem_brk st) (mem_max_addr st) (heap_blocks st)
             (mm_list_headp st)).
Proof.
  intros Hbig Hthr. assert (HR8 : 8 <= R) by zlia.
  cbv beta delta [place]. steps. state_eq.
Qed.

Lemma place_low :
  16 <= S - R -> R < 75 ->
  place st bp R =
    (bp, mkState (upd (upd (upd (upd (mem st)
                    bp (Z.lor R 1)) (bp + R - 4) (Z.lor R 1))
                    (bp + R) (Z.lor (S - R) 0))
                    (bp + R + (S - R) - 4) (Z.lor (S - R) 0))
                 (mem_brk st) (mem_max_addr st) (heap_blocks st)
                 (remove_first bp (bp + R :: mm_list_headp st))).
Proof.
  intros Hbig Hthr. assert (HR8 : 8 <= R) by zlia.
  cbv beta delta [place]. steps. state_eq.
Qed.
End Place.

Lemma remove_first_cons_neq x y l :
  y <> x -> remove_first x (y :: l) = y :: remove_first x l.
Proof. intros H. cbn. apply Z.eqb_neq in H. now rewrite H. Qed.

Lemma remove_first_head x y l : y = x -> remove_first x (y :: l) = l.
Proof. intros ->. cbn. now rewrite Z.eqb_refl. Qed.

Ltac list_norm :=
  repeat first [ rewrite remove_first_head by lia
               | rewrite remove_first_cons_neq by lia ].

Ltac fin := list_norm; repeat first [reflexivity | lia | progress f_equal].

Ltac block_facts :=
  unfold block, same_outside; repeat split; intros; msimpl;
  first [reflexivity | lia | idtac].

(** C3: the placement policy of [place].  A free block of [S] bytes at [bp]
    receives a request of [R] bytes (both multiples of 8, [0 < R <= S]).
    When less than 16 bytes would remain, the whole block is allocated and
    leaves the free list.  Otherwise it is split: for [R >= 75] the
    allocated piece is the high end, the free remainder keeps the address
    [bp] and the free list is not touched; for [R < 75] the allocated piece
    is the low end and leaves the list, the remainder at [bp + R] enters it.
    The handle returned is always the allocated piece; nothing outside the
    block's bytes changes. *)
Theorem place_policy st bp S R :
  mem st bp = Z.lor S 0 -> S mod 8 = 0 -> R mod 8 = 0 ->
  0 < R <= S -> S < 2 ^ 31 ->
  let h := fst (place st bp R) in
  let st' := snd (place st bp R) in
  same_outside st st' bp (bp + S) /\
  (S - R < 16 ->
     h = bp /\ block st' bp S 1 /\
     mm_list_headp st' = remove_first bp (mm_list_headp st)) /\
  (16 <= S - R -> 75 <= R ->
     h = bp + (S - R) /\ block st' h R 1 /\ block st' bp (S - R) 0 /\
     mm_list_headp st' = mm_list_headp st) /\
  (16 <= S - R -> R < 75 ->
     h = bp /\ block st' bp R 1 /\ block st' (bp + R) (S - R) 0 /\
     mm_list_headp st' = bp + R :: remove_first bp (mm_list_headp st)).
Proof.
  intros Hhdr HS HR HRS Hrange h st'. subst h st'.
  assert (HR8 : 8 <= R) by zlia.
  destruct (Z.lt_ge_cases (S - R) 16) as [Hsmall | Hbig].
  - rewrite (place_whole st bp S R) by assumption.
    block_facts.
  - destruct (Z.lt_ge_cases R 75) as [Hlow | Hhigh].
    + rewrite (place_low st bp S R) by assumption.
      block_facts. apply remove_first_cons_neq. lia.
    + rewrite (place_high st bp S R) by assumption.
      block_facts.
Qed.

(** ** Facts about closed terms *)

(** Settled by evaluation. *)
Ltac closed_fact :=
  vm_compute; first [reflexivity | discriminate | intuition congruence].

Ltac closed_facts :=
  repeat match goal with |- _ /\ _ => split end; closed_fact.

Lemma place_policy_witness :
  (mem fresh_heap 1012 = Z.lor 64 0 /\ 64 mod 8 = 0 /\ 16 mod 8 = 0 /\
   0 < 16 <= 64 /\ 64 < 2 ^ 31) /\
  fst (place fresh_heap 1012 16) = 1012 /\
  mm_list_headp (snd (place fresh_heap 1012 16)) = [1028].
Proof.
  assert (H : mem fresh_heap 1012 = Z.lor 64 0 /\ 64 mod 8 = 0 /\
              16 mod 8 = 0 /\ 0 < 16 <= 64 /\ 64 < 2 ^ 31).
  { closed_facts. }
  split; [exact H|].
  destruct H as (H1 & H2 & H3 & H4 & H5).
  destruct (place_policy fresh_heap 1012 64 16 H1 H2 H3 H4 H5)
    as (_ & _ & _ & Hlow).
  destruct Hlow as (Hh & _ & _ & Hl); [lia | lia |].
  split; [exact Hh | exact Hl].
Defined.

(** ** Resizing in place *)

(** C8: [mm_realloc] with a request that fits the present payload returns
    the pointer it was given and leaves the whole state as it is. *)
Theorem mm_realloc_fits_unchanged fuel st p n :
  p <> NULL -> 0 < n ->
  mm_block_size st (p - 4) < 2 ^ 31 ->
  n <= mm_block_size st (p - 4) - 8 ->
  mm_realloc fuel st p n = Some (p, st).
Proof.
  intros Hp Hn Hint Hfit. unfold mm_realloc.
  apply Z.eqb_neq in Hp. rewrite Hp.
  replace (n =? 0) with false by (symmetry; apply Z.eqb_neq; lia).
  cbv zeta. rewrite int_sub_id, to_size_t_id by lia.
  replace (n <=? mm_block_size st (p - 4) - 8) with true
    by (symmetry; apply Z.leb_le; lia).
  reflexivity.
Qed.

Lemma mm_realloc_fits_unchanged_witness :
  (1016 <> NULL /\ 0 < 5 /\ mm_block_size heap_one_alloc (1016 - 4) < 2 ^ 31 /\
   5 <= mm_block_size heap_one_alloc (1016 - 4) - 8) /\
  mm_realloc 0 heap_one_alloc 1016 5 = Some (1016, heap_one_alloc).
Proof.
  assert (H : 1016 <> NULL /\ 0 < 5 /\
              mm_block_size heap_one_alloc (1016 - 4) < 2 ^ 31 /\
              5 <= mm_block_size heap_one_alloc (1016 - 4) - 8).
  { closed_facts. }
  split; [exact H|].
  destruct H as (H1 & H2 & H3 & H4).
  exact (mm_realloc_fits_unchanged 0 heap_one_alloc 1016 5 H1 H2 H3 H4).
Defined.

Section Absorb.
Variables (fuel : nat) (st : state) (p n s sn : Z).
Hypothesis Hp : p <> NULL.
Hypothesis Hhdr : mem st (p - 4) = Z.lor s 1.
Hypothesis Hnhdr : mem st (p - 4 + s) = Z.lor sn 0.
Hypothesis Hs : 8 <= s /\ s mod 8 = 0.
Hypothesis Hsn : 0 <= sn /\ sn mod 8 = 0.
Hypothesis Hrange : s + sn < 2 ^ 31.
Hypothesis Hgrow : s - 8 < n <= s + sn - 8.

Lemma mm_realloc_absorb :
  mm_realloc fuel st p n =
    Some (p, mkState (upd (upd (mem st) (p - 4) (Z.lor (s + sn) 1))
                          (p - 4 + (s + sn) - 4) (Z.lor (s + sn) 1))
                     (mem_brk st) (mem_max_addr st) (heap_blocks st)
                     (remove_first (p - 4 + s) (mm_list_headp st))).
Proof.
  unfold mm_realloc. cbv zeta.
  apply Z.eqb_neq in Hp. rewrite Hp.
  replace (n =? 0) with false by (symmetry; apply Z.eqb_neq; lia).
  mexec. reflexivity.
Qed.
End Absorb.

(** C7: growing in place.  [p] is a live pointer whose block ([s] bytes) is
    physically followed by a free block ([sn] bytes); a request [n] larger
    than the present capacity [s - 8] but within [s + sn - 8] is served by
    absorbing the neighbour: it leaves the free list, header and footer are
    rewritten as one allocated block of [s + sn] bytes, [p] is returned, and
    the heap has not grown. *)
Theorem mm_realloc_absorbs_next fuel st p n s sn :
  p <> NULL ->
  mem st (p - 4) = Z.lor s 1 -> mem st (p - 4 + s) = Z.lor sn 0 ->
  8 <= s /\ s mod 8 = 0 -> 0 <= sn /\ sn mod 8 = 0 -> s + sn < 2 ^ 31 ->
  s - 8 < n <= s + sn - 8 ->
  exists st',
    mm_realloc fuel st p n = Some (p, st') /\
    block st' (p - 4) (s + sn) 1 /\
    mm_list_headp st' = remove_first (p - 4 + s) (mm_list_headp st) /\
    same_outside st st' (p - 4) (p - 4 + (s + sn)).
Proof.
  intros Hp Hhdr Hnhdr Hs Hsn Hrange Hgrow.
  eexists. split.
  - apply (mm_realloc_absorb fuel st p n s sn); assumption.
  - block_facts.
Qed.

Lemma mm_realloc_absorbs_next_witness :
  (1016 <> NULL /\ mem heap_one_alloc (1016 - 4) = Z.lor 16 1 /\
   mem heap_one_alloc (1016 - 4 + 16) = Z.lor 48 0 /\
   (8 <= 16 /\ 16 mod 8 = 0) /\ (0 <= 48 /\ 48 mod 8 = 0) /\
   16 + 48 < 2 ^ 31 /\ 16 - 8 < 20 <= 16 + 48 - 8) /\
  exists st',
    mm_realloc 0 heap_one_alloc 1016 20 = Some (1016, st') /\
    block st' (1016 - 4) (16 + 48) 1 /\
    mm_list_headp st' = remove_first (1016 - 4 + 16) (mm_list_headp heap_one_alloc) /\
    same_outside heap_one_alloc st' (1016 - 4) (1016 - 4 + (16 + 48)).
Proof.
  assert (H : 1016 <> NULL /\ mem heap_one_alloc (1016 - 4) = Z.lor 16 1 /\
   mem heap_one_alloc (1016 - 4 + 16) = Z.lor 48 0 /\
   (8 <= 16 /\ 16 mod 8 = 0) /\ (0 <= 48 /\ 48 mod 8 = 0) /\
   16 + 48 < 2 ^ 31 /\ 16 - 8 < 20 <= 16 + 48 - 8).
  { closed_facts. }
  split; [exact H|].
  destruct H as (H1 & H2 & H3 & H4 & H5 & H6 & H7).
  exact (mm_realloc_absorbs_next 0 heap_one_alloc 1016 20 16 48
           H1 H2 H3 H4 H5 H6 H7).
Defined.

(** ** Block-size computation *)

Lemma required_block_size_in_range n :
  0 <= n -> n + 15 < 2 ^ 31 ->
  required_block_size (wrap32 n) = round_up_8 (n + 8).
Proof.
  intros Hn Hr. unfold required_block_size, round_up_8, int_mul, int_div.
  cbv zeta. rewrite (wrap32_id n) by lia.
  rewrite (int_add_id n 8), (int_add_id (n + 8) 7) by lia.
  rewrite Z.quot_div_nonneg by lia.
  rewrite (wrap32_id ((n + 8 + 7) / 8)) by zlia.
  rewrite wrap32_id by zlia. lia.
Qed.

(** C10: the request is converted to a 32-bit [int] and rounded in signed
    arithmetic.  While [n + 15 < 2^31] the block size is [n + 8] rounded up
    to a multiple of 8; beyond that the truncated value can be too small:
    [mm_malloc(4294967295)] on a freshly initialised heap succeeds with a
    block of 8 bytes, whose payload capacity is 0. *)
Theorem required_block_size_truncates :
  (forall n, 0 <= n -> n + 15 < 2 ^ 31 ->
     required_block_size (wrap32 n) = round_up_8 (n + 8)) /\
  (exists n p st',
     2 ^ 31 <= n < 2 ^ 32 /\
     mm_malloc 0 fresh_heap n = Some (p, st') /\ p <> NULL /\
     mm_block_allocated st' (p - 4) = 1 /\
     mm_block_size st' (p - 4) - 8 < n).
Proof.
  split.
  - exact required_block_size_in_range.
  - exists 4294967295, 1016.
    eexists. split; [lia|]. split; [vm_compute; reflexivity|].
    closed_facts.
Qed.

Lemma required_block_size_truncates_witness :
  (0 <= 100 /\ 100 + 15 < 2 ^ 31) /\
  required_block_size (wrap32 100) = round_up_8 (100 + 8).
Proof.
  assert (H : 0 <= 100 /\ 100 + 15 < 2 ^ 31) by closed_facts.
  split; [exact H|].
  destruct H as (H1 & H2).
  exact (proj1 required_block_size_truncates 100 H1 H2).
Defined.

(** ** Exhaustion of the backing store *)

Lemma extend_heap_fails st size :
  mem_sbrk st size = None -> extend_heap st size = (NULL, st).
Proof. intros H. unfold extend_heap. now rewrite H. Qed.

Lemma malloc_loop_stuck fuel : forall st r,
  find_fit st r = NULL ->
  mem_sbrk st (if 512 <? r then r else 512) = None ->
  malloc_loop fuel st r NULL = None.
Proof.
  induction fuel as [|fuel IH]; intros st r Hfit Hfail; cbn.
  - reflexivity.
  - rewrite (extend_heap_fails _ _ Hfail). cbn [snd].
    rewrite Hfit. now apply IH.
Qed.

(** C1 (what the code does when the store is exhausted): the result of
    [extend_heap] is not looked at, so once no free block fits and
    [mem_sbrk] refuses the growth, the loop of [mm_malloc] repeats the same
    failing step in the same state; no amount of fuel makes it return. *)
Theorem mm_malloc_spins_on_exhaustion st n :
  n <> 0 ->
  find_fit st (required_block_size (wrap32 n)) = NULL ->
  mem_sbrk st (if 512 <? required_block_size (wrap32 n)
               then required_block_size (wrap32 n) else 512) = None ->
  forall fuel, mm_malloc fuel st n = None.
Proof.
  intros Hn Hfit Hfail fuel. unfold mm_malloc.
  apply Z.eqb_neq in Hn. rewrite Hn. cbv zeta.
  rewrite Hfit. now rewrite malloc_loop_stuck.
Qed.

Lemma mm_malloc_spins_on_exhaustion_witness :
  (100 <> 0 /\
   find_fit full_heap (required_block_size (wrap32 100)) = NULL /\
   mem_sbrk full_heap (if 512 <? required_block_size (wrap32 100)
                       then required_block_size (wrap32 100) else 512) = None) /\
  forall fuel, mm_malloc fuel full_heap 100 = None.
Proof.
  assert (H : 100 <> 0 /\
   find_fit full_heap (required_block_size (wrap32 100)) = NULL /\
   mem_sbrk full_heap (if 512 <? required_block_size (wrap32 100)
                       then required_block_size (wrap32 100) else 512) = None)
    by closed_facts.
  split; [exact H|].
  destruct H as (H1 & H2 & H3).
  exact (mm_malloc_spins_on_exhaustion full_heap 100 H1 H2 H3).
Defined.

(** C4 (what the code does when the initial extension fails): [mm_init]
    checks the first [mem_sbrk] only.  On a store with room for the 16
    bytes of sentinels but not for the 64-byte extension it still returns
    0, with an empty free list. *)
Theorem mm_init_ignores_failed_extension st :
  mem_brk st + 16 <= mem_max_addr st < mem_brk st + 80 ->
  fst (mm_init st) = 0 /\
  mm_list_headp (snd (mm_init st)) = [] /\
  mem_brk (snd (mm_init st)) = mem_brk st + 16.
Proof.
  intros Hcap. unfold mm_init, mem_sbrk. cbv zeta. expose.
  mif. cbv beta iota. expose.
  rewrite extend_heap_fails.
  - repeat split.
  - unfold mem_sbrk. expose. mif. reflexivity.
Qed.

Lemma mm_init_ignores_failed_extension_witness :
  (mem_brk (arena 16) + 16 <= mem_max_addr (arena 16) < mem_brk (arena 16) + 80) /\
  fst (mm_init (arena 16)) = 0 /\
  mm_list_headp (snd (mm_init (arena 16))) = [] /\
  mem_brk (snd (mm_init (arena 16))) = mem_brk (arena 16) + 16.
Proof.
  assert (H : mem_brk (arena 16) + 16 <= mem_max_addr (arena 16)
              < mem_brk (arena 16) + 80) by closed_facts.
  split; [exact H|].
  exact (mm_init_ignores_failed_extension (arena 16) H).
Defined.

(** The first step of [mm_init] is checked: when not even the 16 bytes of
    the sentinels fit, the failure indicator -1 is returned. *)
Lemma mm_init_first_step_fails st :
  mem_max_addr st < mem_brk st + 16 -> fst (mm_init st) = -1.
Proof.
  intros Hcap. unfold mm_init, mem_sbrk. cbv zeta. expose. mif. reflexivity.
Qed.

(** ** Unfolding [find_fit] and the allocation loop *)

Lemma find_fit_from_hit st bp l size :
  size <= mm_block_size st bp -> find_fit_from st (bp :: l) size = bp.
Proof.
  intros H. cbn [find_fit_from].
  now replace (size <=? mm_block_size st bp) with true by lia.
Qed.

Lemma find_fit_from_skip st bp l size :
  mm_block_size st bp < size ->
  find_fit_from st (bp :: l) size = find_fit_from st l size.
Proof.
  intros H. cbn [find_fit_from].
  now replace (size <=? mm_block_size st bp) with false by lia.
Qed.

Lemma malloc_loop_found fuel st r temp :
  temp <> NULL -> malloc_loop fuel st r temp = Some (temp, st).
Proof.
  intros H. apply Z.eqb_neq in H. destruct fuel; cbn; now rewrite H.
Qed.

Lemma malloc_loop_grow fuel st r :
  malloc_loop (S fuel) st r NULL =
    malloc_loop fuel (snd (extend_heap st (if 512 <? r then r else 512))) r
      (find_fit (snd (extend_heap st (if 512 <? r then r else 512))) r).
Proof. reflexivity. Qed.

Lemma mm_malloc_unfold fuel st n :
  n <> 0 ->
  mm_malloc fuel st n =
    match malloc_loop fuel st (required_block_size (wrap32 n))
            (find_fit st (required_block_size (wrap32 n))) with
    | None => None
    | Some (temp, st') =>
        Some (fst (place st' temp (required_block_size (wrap32 n))) + 4,
              snd (place st' temp (required_block_size (wrap32 n))))
    end.
Proof.
  intros H. unfold mm_malloc. apply Z.eqb_neq in H. rewrite H. cbv zeta.
  destruct (malloc_loop _ _ _ _) as [[temp st']|]; [|reflexivity].
  now destruct (place st' temp _).
Qed.

Lemma mm_free_unfold st p :
  p <> NULL -> mm_free st p = snd (free_coalesce st (p - 4)).
Proof. intros H. unfold mm_free. apply Z.eqb_neq in H. now rewrite H. Qed.

Ltac side :=
  first [ reflexivity | lia | zlia
        | msimpl; first [reflexivity | lia | zlia] ].

(** ** Reuse of a freed block *)

(** C5: on any store with room for 592 bytes, [mm_init(); p = mm_malloc(100);
    mm_free(p); mm_malloc(100)] returns [p] again at the second allocation,
    and the break does not move after the first allocation. *)
Theorem free_then_malloc_same_address st0 :
  0 < mem_brk st0 -> mem_brk st0 + 592 <= mem_max_addr st0 ->
  exists p s2 s4,
    fst (mm_init st0) = 0 /\
    (forall fuel, mm_malloc (S fuel) (snd (mm_init st0)) 100 = Some (p, s2)) /\
    p <> NULL /\
    (forall fuel, mm_malloc fuel (mm_free s2 p) 100 = Some (p, s4)) /\
    mem_brk (mm_free s2 p) = mem_brk s2 /\ mem_brk s4 = mem_brk s2.
Proof.
  intros Hpos Hcap.
  rewrite mm_init_state by lia. cbn [fst snd].
  set (b := mem_brk st0) in *.
  assert (Hreq : required_block_size (wrap32 100) = 112) by reflexivity.
  (* first allocation: the heap grows by 512 bytes, the block is carved from
     the high end of the 576-byte free block *)
  assert (Hfirst : exists s2, forall fuel,
            mm_malloc (S fuel)
              (mkState (init_mem (mem st0) b) (b + 80) (mem_max_addr st0)
                       (b + 4) [b + 12]) 100 = Some (b + 480, s2) /\
            mem s2 (b + 476) = Z.lor 112 1 /\
            mem s2 (b + 472) = Z.lor 464 0 /\
            mem s2 (b + 12) = Z.lor 464 0 /\
            mem s2 (b + 588) = Z.lor 0 1 /\
            mm_list_headp s2 = [b + 12] /\ mem_brk s2 = b + 592).
  { eexists. intros fuel.
    rewrite mm_malloc_unfold, Hreq by lia.
    unfold find_fit at 1. expose.
    rewrite find_fit_from_skip by (unfold init_mem; side).
    cbn [find_fit_from]. rewrite malloc_loop_grow.
    change (if 512 <? 112 then 112 else 512) with 512.
    rewrite extend_heap_grows by (expose; side).
    unfold grown. expose.
    rewrite (free_coalesce_free_alloc _ _ 512 0 64 0 0 1)
      by (unfold init_mem; side).
    unfold marked_free. expose. unfold find_fit. expose.
    rewrite find_fit_from_hit by side.
    rewrite malloc_loop_found by (unfold NULL; lia).
    rewrite (place_high _ _ 576 112) by (unfold init_mem; side).
    cbn [fst snd]. split; [f_equal; f_equal; lia|].
    repeat split; side. }
  destruct Hfirst as (s2 & Hfirst).
  destruct (Hfirst O) as (_ & Hh & Hpf & Hph & Hep & Hl & Hbrk).
  (* free: the block merges with the free block in front of it *)
  assert (Hfree : mm_free s2 (b + 480) =
            mkState (upd (upd (marked_free s2 (b + 476) 112)
                            (b + 476 - 464) (Z.lor (112 + 464) 0))
                         (b + 476 - 464 + (112 + 464) - 4) (Z.lor (112 + 464) 0))
                    (mem_brk s2) (mem_max_addr s2) (heap_blocks s2)
                    (mm_list_headp s2)).
  { rewrite mm_free_unfold by (unfold NULL; lia).
    replace (b + 480 - 4) with (b + 476) by lia.
    rewrite (free_coalesce_free_alloc _ _ 112 1 464 0 0 1) by side.
    reflexivity. }
  exists (b + 480), s2. eexists.
  split; [reflexivity|].
  split; [intros fuel; apply (Hfirst fuel)|].
  split; [unfold NULL; lia|].
  rewrite Hfree. split; [|split; [reflexivity|]].
  - intros fuel. rewrite mm_malloc_unfold, Hreq by lia.
    unfold find_fit. expose. rewrite Hl.
    rewrite find_fit_from_hit by (unfold marked_free; side).
    rewrite malloc_loop_found by (unfold NULL; lia).
    rewrite (place_high _ _ 576 112) by (unfold marked_free; side).
    cbn [fst snd]. f_equal. f_equal. lia.
  - reflexivity.
Qed.

Lemma free_then_malloc_same_address_witness :
  (0 < mem_brk (arena 4096) /\
   mem_brk (arena 4096) + 592 <= mem_max_addr (arena 4096)) /\
  exists p s2 s4,
    fst (mm_init (arena 4096)) = 0 /\
    (forall fuel,
       mm_malloc (S fuel) (snd (mm_init (arena 4096))) 100 = Some (p, s2)) /\
    p <> NULL /\
    (forall fuel, mm_malloc fuel (mm_free s2 p) 100 = Some (p, s4)) /\
    mem_brk (mm_free s2 p) = mem_brk s2 /\ mem_brk s4 = mem_brk s2.
Proof.
  assert (H : 0 < mem_brk (arena 4096) /\
              mem_brk (arena 4096) + 592 <= mem_max_addr (arena 4096))
    by closed_facts.
  split; [exact H|].
  destruct H as (H1 & H2).
  exact (free_then_malloc_same_address (arena 4096) H1 H2).
Defined.

(** ** Coalescing two adjacent blocks *)

Section TwoFrees.
Variables (st : state) (a sa sb sp ap sn an : Z).
(** [A] at [a] and [B] at [a + sa] are allocated and adjacent; [P] is the
    block before [A], [N] the block (or epilogue) after [B]. *)
Hypothesis Hpos : 0 < a.
Hypothesis HA : mem st a = Z.lor sa 1.
Hypothesis HAf : mem st (a + sa - 4) = Z.lor sa 1.
Hypothesis HB : mem st (a + sa) = Z.lor sb 1.
Hypothesis HPf : mem st (a - 4) = Z.lor sp ap.
Hypothesis HPh : mem st (a - sp) = Z.lor sp ap.
Hypothesis HN : mem st (a + sa + sb) = Z.lor sn an.
Hypothesis Hsa : 8 <= sa /\ sa mod 8 = 0.
Hypothesis Hsb : 8 <= sb /\ sb mod 8 = 0.
Hypothesis Hsp : 8 <= sp /\ sp mod 8 = 0.
Hypothesis Hsn : 0 <= sn /\ sn mod 8 = 0.
Hypothesis Hap : ap = 0 \/ ap = 1.
Hypothesis Han : an = 0 \/ an = 1.
Hypothesis Hrange : sp + sa + sb + sn < 2 ^ 31.

Ltac free_step p L s al sp ap sn an :=
  rewrite (mm_free_unfold _ p) by (unfold NULL; lia);
  rewrite (L _ _ s al sp ap sn an) by side;
  unfold marked_free; expose.

Lemma free_low_then_high :
  let st' := mm_free (mm_free st (a + 4)) (a + sa + 4) in
  block st' (merged_start a sp ap) (merged_size sa sb sp ap sn an) 0 /\
  mm_list_headp st' = merged_list st a sa sb ap an.
Proof.
  unfold merged_start, merged_size, merged_list. cbv zeta.
  destruct Hap as [-> | ->], Han as [-> | ->]; cbn [Z.eqb Pos.eqb app].
  - free_step (a + 4) free_coalesce_free_alloc sa 1 sp 0 sb 1.
    free_step (a + sa + 4) free_coalesce_free_free sb 1 (sa + sp) 0 sn 0.
    block_facts; fin.
  - free_step (a + 4) free_coalesce_free_alloc sa 1 sp 0 sb 1.
    free_step (a + sa + 4) free_coalesce_free_alloc sb 1 (sa + sp) 0 sn 1.
    block_facts; fin.
  - free_step (a + 4) free_coalesce_alloc_alloc sa 1 sp 1 sb 1.
    free_step (a + sa + 4) free_coalesce_free_free sb 1 sa 0 sn 0.
    block_facts; fin.
  - free_step (a + 4) free_coalesce_alloc_alloc sa 1 sp 1 sb 1.
    free_step (a + sa + 4) free_coalesce_free_alloc sb 1 sa 0 sn 1.
    block_facts; fin.
Qed.

Lemma free_high_then_low :
  let st' := mm_free (mm_free st (a + sa + 4)) (a + 4) in
  block st' (merged_start a sp ap) (merged_size sa sb sp ap sn an) 0 /\
  mm_list_headp st' = merged_list st a sa sb ap an.
Proof.
  unfold merged_start, merged_size, merged_list. cbv zeta.
  destruct Hap as [-> | ->], Han as [-> | ->]; cbn [Z.eqb Pos.eqb app].
  - free_step (a + sa + 4) free_coalesce_alloc_free sb 1 sa 1 sn 0.
    free_step (a + 4) free_coalesce_free_free sa 1 sp 0 (sb + sn) 0.
    block_facts; fin.
  - free_step (a + sa + 4) free_coalesce_alloc_alloc sb 1 sa 1 sn 1.
    free_step (a + 4) free_coalesce_free_free sa 1 sp 0 sb 0.
    block_facts; fin.
  - free_step (a + sa + 4) free_coalesce_alloc_free sb 1 sa 1 sn 0.
    free_step (a + 4) free_coalesce_alloc_free sa 1 sp 1 (sb + sn) 0.
    block_facts; fin.
  - free_step (a + sa + 4) free_coalesce_alloc_alloc sb 1 sa 1 sn 1.
    free_step (a + 4) free_coalesce_alloc_free sa 1 sp 1 sb 0.
    block_facts; fin.
Qed.
End TwoFrees.

(** C6: freeing two adjacent allocated blocks [A] (at [a], [sa] bytes) and
    [B] (at [a + sa], [sb] bytes), in either order, leaves one free block
    that covers both.  It starts at [A], or at the block before [A] when
    that one is free (the merged tags are then written at the predecessor,
    which stays in the free list); its size is [sa + sb] plus the sizes of
    the free outer neighbours, so exactly [sa + sb] when both outer
    neighbours are allocated.  A free block after [B] leaves the free
    list; both orders end with the same list. *)
Theorem coalescing_two_adjacent_blocks st a sa sb sp ap sn an :
  0 < a ->
  mem st a = Z.lor sa 1 -> mem st (a + sa - 4) = Z.lor sa 1 ->
  mem st (a + sa) = Z.lor sb 1 ->
  mem st (a - 4) = Z.lor sp ap -> mem st (a - sp) = Z.lor sp ap ->
  mem st (a + sa + sb) = Z.lor sn an ->
  8 <= sa /\ sa mod 8 = 0 -> 8 <= sb /\ sb mod 8 = 0 ->
  8 <= sp /\ sp mod 8 = 0 -> 0 <= sn /\ sn mod 8 = 0 ->
  ap = 0 \/ ap = 1 -> an = 0 \/ an = 1 ->
  sp + sa + sb + sn < 2 ^ 31 ->
  let low_high := mm_free (mm_free st (a + 4)) (a + sa + 4) in
  let high_low := mm_free (mm_free st (a + sa + 4)) (a + 4) in
  let start := merged_start a sp ap in
  let size := merged_size sa sb sp ap sn an in
  (block low_high start size 0 /\
   mm_list_headp low_high = merged_list st a sa sb ap an) /\
  (block high_low start size 0 /\
   mm_list_headp high_low = merged_list st a sa sb ap an) /\
  sa + sb <= size /\
  (ap = 1 -> an = 1 -> start = a /\ size = sa + sb).
Proof.
  intros Hpos HA HAf HB HPf HPh HN Hsa Hsb Hsp Hsn Hap Han Hrange.
  cbv zeta. split; [|split; [|split]].
  - eapply free_low_then_high; eassumption.
  - eapply free_high_then_low; eassumption.
  - unfold merged_size. destruct (ap =? 0), (an =? 0); lia.
  - intros -> ->. unfold merged_start, merged_size. cbn. lia.
Qed.

Lemma coalescing_two_adjacent_blocks_witness :
  (0 < 1012 /\
   mem two_allocs 1012 = Z.lor 48 1 /\ mem two_allocs (1012 + 48 - 4) = Z.lor 48 1 /\
   mem two_allocs (1012 + 48) = Z.lor 48 1 /\
   mem two_allocs (1012 - 4) = Z.lor 8 1 /\ mem two_allocs (1012 - 8) = Z.lor 8 1 /\
   mem two_allocs (1012 + 48 + 48) = Z.lor 480 0 /\
   (8 <= 48 /\ 48 mod 8 = 0) /\ (8 <= 48 /\ 48 mod 8 = 0) /\
   (8 <= 8 /\ 8 mod 8 = 0) /\ (0 <= 480 /\ 480 mod 8 = 0) /\
   (1 = 0 \/ 1 = 1) /\ (0 = 0 \/ 0 = 1) /\ 8 + 48 + 48 + 480 < 2 ^ 31) /\
  block (mm_free (mm_free two_allocs (1012 + 4)) (1012 + 48 + 4))
        (merged_start 1012 8 1) (merged_size 48 48 8 1 480 0) 0.
Proof.
  assert (H : 0 < 1012 /\
   mem two_allocs 1012 = Z.lor 48 1 /\ mem two_allocs (1012 + 48 - 4) = Z.lor 48 1 /\
   mem two_allocs (1012 + 48) = Z.lor 48 1 /\
   mem two_allocs (1012 - 4) = Z.lor 8 1 /\ mem two_allocs (1012 - 8) = Z.lor 8 1 /\
   mem two_allocs (1012 + 48 + 48) = Z.lor 480 0 /\
   (8 <= 48 /\ 48 mod 8 = 0) /\ (8 <= 48 /\ 48 mod 8 = 0) /\
   (8 <= 8 /\ 8 mod 8 = 0) /\ (0 <= 480 /\ 480 mod 8 = 0) /\
   (1 = 0 \/ 1 = 1) /\ (0 = 0 \/ 0 = 1) /\ 8 + 48 + 48 + 480 < 2 ^ 31).
  { closed_facts. }
  split; [exact H|].
  destruct H as (H1 & H2 & H3 & H4 & H5 & H6 & H7 & H8 & H9 & H10 & H11 &
                 H12 & H13 & H14).
  exact (proj1 (proj1 (coalescing_two_adjacent_blocks two_allocs 1012 48 48 8 1
                         480 0 H1 H2 H3 H4 H5 H6 H7 H8 H9 H10 H11 H12 H13 H14))).
Defined.

(** The size is not always the sum of the two: in [two_allocs] the block
    after the pair is free, and freeing the pair yields a single free block
    of 576 bytes, not 96. *)
Lemma coalescing_not_exact_sum :
  block two_allocs 1012 48 1 /\ block two_allocs (1012 + 48) 48 1 /\
  mm_list_headp (mm_free (mm_free two_allocs 1016) 1064) = [1012] /\
  block (mm_free (mm_free two_allocs 1016) 1064) 1012 576 0 /\
  mm_list_headp (mm_free (mm_free two_allocs 1064) 1016) = [1012] /\
  block (mm_free (mm_free two_allocs 1064) 1016) 1012 576 0 /\
  576 <> 48 + 48.
Proof. closed_facts. Qed.

(** ** Requests beyond the range of [int] *)

(** C2 at an input where the conversion to [int] loses the request:
    [mm_malloc(4294967292)] on the freshly initialised heap succeeds, and
    the block it returns (header 1012, payload 1016) has 8 bytes in all,
    so no payload capacity. *)
Theorem mm_malloc_undersized_block :
  exists st',
    mm_malloc 0 fresh_heap 4294967292 = Some (1016, st') /\
    mm_block_allocated st' (1016 - 4) = 1 /\
    mm_block_size st' (1016 - 4) = 8 /\
    mm_block_size st' (1016 - 4) - 8 < 4294967292.
Proof.
  eexists. split; [vm_compute; reflexivity|]. closed_facts.
Qed.

(** * The heap invariant *)

(** ** Block chains *)

Lemma total_app l1 l2 : total (l1 ++ l2) = total l1 + total l2.
Proof. induction l1 as [|[s al] l1 IH]; cbn; lia. Qed.

Lemma chain_total m bs : forall a e, chain m a bs e -> e = a + total bs.
Proof.
  induction bs as [|[s al] bs IH]; cbn; intros a e H.
  - lia.
  - destruct H as (_ & _ & _ & _ & H). apply IH in H. lia.
Qed.

Lemma total_nonneg m bs : forall a e, chain m a bs e -> 0 <= total bs.
Proof.
  induction bs as [|[s al] bs IH]; cbn; intros a e H.
  - lia.
  - destruct H as ((Hs & _) & _ & _ & _ & H). apply IH in H. lia.
Qed.

Lemma chain_le m bs a e : chain m a bs e -> a <= e.
Proof.
  intros H. pose proof (chain_total _ _ _ _ H). pose proof (total_nonneg _ _ _ _ H). lia.
Qed.

Lemma chain_app m l1 l2 : forall a e,
  chain m a (l1 ++ l2) e <->
  chain m a l1 (a + total l1) /\ chain m (a + total l1) l2 e.
Proof.
  induction l1 as [|[s al] l1 IH]; cbn; intros a e.
  - rewrite Z.add_0_r. tauto.
  - rewrite (IH (a + s) e). rewrite Z.add_assoc. tauto.
Qed.

Lemma chain_frame m m' bs : forall a e,
  (forall x, a <= x < e -> m' x = m x) ->
  chain m a bs e -> chain m' a bs e.
Proof.
  induction bs as [|[s al] bs IH]; cbn; intros a e Hsame H.
  - assumption.
  - destruct H as (Hs & Hal & Hh & Hf & H).
    pose proof (chain_le _ _ _ _ H) as Hle.
    repeat split; try tauto.
    + rewrite Hsame by lia. assumption.
    + rewrite Hsame by lia. assumption.
    + apply IH; [|assumption]. intros x Hx. apply Hsame. lia.
Qed.

Lemma free_addrs_app l1 l2 : forall a,
  free_addrs a (l1 ++ l2) = free_addrs a l1 ++ free_addrs (a + total l1) l2.
Proof.
  induction l1 as [|[s al] l1 IH]; cbn; intros a.
  - now rewrite Z.add_0_r.
  - rewrite IH, Z.add_assoc. now destruct (al =? 0).
Qed.

Lemma layout_app l1 l2 : forall a,
  layout a (l1 ++ l2) = layout a l1 ++ layout (a + total l1) l2.
Proof.
  induction l1 as [|[s al] l1 IH]; cbn; intros a.
  - now rewrite Z.add_0_r.
  - now rewrite IH, Z.add_assoc.
Qed.

(** Addresses in a chain lie between its ends. *)
Lemma layout_bounds m bs : forall a e x s al,
  chain m a bs e -> In (x, s, al) (layout a bs) -> a <= x /\ x + s <= e.
Proof.
  induction bs as [|[s0 al0] bs IH]; cbn; intros a e x s al H Hin.
  - contradiction.
  - destruct H as ((Hs & _) & _ & _ & _ & H).
    pose proof (chain_le _ _ _ _ H).
    destruct Hin as [Heq | Hin].
    + inversion Heq; subst. lia.
    + apply (IH _ _ _ _ _ H) in Hin. lia.
Qed.

Lemma free_addrs_layout bs : forall a x,
  In x (free_addrs a bs) <-> exists s, In (x, s, 0) (layout a bs).
Proof.
  induction bs as [|[s0 al0] bs IH]; cbn; intros a x.
  - split; [contradiction | intros [s []]].
  - destruct (Z.eqb_spec al0 0) as [-> | Hne]; cbn.
    + rewrite IH. split.
      * intros [<- | [s H]]; [exists s0; now left | exists s; now right].
      * intros [s [Heq | H]]; [inversion Heq; now left | right; now exists s].
    + rewrite IH. split.
      * intros [s H]. exists s. now right.
      * intros [s [Heq | H]]; [inversion Heq; congruence | now exists s].
Qed.

(** A block of the layout splits the chain around it. *)
Lemma layout_split bs : forall a x s al,
  In (x, s, al) (layout a bs) ->
  exists pre post, bs = pre ++ (s, al) :: post /\ x = a + total pre.
Proof.
  induction bs as [|[s0 al0] bs IH]; cbn; intros a x s al Hin.
  - contradiction.
  - destruct Hin as [Heq | Hin].
    + inversion Heq; subst. exists [], bs. cbn. split; [reflexivity | lia].
    + destruct (IH _ _ _ _ Hin) as (pre & post & -> & ->).
      exists ((s0, al0) :: pre), post. cbn. split; [reflexivity | lia].
Qed.

Lemma free_addrs_sorted m bs : forall a e,
  chain m a bs e -> forall x, In x (free_addrs a bs) -> a <= x < e.
Proof.
  intros a e H x Hin. apply free_addrs_layout in Hin as [s Hin].
  pose proof (layout_bounds _ _ _ _ _ _ _ H Hin).
  destruct (layout_split _ _ _ _ _ Hin) as (pre & post & -> & ->).
  apply chain_app in H as [_ H]. cbn in H. lia.
Qed.

Lemma free_addrs_NoDup m bs : forall a e,
  chain m a bs e -> NoDup (free_addrs a bs).
Proof.
  induction bs as [|[s al] bs IH]; cbn; intros a e H.
  - constructor.
  - destruct H as ((Hs & _) & _ & _ & _ & H).
    destruct (al =? 0); [constructor|]; eauto.
    intros Hin. apply (free_addrs_sorted _ _ _ _ H) in Hin. lia.
Qed.

(** ** Free-list bookkeeping *)

Lemma remove_first_perm x l : In x l -> Permutation l (x :: remove_first x l).
Proof.
  induction l as [|y l IH]; cbn; intros Hin.
  - contradiction.
  - destruct (Z.eqb_spec y x) as [-> | Hne].
    + reflexivity.
    + destruct Hin as [-> | Hin]; [congruence|].
      rewrite perm_swap. now constructor; apply IH.
Qed.

Lemma perm_remove_first x l A B :
  Permutation l (A ++ x :: B) -> Permutation (remove_first x l) (A ++ B).
Proof.
  intros H. apply Permutation_cons_inv with (a := x).
  rewrite <- remove_first_perm.
  - rewrite H. symmetry. apply Permutation_middle.
  - apply Permutation_in with (l := A ++ x :: B); [now symmetry|].
    apply in_elt.
Qed.

Lemma perm_add (x : Z) l A B :
  Permutation l (A ++ B) -> Permutation (x :: l) (A ++ x :: B).
Proof. apply Permutation_cons_app. Qed.

Lemma perm_swap_in (x n : Z) l A B :
  Permutation l (A ++ n :: B) ->
  Permutation (x :: remove_first n l) (A ++ x :: B).
Proof. intros H. apply perm_add. now apply perm_remove_first. Qed.

Lemma perm_drop_second (p n : Z) l A B :
  Permutation l (A ++ p :: n :: B) ->
  Permutation (remove_first n l) (A ++ p :: B).
Proof.
  intros H. change (A ++ p :: B) with (A ++ [p] ++ B).
  rewrite app_assoc. apply perm_remove_first.
  now rewrite <- app_assoc.
Qed.

Lemma eq_perm (l l' : list Z) : l = l' -> Permutation l l'.
Proof. now intros ->. Qed.

(** Close a permutation goal from a hypothesis that differs from it only
    in how addresses are written. *)
Ltac perm_from H :=
  eapply Permutation_trans; [exact H|]; apply eq_perm;
  repeat first [reflexivity | lia | progress f_equal].

Lemma chain_frame_eq m m' bs a a' e :
  (forall x, a <= x < e -> m' x = m x) -> a' = a ->
  chain m a' bs e -> chain m' a bs e.
Proof. intros Hsame -> H. now apply chain_frame with (m := m). Qed.

(** ** [free_coalesce] keeps the heap well formed *)

Ltac frame_tac :=
  let x := fresh "x" in let Hx := fresh "Hx" in
  intros x Hx; msimpl; reflexivity.

Lemma free_coalesce_shape st bp pre sp ap s al post :
  pre_free st bp pre sp ap s al post ->
  shape (snd (free_coalesce st bp)) (coalesce_blocks pre sp ap s post) /\
  same_bounds st (snd (free_coalesce st bp)) /\
  fst (free_coalesce st bp) = (if ap =? 0 then bp - sp else bp) /\
  (forall y, y < (if ap =? 0 then bp - sp else bp) \/
             bp + s + free_next post <= y ->
             mem (snd (free_coalesce st bp)) y = mem st y) /\
  mm_list_headp (snd (free_coalesce st bp)) =
    (if ap =? 0 then [] else [bp]) ++
    (if next_is_free post then remove_first (bp + s) (mm_list_headp st)
     else mm_list_headp st).
Proof.
  intros [Hpre Hhdr Hs Hal Hpost Hep Hlist Hrange].
  unfold free_next, next_is_free.
  apply chain_app in Hpre as [Hpre HP]. cbn [chain] in HP.
  destruct HP as (Hsp & Hap & HPh & HPf & Hmid).
  assert (Hp : heap_blocks st + total pre = bp - sp) by lia.
  rewrite Hp in *. replace (bp - sp + sp - 4) with (bp - 4) in HPf by lia.
  pose proof (chain_le _ _ _ _ Hpre) as Hle1.
  pose proof (chain_le _ _ _ _ Hpost) as Hle2.
  rewrite free_addrs_app in Hlist. cbn [free_addrs] in Hlist.
  rewrite Hp in Hlist. change (1 =? 0) with false in Hlist. cbv iota in Hlist.
  unfold coalesce_blocks.
  destruct post as [|[sn an] post'].
  - (* the epilogue follows *)
    cbn [chain] in Hpost. cbn [free_addrs] in Hlist.
    assert (Hn : mem st (bp + s) = Z.lor 0 1) by (rewrite Hpost; exact Hep).
    destruct Hap as [-> | ->]; change (0 =? 0) with true in *;
      change (1 =? 0) with false in *; cbv iota in *.
    + rewrite (free_coalesce_free_alloc st bp s al sp 0 0 1)
        by first [assumption | reflexivity | zlia | now right].
      unfold marked_free. cbn [fst snd].
      split; [|split; [repeat split
                      |split; [reflexivity|split; [frame_tac|reflexivity]]]].
      constructor; expose.
      * apply chain_app. rewrite Hp. split.
        -- eapply chain_frame; [|exact Hpre]. frame_tac.
        -- cbn [chain]. repeat split; try solve [msimpl; reflexivity]; zlia.
      * msimpl. reflexivity.
      * rewrite free_addrs_app. cbn [free_addrs]. rewrite Hp.
        change (0 =? 0) with true. cbv iota. perm_from Hlist.
    + rewrite (free_coalesce_alloc_alloc st bp s al sp 1 0 1)
        by first [assumption | reflexivity | zlia | now right].
      unfold marked_free. cbn [fst snd].
      split; [|split; [repeat split
                      |split; [reflexivity|split; [frame_tac|reflexivity]]]].
      constructor; expose.
      * apply chain_app. rewrite Hp. split.
        -- eapply chain_frame; [|exact Hpre]. frame_tac.
        -- cbn [chain]. repeat split; try solve [msimpl; reflexivity]; zlia.
      * msimpl. reflexivity.
      * rewrite free_addrs_app. cbn [free_addrs]. rewrite Hp.
        change (1 =? 0) with false. change (0 =? 0) with true. cbv iota.
        replace (bp - sp + sp) with bp by lia.
        apply perm_add. perm_from Hlist.
  - cbn [chain] in Hpost. destruct Hpost as (Hsn & Han & HNh & HNf & Hpost).
    pose proof (chain_le _ _ _ _ Hpost) as Hle3.
    cbn [free_addrs] in Hlist.
    destruct Han as [-> | ->], Hap as [-> | ->];
      change (0 =? 0) with true in *; change (1 =? 0) with false in *;
      cbv iota in *.
    + (* both neighbours free *)
      rewrite (free_coalesce_free_free st bp s al sp 0 sn 0)
        by first [assumption | reflexivity | zlia | now left].
      unfold marked_free. cbn [fst snd].
      split; [|split; [repeat split
                      |split; [reflexivity|split; [frame_tac|reflexivity]]]].
      constructor; expose.
      * apply chain_app. rewrite Hp. split.
        -- eapply chain_frame; [|exact Hpre]. frame_tac.
        -- cbn [chain]. repeat split; try solve [msimpl; reflexivity]; try zlia.
           eapply chain_frame_eq; [frame_tac | | exact Hpost]. lia.
      * msimpl. reflexivity.
      * rewrite free_addrs_app. cbn [free_addrs]. rewrite Hp.
        change (0 =? 0) with true. cbv iota.
        apply perm_drop_second. perm_from Hlist.
    + (* only the next block free *)
      rewrite (free_coalesce_alloc_free st bp s al sp 1 sn 0)
        by first [assumption | reflexivity | zlia | now left].
      unfold marked_free. cbn [fst snd].
      split; [|split; [repeat split
                      |split; [reflexivity|split; [frame_tac|reflexivity]]]].
      constructor; expose.
      * apply chain_app. rewrite Hp. split.
        -- eapply chain_frame; [|exact Hpre]. frame_tac.
        -- cbn [chain]. repeat split; try solve [msimpl; reflexivity]; try zlia.
           eapply chain_frame_eq; [frame_tac | | exact Hpost]. lia.
      * msimpl. reflexivity.
      * rewrite free_addrs_app. cbn [free_addrs]. rewrite Hp.
        change (1 =? 0) with false. change (0 =? 0) with true. cbv iota.
        replace (bp - sp + sp) with bp by lia.
        apply perm_swap_in. perm_from Hlist.
    + (* only the previous block free *)
      rewrite (free_coalesce_free_alloc st bp s al sp 0 sn 1)
        by first [assumption | reflexivity | zlia | now right].
      unfold marked_free. cbn [fst snd].
      split; [|split; [repeat split
                      |split; [reflexivity|split; [frame_tac|reflexivity]]]].
      constructor; expose.
      * apply chain_app. rewrite Hp. split.
        -- eapply chain_frame; [|exact Hpre]. frame_tac.
        -- cbn [chain]. repeat split; try solve [msimpl; reflexivity]; try zlia.
           eapply chain_frame_eq; [frame_tac | | exact Hpost]. lia.
      * msimpl. reflexivity.
      * rewrite free_addrs_app. cbn [free_addrs]. rewrite Hp.
        change (1 =? 0) with false. change (0 =? 0) with true. cbv iota.
        perm_from Hlist.
    + (* both neighbours allocated *)
      rewrite (free_coalesce_alloc_alloc st bp s al sp 1 sn 1)
        by first [assumption | reflexivity | zlia | now right].
      unfold marked_free. cbn [fst snd].
      split; [|split; [repeat split
                      |split; [reflexivity|split; [frame_tac|reflexivity]]]].
      constructor; expose.
      * apply chain_app. rewrite Hp. split.
        -- eapply chain_frame; [|exact Hpre]. frame_tac.
        -- cbn [chain]. repeat split; try solve [msimpl; reflexivity]; try zlia.
           eapply chain_frame_eq; [frame_tac | | exact Hpost]. lia.
      * msimpl. reflexivity.
      * rewrite free_addrs_app. cbn [free_addrs]. rewrite Hp.
        change (1 =? 0) with false. change (0 =? 0) with true. cbv iota.
        replace (bp - sp + sp) with bp by lia.
        apply perm_add. perm_from Hlist.
Qed.

(** ** [place] keeps the heap well formed *)

Lemma place_shape st bp pre S R post :
  shape st (pre ++ (S, 0) :: post) ->
  bp = heap_blocks st + total pre ->
  8 <= R <= S -> R mod 8 = 0 ->
  mem_brk st - heap_blocks st < 2 ^ 31 ->
  shape (snd (place st bp R)) (place_blocks pre S R post) /\
  same_bounds st (snd (place st bp R)) /\
  fst (place st bp R) =
    (if S - R <? 16 then bp else if 75 <=? R then bp + (S - R) else bp) /\
  (forall y, y < bp \/ bp + S <= y -> mem (snd (place st bp R)) y = mem st y).
Proof.
  intros [Hchain Hep Hlist] Hbp HR HRm Hrange.
  apply chain_app in Hchain as [Hpre Hblk]. rewrite <- Hbp in *.
  cbn [chain] in Hblk. destruct Hblk as (HS & _ & Hh & Hf & Hpost).
  pose proof (chain_le _ _ _ _ Hpre) as Hle1.
  pose proof (chain_le _ _ _ _ Hpost) as Hle2.
  rewrite free_addrs_app in Hlist. cbn [free_addrs] in Hlist.
  rewrite <- Hbp in Hlist. change (0 =? 0) with true in Hlist. cbv iota in Hlist.
  unfold place_blocks.
  destruct (Z.ltb_spec (S - R) 16) as [Hsmall | Hbig];
    [|destruct (Z.leb_spec 75 R) as [Hhigh | Hlow]].
  - rewrite (place_whole st bp S R) by first [assumption | tauto | lia].
    cbn [fst snd].
    split; [|split; [repeat split|split; [reflexivity|frame_tac]]].
    constructor; expose.
    + apply chain_app. rewrite <- Hbp. split.
      * eapply chain_frame; [|exact Hpre]. frame_tac.
      * cbn [chain]. repeat split; try solve [msimpl; reflexivity]; try zlia.
        eapply chain_frame_eq; [frame_tac | | exact Hpost]. lia.
    + msimpl. reflexivity.
    + rewrite free_addrs_app. cbn [free_addrs]. rewrite <- Hbp.
      change (1 =? 0) with false. cbv iota.
      apply perm_remove_first. perm_from Hlist.
  - rewrite (place_high st bp S R) by first [assumption | tauto | lia].
    cbn [fst snd].
    split; [|split; [repeat split|split; [reflexivity|frame_tac]]].
    constructor; expose.
    + apply chain_app. rewrite <- Hbp. split.
      * eapply chain_frame; [|exact Hpre]. frame_tac.
      * cbn [chain]. repeat split; try solve [msimpl; reflexivity]; try zlia.
        eapply chain_frame_eq; [frame_tac | | exact Hpost]. lia.
    + msimpl. reflexivity.
    + rewrite free_addrs_app. cbn [free_addrs]. rewrite <- Hbp.
      change (1 =? 0) with false. change (0 =? 0) with true. cbv iota.
      perm_from Hlist.
  - rewrite (place_low st bp S R) by first [assumption | tauto | lia].
    cbn [fst snd].
    split; [|split; [repeat split|split; [reflexivity|frame_tac]]].
    constructor; expose.
    + apply chain_app. rewrite <- Hbp. split.
      * eapply chain_frame; [|exact Hpre]. frame_tac.
      * cbn [chain]. repeat split; try solve [msimpl; reflexivity]; try zlia.
        eapply chain_frame_eq; [frame_tac | | exact Hpost]. lia.
    + msimpl. reflexivity.
    + rewrite free_addrs_app. cbn [free_addrs]. rewrite <- Hbp.
      change (1 =? 0) with false. change (0 =? 0) with true. cbv iota.
      rewrite remove_first_cons_neq by lia.
      apply perm_swap_in. perm_from Hlist.
Qed.

(** ** Allocated blocks stay where they are *)

Lemma layout_eq a a' bs : a = a' -> layout a bs = layout a' bs.
Proof. now intros ->. Qed.

Ltac in_layout :=
  repeat first
    [ rewrite layout_app in * | rewrite in_app_iff in * ];
  cbn [layout In total] in *.

Ltac in_solve :=
  match goal with
  | |- In _ _ => eassumption
  | H : In ?x (layout ?a ?l) |- In ?x (layout ?b ?l) =>
      rewrite (layout_eq b a) by lia; exact H
  | H : In _ (layout ?a ?l) |- In _ (layout ?b ?l) =>
      rewrite (layout_eq b a) by lia; exact H
  | |- (_, _, _) = (_, _, _) =>
      first [reflexivity | apply f_equal2; [apply f_equal2|]; lia]
  | |- _ \/ _ => (left; in_solve) || (right; in_solve)
  | _ => assumption
  end.

Ltac in_goal := rewrite ?layout_app, ?in_app_iff; cbn [layout In total].

Ltac in_cases :=
  repeat match goal with
  | H : _ \/ _ |- _ => destruct H
  | H : (_, _, _) = (_, _, _) |- _ => inversion H; clear H; subst
  | H : False |- _ => contradiction
  end.

Lemma coalesce_keeps_allocated hb pre sp ap s post x sz :
  In (x, sz, 1) (layout hb (pre ++ [(sp, ap)])) \/
  In (x, sz, 1) (layout (hb + total pre + sp + s) post) ->
  In (x, sz, 1) (layout hb (coalesce_blocks pre sp ap s post)).
Proof.
  intros Hin. unfold coalesce_blocks.
  destruct post as [|[sn an] post'];
    [|destruct (Z.eqb_spec an 0) as [-> | Han]];
    destruct (Z.eqb_spec ap 0) as [-> | Hap]; in_layout; in_cases;
    first [lia | congruence | in_solve].
Qed.

Lemma place_keeps_allocated hb pre S R post x sz :
  In (x, sz, 1) (layout hb (pre ++ (S, 0) :: post)) ->
  In (x, sz, 1) (layout hb (place_blocks pre S R post)).
Proof.
  intros Hin. unfold place_blocks.
  destruct (S - R <? 16); [|destruct (75 <=? R)]; in_layout; in_cases;
    in_solve.
Qed.

Lemma place_new_block hb pre S R post :
  In ((if S - R <? 16 then hb + total pre
       else if 75 <=? R then hb + total pre + (S - R) else hb + total pre),
      (if S - R <? 16 then S else R), 1)
     (layout hb (place_blocks pre S R post)).
Proof.
  unfold place_blocks.
  destruct (S - R <? 16); [|destruct (75 <=? R)]; in_layout; auto.
Qed.

Lemma coalesce_new_block hb pre sp ap s post :
  In ((if ap =? 0 then hb + total pre else hb + total pre + sp),
      (if ap =? 0 then sp else 0) + s + free_next post, 0)
     (layout hb (coalesce_blocks pre sp ap s post)).
Proof.
  unfold coalesce_blocks, free_next.
  destruct post as [|[sn an] post']; [|destruct (an =? 0)];
    destruct (ap =? 0); in_goal; in_solve.
Qed.

(** Distinct blocks of a chain do not overlap. *)
Lemma layout_disjoint m bs : forall a e x1 s1 al1 x2 s2 al2,
  chain m a bs e ->
  In (x1, s1, al1) (layout a bs) -> In (x2, s2, al2) (layout a bs) ->
  (x1, s1, al1) = (x2, s2, al2) \/ x1 + s1 <= x2 \/ x2 + s2 <= x1.
Proof.
  induction bs as [|[s0 al0] bs IH]; cbn;
    intros a e x1 s1 al1 x2 s2 al2 H H1 H2.
  - contradiction.
  - destruct H as ((Hs & _) & _ & _ & _ & H).
    destruct H1 as [E1 | H1], H2 as [E2 | H2].
    + left. congruence.
    + right. left. inversion E1; subst.
      apply (layout_bounds _ _ _ _ _ _ _ H) in H2. lia.
    + right. right. inversion E2; subst.
      apply (layout_bounds _ _ _ _ _ _ _ H) in H1. lia.
    + eapply IH; eassumption.
Qed.

(** ** Prologue and bounds *)

Lemma coalesce_blocks_head pre sp ap s post :
  hd_error (pre ++ [(sp, ap)]) = Some (8, 1) ->
  hd_error (coalesce_blocks pre sp ap s post) = Some (8, 1).
Proof.
  unfold coalesce_blocks. intros H.
  destruct pre as [|c pre].
  - cbn in H. inversion H; subst. cbn.
    destruct post as [|[sn an] post']; [|destruct (an =? 0)]; reflexivity.
  - cbn in H.
    destruct post as [|[sn an] post']; [|destruct (an =? 0)];
      destruct (ap =? 0); exact H.
Qed.

Lemma hd_error_app_cons {A} (pre : list A) c rest :
  hd_error (pre ++ c :: rest) = hd_error (pre ++ [c]).
Proof. now destruct pre. Qed.

Lemma place_blocks_head pre S R post :
  hd_error (pre ++ (S, 0) :: post) = Some (8, 1) ->
  hd_error (place_blocks pre S R post) = Some (8, 1).
Proof.
  unfold place_blocks. intros H.
  destruct pre as [|c pre]; [cbn in H; congruence|].
  destruct (S - R <? 16); [|destruct (75 <=? R)]; exact H.
Qed.

(** ** Free blocks are never neighbours *)

Lemma coalesced_app l x r :
  coalesced (l ++ x :: r) <-> coalesced (l ++ [x]) /\ coalesced (x :: r).
Proof.
  induction l as [|[s al] l IH].
  - destruct x as [sx ax]. cbn. tauto.
  - cbn [app coalesced]. rewrite IH.
    destruct l as [|[s' al'] l]; [destruct x as [sx ax]|]; cbn; tauto.
Qed.

(** Only the allocation bit of the last block matters, and setting it
    cannot bring two free blocks together. *)
Lemma coalesced_last l s al s' al' :
  al' = al \/ al' <> 0 ->
  coalesced (l ++ [(s, al)]) -> coalesced (l ++ [(s', al')]).
Proof.
  intros Hal. induction l as [|[s0 al0] l IH]; cbn [app coalesced].
  - tauto.
  - intros [H1 H2]. split; [|now apply IH].
    destruct l as [|[s1 al1] l]; cbn in *; [|assumption].
    intros E. specialize (H1 E). destruct Hal; congruence.
Qed.

Lemma coalesced_tail b bs : coalesced (b :: bs) -> coalesced bs.
Proof. destruct b. cbn. tauto. Qed.

Ltac coalesced_tac :=
  repeat match goal with
  | H : coalesced (_ :: _) |- _ => cbn [coalesced] in H; destruct H
  | |- coalesced (_ ++ _ :: ?r) =>
      lazymatch r with [] => fail | _ => apply coalesced_app; split end
  | |- coalesced (_ :: _) => cbn [coalesced]; split
  | |- coalesced [] => exact I
  | |- _ -> _ => intro
  end;
  first [ assumption | congruence | lia | tauto
        | eapply coalesced_last; [|eassumption];
          first [now left | right; congruence | right; lia] ].

Lemma coalesce_blocks_coalesced pre sp ap s post :
  coalesced (pre ++ [(sp, ap)]) -> coalesced post ->
  coalesced (coalesce_blocks pre sp ap s post).
Proof.
  intros Hpre Hpost. unfold coalesce_blocks.
  destruct post as [|[sn an] post'];
    [|destruct (Z.eqb_spec an 0) as [-> | Han]];
    destruct (Z.eqb_spec ap 0) as [-> | Hap]; coalesced_tac.
Qed.

Lemma place_blocks_coalesced pre S R post :
  coalesced (pre ++ (S, 0) :: post) ->
  coalesced (place_blocks pre S R post).
Proof.
  intros H. apply coalesced_app in H as [Hpre Hpost]. unfold place_blocks.
  destruct (S - R <? 16); [|destruct (75 <=? R)]; coalesced_tac.
Qed.

(** ** No block is too small for the links of the free list *)

Lemma coalesce_blocks_min_sized hb pre sp ap s post :
  16 <= s -> 0 <= sp ->
  (forall x sz al, In (x, sz, al) (layout hb (pre ++ [(sp, ap)])) ->
                   x <> hb -> 16 <= sz) ->
  (forall x sz al, In (x, sz, al) (layout (hb + total pre + sp + s) post) ->
                   16 <= sz) ->
  min_sized hb (coalesce_blocks pre sp ap s post).
Proof.
  intros Hs Hsp Hpre Hpost x sz al Hin Hne. unfold coalesce_blocks in Hin.
  assert (Hn : forall sn an post', post = (sn, an) :: post' -> 16 <= sn).
  { intros sn an post' ->. eapply Hpost. now left. }
  destruct post as [|[sn an] post'];
    [|specialize (Hn _ _ _ eq_refl); destruct (an =? 0)];
    destruct (ap =? 0); in_layout; in_cases;
    first [ lia
          | eapply Hpre; [in_goal; in_solve | assumption]
          | eapply Hpost; in_goal; in_solve ].
Qed.

Lemma place_blocks_min_sized hb pre S R post :
  16 <= R -> min_sized hb (pre ++ (S, 0) :: post) ->
  min_sized hb (place_blocks pre S R post).
Proof.
  intros HR H x sz al Hin Hne. unfold place_blocks in Hin.
  assert (HS : hb + total pre <> hb -> 16 <= S).
  { intros Hp. eapply H; [|exact Hp]. in_layout. right. now left. }
  destruct (Z.ltb_spec (S - R) 16); [|destruct (75 <=? R)];
    in_layout; in_cases;
    first [ lia | now apply HS
          | eapply H; [in_goal; in_solve | assumption] ].
Qed.

Lemma heap_ok_same_bounds st st' bs bs' :
  heap_ok st bs -> same_bounds st st' -> shape st' bs' ->
  hd_error bs' = Some (8, 1) -> coalesced bs' ->
  min_sized (heap_blocks st) bs' -> heap_ok st' bs'.
Proof.
  intros [_ _ Ha Hp Hb Hr _ _] (E1 & E2 & E3) Hs Hh Hco Hmin.
  constructor; try assumption; rewrite ?E1, ?E2, ?E3; assumption.
Qed.

Lemma layout_size m bs : forall a e x s al,
  chain m a bs e -> In (x, s, al) (layout a bs) ->
  (8 <= s /\ s mod 8 = 0) /\ (al = 0 \/ al = 1) /\
  m x = Z.lor s al /\ m (x + s - 4) = Z.lor s al /\ (x - a) mod 8 = 0.
Proof.
  induction bs as [|[s0 al0] bs IH]; cbn; intros a e x s al H Hin.
  - contradiction.
  - destruct H as (Hs & Hal & Hh & Hf & H).
    destruct Hin as [Heq | Hin].
    + inversion Heq; subst. repeat split; try tauto. now rewrite Z.sub_diag.
    + destruct (IH _ _ _ _ _ H Hin) as (H1 & H2 & H3 & H4 & H5).
      repeat split; try tauto. zlia.
Qed.

Lemma layout_lt m bs a e x s al :
  chain m a bs e -> In (x, s, al) (layout a bs) -> a <= x /\ x < x + s <= e.
Proof.
  intros H Hin. pose proof (layout_bounds _ _ _ _ _ _ _ H Hin).
  pose proof (layout_size _ _ _ _ _ _ _ H Hin). lia.
Qed.

(** ** What [find_fit] returns *)

Lemma find_fit_from_found st l size :
  find_fit_from st l size <> NULL ->
  In (find_fit_from st l size) l /\
  size <= mm_block_size st (find_fit_from st l size).
Proof.
  induction l as [|bp l IH]; cbn [find_fit_from]; intros H.
  - congruence.
  - destruct (Z.leb_spec size (mm_block_size st bp)).
    + split; [now left | assumption].
    + destruct (IH H). split; [now right | assumption].
Qed.

Lemma find_fit_from_exists st l size b :
  (forall x, In x l -> x <> NULL) ->
  In b l -> size <= mm_block_size st b ->
  find_fit_from st l size <> NULL.
Proof.
  induction l as [|y l IH]; cbn [find_fit_from In]; intros Hnn Hin Hsz.
  - contradiction.
  - destruct (Z.leb_spec size (mm_block_size st y)).
    + apply Hnn. now left.
    + destruct Hin as [-> | Hin]; [lia|].
      apply IH; auto.
Qed.

Lemma heap_ok_list_nonnull st bs x :
  heap_ok st bs -> In x (mm_list_headp st) -> x <> NULL.
Proof.
  intros [[Hchain _ Hlist] _ _ Hpos _ _ _ _] Hin.
  apply (Permutation_in _ Hlist) in Hin.
  apply (free_addrs_sorted _ _ _ _ Hchain) in Hin. unfold NULL. lia.
Qed.

Lemma layout_tags st bs a s al :
  heap_ok st bs -> In (a, s, al) (layout (heap_blocks st) bs) ->
  mm_block_size st a = s /\ mm_block_allocated st a = al /\ 8 <= s /\
  (al = 0 \/ al = 1).
Proof.
  intros [[Hchain _ _] _ _ _ _ _ _ _] Hin.
  destruct (layout_size _ _ _ _ _ _ _ Hchain Hin) as (Hs & Hal & Hh & _ & _).
  unfold mm_block_size, mm_block_allocated. rewrite Hh.
  rewrite tag_size, tag_alloc by tauto. tauto.
Qed.

(** A free block of the heap that is large enough makes [find_fit]
    succeed. *)
Lemma find_fit_free_block st bs a sa size :
  heap_ok st bs -> In (a, sa, 0) (layout (heap_blocks st) bs) -> size <= sa ->
  find_fit st size <> NULL.
Proof.
  intros Hok Hin Hsz. unfold find_fit.
  apply find_fit_from_exists with (b := a).
  - intros x Hx. eapply heap_ok_list_nonnull; eassumption.
  - destruct Hok as [[_ _ Hlist] _ _ _ _ _ _ _].
    apply (Permutation_in _ (Permutation_sym Hlist)).
    apply free_addrs_layout. now exists sa.
  - destruct (layout_tags _ _ _ _ _ Hok Hin) as (-> & _). assumption.
Qed.

(** ** Growing the heap keeps it well formed *)

Lemma extend_heap_ok st bs size :
  heap_ok st bs -> 16 <= size -> size mod 8 = 0 ->
  mem_brk st + size <= mem_max_addr st ->
  exists bs',
    heap_ok (snd (extend_heap st size)) bs' /\
    keeps_allocated (heap_blocks st) bs bs' /\
    heap_blocks (snd (extend_heap st size)) = heap_blocks st /\
    keeps_contents st (snd (extend_heap st size)) bs /\
    mem_brk (snd (extend_heap st size)) = mem_brk st + size /\
    mem_max_addr (snd (extend_heap st size)) = mem_max_addr st /\
    outside_kept st (snd (extend_heap st size)) /\
    exists sa,
      In (fst (extend_heap st size), sa, 0) (layout (heap_blocks st) bs') /\
      size <= sa /\ fst (extend_heap st size) + sa = mem_brk st + size - 4.
Proof.
  intros [[Hchain Hep Hlist] Hhead Halign Hpos Hbrk Hrange Hco Hmin] Hsz Hmod Hfit.
  destruct (exists_last (l := bs)) as (pre & [sp ap] & ->);
    [intros ->; discriminate|].
  rewrite extend_heap_grows by (assumption || lia).
  pose proof (chain_le _ _ _ _ Hchain) as Hle.
  pose proof Hchain as Hc. apply chain_app in Hc as [Hc1 Hc2].
  cbn [chain] in Hc2. destruct Hc2 as (Hsp & Hap & _ & _ & Hend).
  pose proof (chain_le _ _ _ _ Hc1) as Hle1.
  assert (Hpf : pre_free (grown st size) (mem_brk st - 4) pre sp ap size 0 []).
  { unfold grown. constructor; expose.
    - eapply chain_frame; [|exact Hchain]. frame_tac.
    - msimpl. reflexivity.
    - split; [lia | assumption].
    - now left.
    - cbn [chain]. lia.
    - msimpl. reflexivity.
    - rewrite free_addrs_app in *. cbn [free_addrs] in *.
      change (1 =? 0) with false. cbv iota. exact Hlist.
    - lia. }
  destruct (free_coalesce_shape _ _ _ _ _ _ _ _ Hpf)
    as (Hshape & Hb & Hfst & Hframe & _).
  destruct Hb as (E1 & E2 & E3).
  change (mem_brk (grown st size)) with (mem_brk st + size) in E1.
  change (mem_max_addr (grown st size)) with (mem_max_addr st) in E2.
  change (heap_blocks (grown st size)) with (heap_blocks st) in E3.
  change (heap_blocks (grown st size)) with (heap_blocks st) in Hshape.
  cbn [free_next] in Hframe.
  exists (coalesce_blocks pre sp ap size []).
  split; [|split; [|split; [|split; [|split; [|split; [|split]]]]]].
  - constructor; rewrite ?E1, ?E2, ?E3; try assumption; try lia.
    + now apply coalesce_blocks_head.
    + apply coalesce_blocks_coalesced; [assumption | exact I].
    + apply coalesce_blocks_min_sized; try lia.
      * exact Hmin.
      * intros x sz al [].
  - intros x sz Hin. apply coalesce_keeps_allocated. now left.
  - exact E3.
  - intros x sz Hin y Hy. rewrite Hframe.
    + pose proof (layout_bounds _ _ _ _ _ _ _ Hchain Hin).
      unfold grown. msimpl. reflexivity.
    + left. rewrite layout_app in Hin. apply in_app_iff in Hin.
      destruct Hin as [Hin | [Hin | []]].
      * apply (layout_bounds _ _ _ _ _ _ _ Hc1) in Hin.
        destruct (ap =? 0); lia.
      * inversion Hin; subst. change (1 =? 0) with false. cbv iota. lia.
  - exact E1.
  - exact E2.
  - intros y Hy. rewrite E1 in Hy. rewrite Hframe.
    + unfold grown. msimpl. reflexivity.
    + destruct (ap =? 0); lia.
  - exists ((if ap =? 0 then sp else 0) + size + free_next []). split; [|split].
    + rewrite Hfst.
      replace (if ap =? 0 then mem_brk st - 4 - sp else mem_brk st - 4)
        with (if ap =? 0 then heap_blocks st + total pre
              else heap_blocks st + total pre + sp)
        by (destruct (ap =? 0); lia).
      apply coalesce_new_block.
    + cbn [free_next]. destruct (ap =? 0); lia.
    + rewrite Hfst. cbn [free_next]. destruct (ap =? 0); lia.
Qed.

(** ** Freeing keeps the heap well formed *)

(** An allocated block on either side of the block that [free_coalesce]
    works on lies outside the merged block. *)
Lemma coalesce_outside m hb pre sp ap s post e x sz :
  chain m hb (pre ++ [(sp, ap)]) (hb + total pre + sp) ->
  chain m (hb + total pre + sp + s) post e ->
  In (x, sz, 1) (layout hb (pre ++ [(sp, ap)])) \/
  In (x, sz, 1) (layout (hb + total pre + sp + s) post) ->
  x + sz <= (if ap =? 0 then hb + total pre else hb + total pre + sp) \/
  hb + total pre + sp + s + free_next post <= x.
Proof.
  intros Hc1 Hc2 [Hin | Hin].
  - left. apply chain_app in Hc1 as [Hc1 Hlast].
    cbn [chain] in Hlast. destruct Hlast as (Hsp & _).
    rewrite layout_app in Hin. apply in_app_iff in Hin.
    destruct Hin as [Hin | [Hin | []]].
    + apply (layout_bounds _ _ _ _ _ _ _ Hc1) in Hin. destruct (ap =? 0); lia.
    + inversion Hin; subst. change (1 =? 0) with false. cbv iota. lia.
  - right. destruct post as [|[sn an] post']; [contradiction|].
    cbn [chain] in Hc2. destruct Hc2 as (Hsn & _ & _ & _ & Hc2).
    cbn [layout In free_next] in *. destruct Hin as [Hin | Hin].
    + inversion Hin; subst. change (1 =? 0) with false. cbv iota. lia.
    + apply (layout_bounds _ _ _ _ _ _ _ Hc2) in Hin. destruct (an =? 0); lia.
Qed.

Lemma mm_free_ok st bs p :
  heap_ok st bs -> live_in st bs p ->
  exists bs',
    heap_ok (mm_free st p) bs' /\
    same_bounds st (mm_free st p) /\
    (forall x sz, In (x, sz, 1) (layout (heap_blocks st) bs) -> x <> p - 4 ->
       In (x, sz, 1) (layout (heap_blocks st) bs') /\
       block_kept st (mm_free st p) x sz) /\
    outside_kept st (mm_free st p) /\
    exists a sa,
      In (a, sa, 0) (layout (heap_blocks st) bs') /\
      a <= p - 4 /\ p - 4 + mm_block_size st (p - 4) <= a + sa.
Proof.
  intros Hok (Hne & s & Hin).
  pose proof Hok as [[Hchain Hep Hlist] Hhead Halign Hpos Hbrk Hrange Hco Hmin].
  destruct (layout_tags _ _ _ _ _ Hok Hin) as (Hsz & _).
  assert (Hs16 : 16 <= s) by (eapply Hmin; eassumption).
  destruct (layout_split _ _ _ _ _ Hin) as (pre0 & post & -> & Hp).
  pose proof Hchain as Hc. apply chain_app in Hc as [Hc1 Hc2].
  cbn [chain] in Hc2. destruct Hc2 as (Hs & _ & Hh & Hf & Hpost).
  destruct (exists_last (l := pre0)) as (pre & [sp ap] & ->).
  { intros ->. cbn in Hp. lia. }
  rewrite <- Hp in *.
  assert (Hpf : pre_free st (p - 4) pre sp ap s 1 post).
  { constructor; try assumption; try tauto; try lia.
    now rewrite <- app_assoc in Hlist. }
  destruct (free_coalesce_shape _ _ _ _ _ _ _ _ Hpf)
    as (Hshape & Hb & Hfst & Hframe & _).
  pose proof (chain_le _ _ _ _ Hc1) as Hle.
  pose proof Hc1 as Hc1'. apply chain_app in Hc1' as [Hc0 Hlast].
  cbn [chain] in Hlast. destruct Hlast as (Hsp & _ & _ & _ & Hmid).
  rewrite total_app in Hp. cbn [total] in Hp.
  assert (Hbp : p - 4 = heap_blocks st + total pre + sp) by lia.
  rewrite mm_free_unfold by (unfold NULL; lia).
  assert (Hfn : 0 <= free_next post /\
                p - 4 + s + free_next post <= mem_brk st - 4).
  { unfold free_next. pose proof (chain_le _ _ _ _ Hpost).
    destruct post as [|[sn an] post']; [lia|].
    cbn [chain] in Hpost. destruct Hpost as (Hsn & _ & _ & _ & Hpost').
    apply chain_le in Hpost'. destruct (an =? 0); lia. }
  pose proof (chain_le _ _ _ _ Hc0) as Hle0.
  exists (coalesce_blocks pre sp ap s post).
  split; [|split; [|split; [|split]]].
  - eapply heap_ok_same_bounds; try eassumption.
    + apply coalesce_blocks_head.
      rewrite <- app_assoc in Hhead. cbn [app] in Hhead.
      now rewrite hd_error_app_cons in Hhead.
    + apply coalesced_app in Hco as [Hco1 Hco2].
      apply coalesce_blocks_coalesced; [|eapply coalesced_tail; eassumption].
      rewrite <- app_assoc in Hco1. cbn [app] in Hco1.
      now apply coalesced_app in Hco1 as [Hco1 _].
    + apply coalesce_blocks_min_sized; try lia.
      * intros x sz al Hx Hxne. apply (Hmin x sz al); [|assumption].
        rewrite layout_app. apply in_app_iff. now left.
      * intros x sz al Hx. apply (Hmin x sz al).
        -- rewrite layout_app. apply in_app_iff. right. cbn [layout In]. right.
           rewrite (layout_eq _ (heap_blocks st + total pre + sp + s)); [exact Hx|].
           rewrite total_app. cbn [total]. lia.
        -- rewrite <- Hbp in Hx.
           apply (layout_bounds _ _ _ _ _ _ _ Hpost) in Hx. lia.
  - exact Hb.
  - intros x sz Hx Hxne.
    assert (Hside : In (x, sz, 1) (layout (heap_blocks st) (pre ++ [(sp, ap)])) \/
                    In (x, sz, 1) (layout (heap_blocks st + total pre + sp + s) post)).
    { rewrite layout_app in Hx. apply in_app_iff in Hx. cbn [layout In] in Hx.
      rewrite total_app in Hx. cbn [total] in Hx.
      destruct Hx as [Hx | [Hx | Hx]].
      - now left.
      - inversion Hx. lia.
      - right.
        rewrite (layout_eq _ (heap_blocks st + (total pre + (sp + 0)) + s))
          by lia.
        exact Hx. }
    split; [now apply coalesce_keeps_allocated|].
    intros y Hy. apply Hframe.
    destruct (coalesce_outside (mem st) (heap_blocks st) pre sp ap s post
                (mem_brk st - 4) x sz) as [Hl | Hr]; try assumption.
    + rewrite <- Hbp. exact Hc1.
    + rewrite <- Hbp. exact Hpost.
    + left. destruct (ap =? 0); lia.
    + right. lia.
  - intros y Hy. destruct Hb as (Eb & _). rewrite Eb in Hy.
    apply Hframe. destruct (ap =? 0); lia.
  - exists (if ap =? 0 then heap_blocks st + total pre
            else heap_blocks st + total pre + sp),
           ((if ap =? 0 then sp else 0) + s + free_next post).
    split; [apply coalesce_new_block|].
    rewrite Hsz.
    assert (0 <= free_next post).
    { unfold free_next. destruct post as [|[sn an] post']; [lia|].
      cbn [chain] in Hpost. destruct (an =? 0); lia. }
    destruct (ap =? 0); lia.
Qed.

(** ** Allocation keeps the heap well formed *)

Lemma keeps_allocated_trans hb bs1 bs2 bs3 :
  keeps_allocated hb bs1 bs2 -> keeps_allocated hb bs2 bs3 ->
  keeps_allocated hb bs1 bs3.
Proof. unfold keeps_allocated. auto. Qed.

Lemma keeps_contents_trans st st1 st2 bs bs1 :
  heap_blocks st1 = heap_blocks st ->
  keeps_allocated (heap_blocks st) bs bs1 ->
  keeps_contents st st1 bs -> keeps_contents st1 st2 bs1 ->
  keeps_contents st st2 bs.
Proof.
  intros Hhb Hk H1 H2 x sz Hin y Hy.
  rewrite (H2 x sz); [now apply (H1 x sz) | | assumption].
  rewrite Hhb. now apply Hk.
Qed.

Lemma keeps_contents_refl st bs : keeps_contents st st bs.
Proof. intros x sz _ y _. reflexivity. Qed.

Lemma malloc_loop_ok fuel : forall st bs r bp st',
  heap_ok st bs -> 8 <= r -> r mod 8 = 0 ->
  malloc_loop fuel st r (find_fit st r) = Some (bp, st') ->
  exists bs',
    heap_ok st' bs' /\ keeps_allocated (heap_blocks st) bs bs' /\
    heap_blocks st' = heap_blocks st /\
    bp <> NULL /\ In bp (mm_list_headp st') /\ r <= mm_block_size st' bp /\
    keeps_contents st st' bs /\
    mem_brk st' = mem_brk st + (if find_fit st r =? NULL
                                then if 512 <? r then r else 512 else 0) /\
    mem_max_addr st' = mem_max_addr st /\
    outside_kept st st'.
Proof.
  assert (Hstop : forall st bs r bp st',
            heap_ok st bs -> find_fit st r <> NULL ->
            Some (find_fit st r, st) = Some (bp, st') ->
            exists bs',
              heap_ok st' bs' /\ keeps_allocated (heap_blocks st) bs bs' /\
              heap_blocks st' = heap_blocks st /\
              bp <> NULL /\ In bp (mm_list_headp st') /\
              r <= mm_block_size st' bp /\
              keeps_contents st st' bs /\
              mem_brk st' = mem_brk st + (if find_fit st r =? NULL
                                          then if 512 <? r then r else 512
                                          else 0) /\
              mem_max_addr st' = mem_max_addr st /\
              outside_kept st st').
  { intros st bs r bp st' Hok E Hrun. inversion Hrun; subst. exists bs.
    destruct (find_fit_from_found _ _ _ E) as [Hf1 Hf2].
    apply Z.eqb_neq in E. rewrite E.
    repeat match goal with |- _ /\ _ => split end;
      first [assumption | reflexivity | lia | now apply Z.eqb_neq
            | intros x sz Hx; exact Hx | apply keeps_contents_refl
            | intros y Hy; reflexivity]. }
  induction fuel as [|fuel IH]; intros st bs r bp st' Hok Hr Hmod Hrun.
  - cbn [malloc_loop] in Hrun.
    destruct (Z.eq_dec (find_fit st r) NULL) as [E | E].
    + rewrite E in Hrun. discriminate.
    + pose proof E as E'. apply Z.eqb_neq in E'. rewrite E' in Hrun.
      eapply Hstop; eassumption.
  - cbn [malloc_loop] in Hrun.
    destruct (Z.eq_dec (find_fit st r) NULL) as [E | E].
    2: { pose proof E as E'. apply Z.eqb_neq in E'. rewrite E' in Hrun.
         eapply Hstop; eassumption. }
    rewrite E in Hrun at 1. cbn [Z.eqb NULL] in Hrun.
    replace (find_fit st r =? NULL) with true by (symmetry; now apply Z.eqb_eq).
    assert (Ht : 16 <= (if 512 <? r then r else 512) /\
                 (if 512 <? r then r else 512) mod 8 = 0 /\
                 r <= (if 512 <? r then r else 512)).
    { destruct (Z.ltb_spec 512 r); zlia. }
    remember (if 512 <? r then r else 512) as tempp eqn:Etempp.
    destruct Ht as (Ht16 & Htm & Hrt).
    destruct (Z.le_gt_cases (mem_brk st + tempp) (mem_max_addr st))
      as [Hfit | Hfull].
    + destruct (extend_heap_ok st bs tempp Hok Ht16 Htm Hfit)
        as (bs1 & Hok1 & Hk1 & Hhb1 & Hc1 & Hbrk1 & Hmax1 & Hout1 &
            sa & Hin1 & Hsa & _).
      assert (Hfound : find_fit (snd (extend_heap st tempp)) r <> NULL).
      { eapply find_fit_free_block; [exact Hok1 | rewrite Hhb1; exact Hin1 | lia]. }
      revert Hrun Hok1 Hhb1 Hc1 Hbrk1 Hmax1 Hout1 Hfound.
      generalize (snd (extend_heap st tempp)) as st1.
      intros st1 Hrun Hok1 Hhb1 Hc1 Hbrk1 Hmax1 Hout1 Hfound.
      destruct (IH _ _ _ _ _ Hok1 Hr Hmod Hrun)
        as (bs' & Hok' & Hk' & Hhb' & Hnn & Hin & Hsz & Hc' & Hbrk' & Hmax' &
            Hout').
      apply Z.eqb_neq in Hfound. rewrite Hfound in Hbrk'.
      exists bs'. rewrite Hhb1 in *.
      repeat match goal with |- _ /\ _ => split end;
        try first [assumption | congruence | lia].
      * eapply keeps_allocated_trans; eassumption.
      * apply (keeps_contents_trans st st1 st' bs bs1); assumption.
      * intros y Hy. rewrite (Hout' y), (Hout1 y) by lia. reflexivity.
    + rewrite extend_heap_fails in Hrun by (apply mem_sbrk_full; lia).
      cbn [snd] in Hrun.
      destruct (IH _ _ _ _ _ Hok Hr Hmod Hrun)
        as (bs' & Hok' & Hk' & Hhb' & Hnn & Hin & Hsz & Hc' & Hbrk' & Hmax' &
            Hout').
      replace (find_fit st r =? NULL) with true in Hbrk'
        by (symmetry; now apply Z.eqb_eq).
      rewrite <- Etempp in Hbrk'.
      exists bs'.
      repeat match goal with |- _ /\ _ => split end; assumption.
Qed.

Lemma required_block_size_bounds n :
  0 < n -> n + 15 < 2 ^ 31 ->
  let r := required_block_size (wrap32 n) in
  16 <= r /\ n + 8 <= r /\ r mod 8 = 0 /\ r < 2 ^ 31.
Proof.
  intros Hn Hr. cbv zeta.
  rewrite required_block_size_in_range by lia. unfold round_up_8. zlia.
Qed.

Lemma hd_prologue_pre (pre : list (Z * Z)) S post m a e :
  hd_error (pre ++ (S, 0) :: post) = Some (8, 1) ->
  chain m a pre e -> 8 <= total pre.
Proof.
  destruct pre as [|[s al] pre]; cbn; intros H Hc; [congruence|].
  inversion H; subst. destruct Hc as (_ & _ & _ & _ & Hc).
  pose proof (total_nonneg _ _ _ _ Hc). lia.
Qed.

Lemma mm_malloc_ok fuel st bs n p st' :
  heap_ok st bs -> 0 < n -> n + 15 < 2 ^ 31 ->
  mm_malloc fuel st n = Some (p, st') ->
  exists bs' S',
    heap_ok st' bs' /\
    In (p - 4, S', 1) (layout (heap_blocks st) bs') /\
    n + 8 <= S' /\
    keeps_allocated (heap_blocks st) bs bs' /\
    (forall x sz, In (x, sz, 1) (layout (heap_blocks st) bs) -> x <> p - 4) /\
    heap_blocks st' = heap_blocks st /\
    heap_blocks st < p - 4 /\
    keeps_contents st st' bs /\
    mem_brk st' =
      mem_brk st +
      (if find_fit st (required_block_size (wrap32 n)) =? NULL
       then if 512 <? required_block_size (wrap32 n)
            then required_block_size (wrap32 n) else 512
       else 0) /\
    mem_max_addr st' = mem_max_addr st /\
    required_block_size (wrap32 n) <= S' < required_block_size (wrap32 n) + 16 /\
    outside_kept st st'.
Proof.
  intros Hok Hn Hr Hrun.
  rewrite mm_malloc_unfold in Hrun by lia.
  destruct (required_block_size_bounds n Hn Hr) as (Hr16 & Hrn & Hrm & Hrmax).
  revert Hrun Hr16 Hrn Hrm Hrmax.
  generalize (required_block_size (wrap32 n)) as r.
  intros r Hrun Hr16 Hrn Hrm Hrmax.
  destruct (malloc_loop fuel st r (find_fit st r)) as [[bp st1]|] eqn:Hloop;
    [|discriminate].
  assert (Hr8 : 8 <= r) by lia.
  destruct (malloc_loop_ok _ _ _ _ _ _ Hok Hr8 Hrm Hloop)
    as (bs1 & Hok1 & Hk1 & Hhb1 & Hnn & Hin & Hfits & Hcont1 & Hbrk1 & Hmax1 &
        Hout1).
  inversion Hrun; subst p st'. clear Hrun.
  pose proof Hok1 as [[Hchain Hep Hlist] Hhead Halign Hpos Hbrk Hrange Hco Hmin].
  rewrite Hhb1 in *.
  apply (Permutation_in _ Hlist) in Hin.
  apply free_addrs_layout in Hin as [S Hin].
  destruct (layout_size _ _ _ _ _ _ _ Hchain Hin) as (HS & _ & Hh & _ & _).
  assert (HSz : mm_block_size st1 bp = S).
  { unfold mm_block_size. rewrite Hh. apply tag_size; [tauto | now left]. }
  rewrite HSz in Hfits.
  destruct (layout_split _ _ _ _ _ Hin) as (pre & post & -> & Hbp).
  pose proof Hchain as Hc. apply chain_app in Hc as [Hc1 Hc2].
  cbn [chain] in Hc2. destruct Hc2 as (_ & _ & _ & _ & Hc2).
  pose proof (chain_le _ _ _ _ Hc1) as Hle1.
  pose proof (chain_le _ _ _ _ Hc2) as Hle2.
  pose proof (hd_prologue_pre _ _ _ _ _ _ Hhead Hc1) as Hpre8.
  destruct (place_shape st1 bp pre S r post) as (Hshape & Hb & Hhandle & Hframe);
    try tauto; try lia.
  { constructor; rewrite ?Hhb1; assumption. }
  exists (place_blocks pre S r post), (if S - r <? 16 then S else r).
  repeat match goal with |- _ /\ _ => split end.
  - eapply heap_ok_same_bounds; try eassumption.
    + now apply place_blocks_head.
    + now apply place_blocks_coalesced.
    + rewrite Hhb1. now apply place_blocks_min_sized.
  - rewrite Hhandle. replace (_ + 4 - 4) with
      (if S - r <? 16 then heap_blocks st + total pre
       else if 75 <=? r then heap_blocks st + total pre + (S - r)
            else heap_blocks st + total pre).
    + apply place_new_block.
    + destruct (S - r <? 16), (75 <=? r); lia.
  - destruct (S - r <? 16); lia.
  - eapply keeps_allocated_trans; [exact Hk1|].
    intros x sz Hx. now apply place_keeps_allocated.
  - intros x sz Hx. apply Hk1 in Hx.
    rewrite layout_app in Hx. apply in_app_iff in Hx. cbn [layout In] in Hx.
    rewrite Hhandle.
    destruct Hx as [Hx | [Hx | Hx]].
    + apply (layout_lt _ _ _ _ _ _ _ Hc1) in Hx.
      destruct (S - r <? 16), (75 <=? r); lia.
    + inversion Hx.
    + apply (layout_lt _ _ _ _ _ _ _ Hc2) in Hx.
      destruct (Z.ltb_spec (S - r) 16), (75 <=? r); lia.
  - destruct Hb as (_ & _ & Hb). congruence.
  - rewrite Hhandle. destruct (S - r <? 16), (75 <=? r); lia.
  - apply (keeps_contents_trans st st1 _ bs (pre ++ (S, 0) :: post));
      try assumption.
    intros x sz Hx y Hy. apply Hframe. rewrite Hhb1 in Hx.
    rewrite layout_app in Hx. apply in_app_iff in Hx. cbn [layout In] in Hx.
    destruct Hx as [Hx | [Hx | Hx]].
    + apply (layout_lt _ _ _ _ _ _ _ Hc1) in Hx. lia.
    + inversion Hx.
    + apply (layout_lt _ _ _ _ _ _ _ Hc2) in Hx. lia.
  - destruct Hb as (Hb & _). rewrite Hb. exact Hbrk1.
  - destruct Hb as (_ & Hb & _). congruence.
  - destruct (Z.ltb_spec (S - r) 16); lia.
  - destruct (Z.ltb_spec (S - r) 16); lia.
  - destruct Hb as (Hb & _). intros y Hy. rewrite Hb in Hy.
    rewrite Hframe, (Hout1 y) by lia. reflexivity.
Qed.

(** ** Resizing keeps the heap well formed *)

Lemma mm_realloc_moves fuel st p n s sn an :
  p <> NULL -> n <> 0 -> 0 <= n < 2 ^ 32 ->
  mem st (p - 4) = Z.lor s 1 -> mem st (p - 4 + s) = Z.lor sn an ->
  8 <= s /\ s mod 8 = 0 -> 0 <= sn /\ sn mod 8 = 0 -> an = 0 \/ an = 1 ->
  s + sn < 2 ^ 31 ->
  s - 8 < n -> (an = 1 \/ s + sn - 8 < n) ->
  mm_realloc fuel st p n =
    match mm_malloc fuel st n with
    | None => None
    | Some (q, st1) =>
        if q =? NULL then Some (NULL, st1)
        else Some (q, mm_free (memcpy st1 q p (s - 8)) p)
    end.
Proof.
  intros Hp Hn Hn32 Hh Hnh Hs Hsn Han Hrange Hgrow Hno.
  cbv beta delta [mm_realloc]. steps.
  assert (Habs : (an =? 0) && (n <=? s + sn - 8) = false).
  { destruct Han as [-> | ->]; [|reflexivity].
    destruct Hno as [Hno | Hno]; [discriminate|]. cbn. lia. }
  destruct (an =? 0); cbn [andb] in Habs; [rewrite Habs|]; cbv iota.
  all: cbv zeta.
  all: destruct (mm_malloc fuel st n) as [[q st1]|]; [|reflexivity].
  all: destruct (q =? NULL); [reflexivity|].
  all: replace (n <? s - 8) with false by lia.
  all: rewrite (wrap32_id (s - 8)), to_size_t_id by lia; reflexivity.
Qed.

(** A request within the present capacity takes the early exit. *)
Lemma mm_realloc_fits fuel st p n s :
  p <> NULL -> 0 < n -> mm_block_size st (p - 4) = s -> s < 2 ^ 31 ->
  n <= s - 8 -> mm_realloc fuel st p n = Some (p, st).
Proof.
  intros Hp Hn Hs Hint Hfit. unfold mm_realloc.
  apply Z.eqb_neq in Hp. rewrite Hp.
  replace (n =? 0) with false by lia.
  cbv zeta. rewrite Hs, int_sub_id, to_size_t_id by lia.
  now replace (n <=? s - 8) with true by lia.
Qed.

Lemma memcpy_outside st dst src n x :
  ~ (dst <= x < dst + n) -> mem (memcpy st dst src n) x = mem st x.
Proof.
  intros H. unfold memcpy. cbn [mem].
  destruct (Z.leb_spec dst x), (Z.ltb_spec x (dst + n)); cbn; try reflexivity.
  lia.
Qed.

Lemma memcpy_inside st dst src n i :
  0 <= i < n -> mem (memcpy st dst src n) (dst + i) = mem st (src + i).
Proof.
  intros H. unfold memcpy. cbn [mem].
  destruct (Z.leb_spec dst (dst + i)), (Z.ltb_spec (dst + i) (dst + n));
    cbn; try lia.
  f_equal. lia.
Qed.

Lemma memcpy_ok st bs dst src n S al :
  heap_ok st bs ->
  In (dst - 4, S, al) (layout (heap_blocks st) bs) -> n <= S - 8 ->
  heap_ok (memcpy st dst src n) bs.
Proof.
  intros [[Hchain Hep Hlist] Hhead Halign Hpos Hbrk Hrange Hco Hmin] Hin Hn.
  destruct (layout_split _ _ _ _ _ Hin) as (pre & post & -> & Hd).
  apply chain_app in Hchain as [Hc1 Hc2]. rewrite <- Hd in *.
  cbn [chain] in Hc2. destruct Hc2 as (HS & Hal & Hh & Hf & Hc2).
  pose proof (chain_le _ _ _ _ Hc1) as Hle1.
  pose proof (chain_le _ _ _ _ Hc2) as Hle2.
  constructor; try assumption. constructor; cbn [heap_blocks mem_brk memcpy mm_list_headp].
  - apply chain_app. rewrite <- Hd. split.
    + eapply chain_frame; [|exact Hc1].
      intros x Hx. apply memcpy_outside. lia.
    + cbn [chain]. repeat split; try tauto.
      * rewrite memcpy_outside by lia. assumption.
      * rewrite memcpy_outside by lia. assumption.
      * eapply chain_frame; [|exact Hc2].
        intros x Hx. apply memcpy_outside. lia.
  - rewrite memcpy_outside by lia. assumption.
  - assumption.
Qed.

Lemma absorb_ok fuel st pre s sn post p n :
  heap_ok st (pre ++ (s, 1) :: (sn, 0) :: post) ->
  p - 4 = heap_blocks st + total pre -> p - 4 <> heap_blocks st ->
  s - 8 < n <= s + sn - 8 ->
  exists st',
    mm_realloc fuel st p n = Some (p, st') /\
    heap_ok st' (pre ++ (s + sn, 1) :: post) /\
    same_bounds st st' /\
    (forall y, y <> p - 4 -> y <> p - 4 + (s + sn) - 4 -> mem st' y = mem st y).
Proof.
  intros Hok Hp Hne Hn.
  pose proof Hok as [[Hchain Hep Hlist] Hhead Halign Hpos Hbrk Hrange Hco Hmin].
  assert (Hpre : pre <> []) by (intros ->; cbn in Hp; lia).
  apply chain_app in Hchain as [Hc1 Hc2]. rewrite <- Hp in *.
  cbn [chain] in Hc2.
  destruct Hc2 as (Hs & _ & Hh & Hf & Hsn & _ & Hnh & Hnf & Hc2).
  pose proof (chain_le _ _ _ _ Hc1) as Hle1.
  pose proof (chain_le _ _ _ _ Hc2) as Hle2.
  rewrite free_addrs_app in Hlist. cbn [free_addrs] in Hlist.
  rewrite <- Hp in Hlist.
  change (1 =? 0) with false in Hlist. change (0 =? 0) with true in Hlist.
  cbv iota in Hlist.
  eexists. split; [|split; [|split]].
  - apply (mm_realloc_absorb fuel st p n s sn);
      first [assumption | split; lia | unfold NULL; lia].
  - eapply heap_ok_same_bounds; [exact Hok | repeat split | | | |].
    + constructor; expose.
      * apply chain_app. rewrite <- Hp. split.
        -- eapply chain_frame; [|exact Hc1]. frame_tac.
        -- cbn [chain]. repeat split; try solve [msimpl; reflexivity]; try zlia.
           eapply chain_frame_eq; [frame_tac | | exact Hc2]. lia.
      * msimpl. reflexivity.
      * rewrite free_addrs_app. cbn [free_addrs]. rewrite <- Hp.
        change (1 =? 0) with false. cbv iota.
        apply perm_remove_first. perm_from Hlist.
    + destruct pre as [|c pre]; [congruence|]. exact Hhead.
    + apply coalesced_app in Hco as [Hco1 Hco2].
      apply coalesced_app. split.
      * eapply coalesced_last; [|exact Hco1]. now left.
      * apply coalesced_tail, coalesced_tail in Hco2.
        cbn [coalesced]. split; [intros; lia | assumption].
    + intros x sz al Hx Hxne. rewrite layout_app in Hx.
      apply in_app_iff in Hx. cbn [layout In] in Hx.
      destruct Hx as [Hx | [Hx | Hx]].
      * apply (Hmin x sz al); [|assumption]. in_goal. now left.
      * inversion Hx; subst. lia.
      * apply (Hmin x sz al); [|assumption]. in_goal. right. right. right.
        rewrite (layout_eq _ (heap_blocks st + total pre + (s + sn)));
          [exact Hx | lia].
  - repeat split.
  - intros y Hy1 Hy2. expose. msimpl. reflexivity.
Qed.

(** Two blocks of a well-formed heap at the same address are the same
    block. *)
Lemma layout_same_address st bs x s1 al1 s2 al2 :
  heap_ok st bs ->
  In (x, s1, al1) (layout (heap_blocks st) bs) ->
  In (x, s2, al2) (layout (heap_blocks st) bs) ->
  s1 = s2 /\ al1 = al2.
Proof.
  intros Hok H1 H2.
  destruct (layout_tags _ _ _ _ _ Hok H1) as (E1 & A1 & _).
  destruct (layout_tags _ _ _ _ _ Hok H2) as (E2 & A2 & _).
  split; congruence.
Qed.

(** [mm_realloc] on a live pointer with a positive request: the block
    returned has room for the request and starts with the old payload, and
    every other allocated block is where and as it was. *)
Lemma mm_realloc_live_ok fuel st bs p n q st' s :
  heap_ok st bs -> p - 4 <> heap_blocks st ->
  In (p - 4, s, 1) (layout (heap_blocks st) bs) ->
  0 < n -> n + 15 < 2 ^ 31 ->
  mm_realloc fuel st p n = Some (q, st') ->
  exists bs' S',
    heap_ok st' bs' /\ heap_blocks st' = heap_blocks st /\
    In (q - 4, S', 1) (layout (heap_blocks st) bs') /\
    q - 4 <> heap_blocks st /\ n + 8 <= S' /\
    (forall i, 0 <= i < Z.min n (s - 8) -> mem st' (q + i) = mem st (p + i)) /\
    (forall x sz, In (x, sz, 1) (layout (heap_blocks st) bs) -> x <> p - 4 ->
       In (x, sz, 1) (layout (heap_blocks st) bs') /\ block_kept st st' x sz) /\
    (q = p \/
     (forall x sz, In (x, sz, 1) (layout (heap_blocks st) bs) -> x <> q - 4) /\
     exists a sa, In (a, sa, 0) (layout (heap_blocks st) bs') /\
                  a <= p - 4 /\ p - 4 + s <= a + sa) /\
    mem_brk st <= mem_brk st' /\ mem_max_addr st' = mem_max_addr st /\
    outside_kept st st'.
Proof.
  intros Hok Hne Hin Hn0 Hn15 Hrun.
  pose proof Hok as [[Hchain Hep Hlist] Hhead Halign Hpos Hbrk Hrange Hco Hmin].
  pose proof (layout_lt _ _ _ _ _ _ _ Hchain Hin) as Hlt.
  assert (HpN : p <> NULL) by (unfold NULL; lia).
  destruct (layout_size _ _ _ _ _ _ _ Hchain Hin) as (Hs & _ & Hh & Hf & _).
  assert (Hsz : mm_block_size st (p - 4) = s).
  { unfold mm_block_size. rewrite Hh. apply tag_size; [tauto | now right]. }
  destruct (Z.le_gt_cases n (s - 8)) as [Hfits | Hgrow].
  { (* the request fits *)
    rewrite (mm_realloc_fits fuel st p n s) in Hrun by (assumption || lia).
    inversion Hrun; subst q st'. clear Hrun. exists bs, s.
    repeat match goal with |- _ /\ _ => split end;
      try first [assumption | reflexivity | lia].
    - intros x sz Hx _. split; [assumption | intros y _; reflexivity].
    - intros y _. reflexivity. }
  destruct (layout_split _ _ _ _ _ Hin) as (pre & post & Hbs & Hp).
  assert (Hmoves : forall sn an,
    mem st (p - 4 + s) = Z.lor sn an -> 0 <= sn /\ sn mod 8 = 0 ->
    an = 0 \/ an = 1 -> s + sn < 2 ^ 31 -> an = 1 \/ s + sn - 8 < n ->
    exists bs' S',
      heap_ok st' bs' /\ heap_blocks st' = heap_blocks st /\
      In (q - 4, S', 1) (layout (heap_blocks st) bs') /\
      q - 4 <> heap_blocks st /\ n + 8 <= S' /\
      (forall i, 0 <= i < Z.min n (s - 8) -> mem st' (q + i) = mem st (p + i)) /\
      (forall x sz, In (x, sz, 1) (layout (heap_blocks st) bs) -> x <> p - 4 ->
         In (x, sz, 1) (layout (heap_blocks st) bs') /\ block_kept st st' x sz) /\
      (q = p \/
       (forall x sz, In (x, sz, 1) (layout (heap_blocks st) bs) -> x <> q - 4) /\
       exists a sa, In (a, sa, 0) (layout (heap_blocks st) bs') /\
                    a <= p - 4 /\ p - 4 + s <= a + sa) /\
      mem_brk st <= mem_brk st' /\ mem_max_addr st' = mem_max_addr st /\
      outside_kept st st').
  { intros sn an Hnh Hsn Han Hsum Hno.
    rewrite (mm_realloc_moves fuel st p n s sn an) in Hrun
      by first [assumption | lia].
    destruct (mm_malloc fuel st n) as [[q1 st1]|] eqn:Hm; [|discriminate].
    destruct (mm_malloc_ok _ _ _ _ _ _ Hok Hn0 Hn15 Hm)
      as (bs1 & S' & Hok1 & Hnew & HS' & Hkeep & Hfresh & Hhb1 & Hq &
          Hcont1 & Hbrk1 & Hmax1 & _ & Hout1).
    assert (Hq0 : q1 <> NULL) by (unfold NULL; lia).
    apply Z.eqb_neq in Hq0. rewrite Hq0 in Hrun. apply Z.eqb_neq in Hq0.
    inversion Hrun; subst q st'. clear Hrun.
    set (cp := memcpy st1 q1 p (s - 8)).
    assert (Hok2 : heap_ok cp bs1).
    { eapply memcpy_ok; [exact Hok1 | rewrite Hhb1; exact Hnew | lia]. }
    assert (Hlive2 : live_in cp bs1 p).
    { split; cbn [heap_blocks cp memcpy]; rewrite Hhb1; [assumption|].
      exists s. now apply Hkeep. }
    destruct (mm_free_ok cp bs1 p Hok2 Hlive2)
      as (bs' & Hok' & Hb' & Hothers & Hout2 & a & sa & Hfa & Hfa1 & Hfa2).
    destruct Hb' as (Eb & Em & Eh).
    change (heap_blocks cp) with (heap_blocks st1) in *.
    change (mem_brk cp) with (mem_brk st1) in *.
    change (mem_max_addr cp) with (mem_max_addr st1) in *.
    rewrite Hhb1 in *.
    assert (Hps : In (p - 4, s, 1) (layout (heap_blocks st) bs1))
      by now apply Hkeep.
    destruct (layout_tags cp bs1 (p - 4) s 1 Hok2) as (Hsz2 & _).
    { change (heap_blocks cp) with (heap_blocks st1). now rewrite Hhb1. }
    rewrite Hsz2 in Hfa2.
    assert (Hqp : q1 - 4 <> p - 4) by (intros E; now apply (Hfresh _ _ Hin)).
    destruct (Hothers _ _ Hnew Hqp) as [Hnew' Hkept'].
    pose proof Hok1 as [[Hchain1 _ _] _ _ _ _ _ _ _]. rewrite Hhb1 in Hchain1.
    exists bs', S'.
    repeat match goal with |- _ /\ _ => split end;
      try first [assumption | congruence | lia].
    - intros i Hi. rewrite (Hkept' (q1 + i)) by lia.
      unfold cp. rewrite memcpy_inside by lia.
      apply (Hcont1 _ _ Hin). lia.
    - intros x sz Hx Hxne. pose proof (Hkeep _ _ Hx) as Hx1.
      destruct (Hothers _ _ Hx1 Hxne) as [Hx' Hk'].
      split; [assumption|]. intros y Hy.
      rewrite (Hk' y Hy). unfold cp. rewrite memcpy_outside.
      + now apply (Hcont1 _ _ Hx).
      + destruct (layout_disjoint _ _ _ _ _ _ _ _ _ _ Hchain1 Hx1 Hnew)
          as [E | Hd].
        * inversion E. exfalso. now apply (Hfresh _ _ Hx).
        * lia.
    - right. split; [exact Hfresh|]. exists a, sa. auto.
    - rewrite Eb, Hbrk1.
      destruct (required_block_size_bounds n Hn0 Hn15) as (Hr16 & _).
      destruct (find_fit st _ =? NULL); [destruct (512 <? _)|]; lia.
    - intros y Hy. rewrite Eb in Hy.
      pose proof (layout_lt _ _ _ _ _ _ _ Hchain1 Hnew) as Hltq.
      rewrite (Hout2 y).
      + unfold cp. rewrite memcpy_outside by lia. apply Hout1. lia.
      + change (heap_blocks cp) with (heap_blocks st1). rewrite Hhb1, Eb.
        exact Hy. }
  subst bs. pose proof Hchain as Hc.
  apply chain_app in Hc as [Hc1 Hc2]. rewrite <- Hp in Hc2.
  cbn [chain] in Hc2. destruct Hc2 as (_ & _ & _ & _ & Hc2).
  pose proof (chain_le _ _ _ _ Hc1) as Hle1.
  pose proof (chain_le _ _ _ _ Hc2) as Hle2.
  destruct post as [|[sn an] post'].
  - (* the epilogue follows *)
    cbn [chain] in Hc2. apply (Hmoves 0 1); try lia.
    + rewrite Hc2. exact Hep.
    + split; [lia | reflexivity].
  - cbn [chain] in Hc2. destruct Hc2 as (Hsn & Han & Hnh & _ & Hc3).
    pose proof (chain_le _ _ _ _ Hc3) as Hle3.
    destruct Han as [-> | ->].
    + destruct (Z.le_gt_cases n (s + sn - 8)) as [Habs | Hbig].
      * assert (Hrng : s - 8 < n <= s + sn - 8) by lia.
        destruct (absorb_ok fuel st pre s sn post' p n Hok Hp Hne Hrng)
          as (st2 & Hrun2 & Hok2 & (Eb & Em & Eh) & Hfr).
        rewrite Hrun2 in Hrun. inversion Hrun; subst q st'. clear Hrun.
        exists (pre ++ (s + sn, 1) :: post'), (s + sn).
        repeat match goal with |- _ /\ _ => split end;
          try first [assumption | congruence | lia].
        -- in_goal. right. left. in_solve.
        -- intros i Hi. apply Hfr; lia.
        -- intros x sz Hx Hxne. rewrite layout_app in Hx.
           apply in_app_iff in Hx. cbn [layout In] in Hx.
           destruct Hx as [Hx | [Hx | [Hx | Hx]]].
           ++ split; [in_goal; now left|].
              apply (layout_lt _ _ _ _ _ _ _ Hc1) in Hx.
              intros y Hy. apply Hfr; lia.
           ++ inversion Hx. lia.
           ++ inversion Hx.
           ++ split.
              ** in_goal. right. right.
                 rewrite (layout_eq _ (heap_blocks st + total pre + s + sn));
                   [exact Hx | lia].
              ** rewrite (layout_eq _ (p - 4 + s + sn)) in Hx by lia.
                 apply (layout_lt _ _ _ _ _ _ _ Hc3) in Hx.
                 intros y Hy. apply Hfr; lia.
        -- intros y Hy. rewrite Eb in Hy. apply Hfr; lia.
      * apply (Hmoves sn 0); try tauto; try lia.
    + apply (Hmoves sn 1); try tauto; try lia.
Qed.

Lemma mm_realloc_ok fuel st bs p n q st' :
  heap_ok st bs -> p = NULL \/ live_in st bs p ->
  0 <= n -> n + 15 < 2 ^ 31 ->
  mm_realloc fuel st p n = Some (q, st') ->
  exists bs', heap_ok st' bs' /\ heap_blocks st' = heap_blocks st.
Proof.
  intros Hok [-> | Hlive] Hn0 Hn15 Hrun.
  - (* a null pointer: plain allocation *)
    unfold mm_realloc in Hrun. cbn [Z.eqb NULL] in Hrun.
    destruct (Z.eq_dec n 0) as [-> | Hnz].
    + cbn in Hrun. inversion Hrun; subst. now exists bs.
    + assert (Hnpos : 0 < n) by lia.
      destruct (mm_malloc_ok _ _ _ _ _ _ Hok Hnpos Hn15 Hrun)
        as (bs' & S' & Hok' & _ & _ & _ & _ & Hhb & _).
      now exists bs'.
  - pose proof Hlive as (Hne & s & Hin).
    pose proof Hok as [[Hchain _ _] _ _ Hpos _ _ _ _].
    pose proof (layout_lt _ _ _ _ _ _ _ Hchain Hin) as Hlt.
    destruct (Z.eq_dec n 0) as [-> | Hnz].
    + (* size 0: free *)
      assert (HpN : p <> NULL) by (unfold NULL; lia).
      unfold mm_realloc in Hrun. apply Z.eqb_neq in HpN. rewrite HpN in Hrun.
      cbn [Z.eqb] in Hrun. inversion Hrun; subst.
      destruct (mm_free_ok _ _ _ Hok Hlive) as (bs' & Hok' & (_ & _ & Hhb) & _).
      now exists bs'.
    + assert (Hnpos : 0 < n) by lia.
      destruct (mm_realloc_live_ok _ _ _ _ _ _ _ _ Hok Hne Hin Hnpos Hn15 Hrun)
        as (bs' & S' & Hok' & Hhb & _).
      now exists bs'.
Qed.

(** ** Initialisation establishes the invariant *)

Lemma mm_init_state_small st :
  mem_brk st + 16 <= mem_max_addr st < mem_brk st + 80 ->
  mm_init st =
    (0, mkState (upd (upd (upd (upd (mem st)
                   (mem_brk st) (Z.lor 0 0)) (mem_brk st + 4) (Z.lor 8 1))
                   (mem_brk st + 4 + 8 - 4) (Z.lor 8 1))
                   (mem_brk st + 12) (Z.lor 0 1))
                (mem_brk st + 16) (mem_max_addr st) (mem_brk st + 4) []).
Proof.
  intros Hcap. cbv beta delta [mm_init]. steps.
  rewrite mem_sbrk_ok by (expose; lia). steps.
  rewrite extend_heap_fails by (apply mem_sbrk_full; expose; lia).
  reflexivity.
Qed.

Lemma mm_init_ok st0 :
  0 < mem_brk st0 -> mem_brk st0 mod 8 = 0 ->
  mem_max_addr st0 - mem_brk st0 < 2 ^ 31 ->
  fst (mm_init st0) = 0 ->
  exists bs, heap_ok (snd (mm_init st0)) bs.
Proof.
  intros Hpos Halign Hrange Hret.
  destruct (Z.lt_ge_cases (mem_max_addr st0) (mem_brk st0 + 16)) as [Hnone | H16].
  { rewrite mm_init_first_step_fails in Hret by assumption. discriminate. }
  destruct (Z.lt_ge_cases (mem_max_addr st0) (mem_brk st0 + 80)) as [Hsmall | H80].
  - exists [(8, 1)]. rewrite mm_init_state_small by lia. cbn [snd].
    constructor; expose; try first [reflexivity | zlia].
    + constructor; expose.
      * cbn [chain]. repeat split; try solve [msimpl; reflexivity]; zlia.
      * msimpl. reflexivity.
      * cbn. constructor.
    + cbn. tauto.
    + intros x s al Hin Hne. cbn in Hin. destruct Hin as [E | []].
      inversion E. lia.
  - exists [(8, 1); (64, 0)]. rewrite mm_init_state by lia. cbn [snd].
    unfold init_mem.
    constructor; expose; try first [reflexivity | zlia].
    + constructor; expose.
      * cbn [chain]. repeat split; try solve [msimpl; reflexivity]; zlia.
      * msimpl. reflexivity.
      * cbn. replace (mem_brk st0 + 4 + 8) with (mem_brk st0 + 12) by lia.
        reflexivity.
    + cbn. intuition congruence.
    + intros x s al Hin Hne. cbn in Hin. destruct Hin as [E | [E | []]];
        inversion E; lia.
Qed.

(** ** Walking the heap *)

Lemma walk_in_layout st bs a :
  heap_ok st bs -> heap_walk st a ->
  (exists s al, In (a, s, al) (layout (heap_blocks st) bs)) \/
  a = mem_brk st - 4.
Proof.
  intros Hok Hw. induction Hw as [|a Hw IH Hsz].
  - left. destruct Hok as [_ Hhead _ _ _ _ _ _].
    destruct bs as [|[s al] bs]; [discriminate|].
    exists s, al. now left.
  - pose proof Hok as [[Hchain Hep _] _ _ _ _ _ _ _].
    destruct IH as [(s & al & Hin) | ->].
    + destruct (layout_tags _ _ _ _ _ Hok Hin) as (Hs & _).
      unfold mm_block_next. rewrite Hs.
      destruct (layout_split _ _ _ _ _ Hin) as (pre & post & -> & ->).
      apply chain_app in Hchain as [_ Hc]. cbn [chain] in Hc.
      destruct Hc as (_ & _ & _ & _ & Hc).
      destruct post as [|[sn an] post].
      * right. exact Hc.
      * left. exists sn, an. rewrite layout_app. apply in_app_iff. right.
        cbn [layout In]. right. now left.
    + exfalso. apply Hsz. unfold mm_block_size. now rewrite Hep.
Qed.

Lemma layout_walk st bs : heap_ok st bs ->
  forall pre s al post,
    bs = pre ++ (s, al) :: post ->
    heap_walk st (heap_blocks st + total pre).
Proof.
  intros Hok pre. induction pre as [|[s0 al0] pre IH] using rev_ind;
    intros s al post Hbs.
  - cbn. rewrite Z.add_0_r. constructor.
  - rewrite <- app_assoc in Hbs. cbn [app] in Hbs.
    pose proof (IH _ _ _ Hbs) as Hw.
    assert (Hin : In (heap_blocks st + total pre, s0, al0)
                     (layout (heap_blocks st) bs)).
    { rewrite Hbs, layout_app. apply in_app_iff. right. now left. }
    destruct (layout_tags _ _ _ _ _ Hok Hin) as (Hs & _ & Hs8 & _).
    rewrite total_app. cbn [total].
    replace (heap_blocks st + (total pre + (s0 + 0)))
      with (mm_block_next st (heap_blocks st + total pre))
      by (unfold mm_block_next; rewrite Hs; lia).
    constructor; [assumption | lia].
Qed.

(** The walk reaches the epilogue. *)
Lemma walk_epilogue st bs : heap_ok st bs -> heap_walk st (mem_brk st - 4).
Proof.
  intros Hok. pose proof Hok as [[Hchain _ _] Hhead _ _ _ _ _ _].
  destruct (exists_last (l := bs)) as (pre & [s al] & Hbs);
    [intros ->; discriminate|].
  pose proof (layout_walk _ _ Hok pre s al [] Hbs) as Hw.
  assert (Hin : In (heap_blocks st + total pre, s, al)
                   (layout (heap_blocks st) bs)).
  { rewrite Hbs, layout_app. apply in_app_iff. right. now left. }
  destruct (layout_tags _ _ _ _ _ Hok Hin) as (Hs & _ & Hs8 & _).
  rewrite Hbs in Hchain. apply chain_app in Hchain as [_ Hc].
  cbn [chain] in Hc. destruct Hc as (_ & _ & _ & _ & <-).
  replace (heap_blocks st + total pre + s)
    with (mm_block_next st (heap_blocks st + total pre))
    by (unfold mm_block_next; now rewrite Hs).
  constructor; [assumption | lia].
Qed.

(** The blocks of the invariant and the blocks of the heap walk are the
    same. *)
Lemma layout_is_block st bs a s al :
  heap_ok st bs -> In (a, s, al) (layout (heap_blocks st) bs) ->
  a <> heap_blocks st -> is_block st a.
Proof.
  intros Hok Hin Hne.
  destruct (layout_tags _ _ _ _ _ Hok Hin) as (Hs & _ & Hs8 & _).
  destruct (layout_split _ _ _ _ _ Hin) as (pre & post & Hbs & ->).
  split; [|split]; [eapply layout_walk; eassumption | assumption | lia].
Qed.

Lemma is_block_layout st bs a :
  heap_ok st bs -> is_block st a ->
  exists s al, In (a, s, al) (layout (heap_blocks st) bs).
Proof.
  intros Hok (Hw & Hne & Hsz).
  destruct (walk_in_layout _ _ _ Hok Hw) as [H | He]; [exact H|].
  exfalso. apply Hsz. destruct Hok as [[_ Hep _] _ _ _ _ _ _ _].
  unfold mm_block_size. now rewrite He, Hep.
Qed.

Lemma live_live_in st bs p : heap_ok st bs -> live st p -> live_in st bs p.
Proof.
  intros Hok (Hb & Hal). split; [apply Hb|].
  destruct (is_block_layout _ _ _ Hok Hb) as (s & al & Hin).
  destruct (layout_tags _ _ _ _ _ Hok Hin) as (_ & Ha & _ & [-> | ->]).
  - congruence.
  - now exists s.
Qed.

Lemma live_in_live st bs p s :
  heap_ok st bs -> p - 4 <> heap_blocks st ->
  In (p - 4, s, 1) (layout (heap_blocks st) bs) -> live st p.
Proof.
  intros Hok Hne Hin. split.
  - eapply layout_is_block; eassumption.
  - destruct (layout_tags _ _ _ _ _ Hok Hin) as (_ & -> & _). discriminate.
Qed.

(** What the invariant says in terms of the memory alone: the free list has
    no repetition and holds exactly the free blocks of the heap walk. *)
Lemma heap_ok_free_list st bs :
  heap_ok st bs ->
  NoDup (mm_list_headp st) /\
  forall a, In a (mm_list_headp st) <->
            is_block st a /\ mm_block_allocated st a = 0.
Proof.
  intros Hok. pose proof Hok as [[Hchain Hep Hlist] Hhead _ _ _ _ _ _].
  split.
  - apply (Permutation_NoDup (Permutation_sym Hlist)).
    eapply free_addrs_NoDup; eassumption.
  - intros a. split.
    + intros Hin. apply (Permutation_in _ Hlist) in Hin.
      apply free_addrs_layout in Hin as [s Hin].
      destruct (layout_tags _ _ _ _ _ Hok Hin) as (Hs & Ha & Hs8 & _).
      split; [|assumption].
      eapply layout_is_block; try eassumption.
      destruct (layout_split _ _ _ _ _ Hin) as (pre & post & Hbs & ->).
      rewrite Hbs in Hhead, Hchain. apply chain_app in Hchain as [Hc _].
      pose proof (hd_prologue_pre _ _ _ _ _ _ Hhead Hc). lia.
    + intros (Hb & Hal).
      apply (Permutation_in _ (Permutation_sym Hlist)).
      apply free_addrs_layout.
      destruct (is_block_layout _ _ _ Hok Hb) as (s & al & Hin).
      destruct (layout_tags _ _ _ _ _ Hok Hin) as (_ & Ha & _).
      exists s. congruence.
Qed.

(** ** Reachable states *)

Lemma reachable_heap_ok st : reachable st -> exists bs, heap_ok st bs.
Proof.
  induction 1 as [st0 Hpos Hal Hrg Hret
                 | st fuel n p st' _ [bs Hok] Hn Hn15 Hrun
                 | st p _ [bs Hok] Hp
                 | st fuel p n q st' _ [bs Hok] Hp Hn Hn15 Hrun].
  - now apply mm_init_ok.
  - destruct (Z.eq_dec n 0) as [-> | Hnz].
    + cbn in Hrun. inversion Hrun; subst. now exists bs.
    + assert (Hnpos : 0 < n) by lia.
      destruct (mm_malloc_ok _ _ _ _ _ _ Hok Hnpos Hn15 Hrun) as (bs' & _ & Hok' & _).
      now exists bs'.
  - destruct Hp as [-> | Hlive].
    + now exists bs.
    + destruct (mm_free_ok _ _ _ Hok (live_live_in _ _ _ Hok Hlive))
        as (bs' & Hok' & _).
      now exists bs'.
  - assert (Hp' : p = NULL \/ live_in st bs p).
    { destruct Hp as [-> | Hlive]; [now left | right].
      now apply live_live_in. }
    destruct (mm_realloc_ok _ _ _ _ _ _ _ Hok Hp' Hn Hn15 Hrun) as (bs' & Hok' & _).
    now exists bs'.
Qed.

(** A live pointer of a reachable state is the payload of an allocated
    block of the invariant's chain. *)
Lemma reachable_live st p :
  reachable st -> live st p ->
  exists bs s,
    heap_ok st bs /\ p - 4 <> heap_blocks st /\
    In (p - 4, s, 1) (layout (heap_blocks st) bs) /\
    mm_block_size st (p - 4) = s.
Proof.
  intros Hr Hl. destruct (reachable_heap_ok _ Hr) as [bs Hok].
  destruct (live_live_in _ _ _ Hok Hl) as (Hne & s & Hin).
  destruct (layout_tags _ _ _ _ _ Hok Hin) as (Hs & _).
  exists bs, s. auto.
Qed.

(** X1: The free-list invariant at every reachable state: no block is in the
    list twice, and the list holds exactly the non-sentinel blocks whose
    allocation bit is clear. *)
Theorem reachable_free_list_invariant st :
  reachable st ->
  NoDup (mm_list_headp st) /\
  forall a, In a (mm_list_headp st) <->
            is_block st a /\ mm_block_allocated st a = 0.
Proof.
  intros Hr. destruct (reachable_heap_ok _ Hr) as [bs Hok].
  now apply heap_ok_free_list with (bs := bs).
Qed.

(** ** The shape of the heap at every reachable state *)

(** X2: The heap is well formed at every reachable state: the prologue is an
    allocated block of 8 bytes, the heap walk ends at the epilogue (size 0,
    allocated) in the last word below the break, the break is within the
    store, and every block in between starts 4 bytes off an 8-byte boundary,
    has at least 16 bytes, carries a footer identical to its header and lies
    between the prologue and the epilogue. *)
Theorem reachable_heap_well_formed st :
  reachable st ->
  block st (heap_blocks st) 8 1 /\
  mem st (mem_brk st - 4) = Z.lor 0 1 /\
  heap_walk st (mem_brk st - 4) /\
  mem_brk st <= mem_max_addr st /\
  forall a, is_block st a ->
    a mod 8 = 4 /\ 16 <= mm_block_size st a /\
    mem st (a + mm_block_size st a - 4) = mem st a /\
    heap_blocks st + 8 <= a /\ a + mm_block_size st a <= mem_brk st - 4.
Proof.
  intros Hr. destruct (reachable_heap_ok _ Hr) as [bs Hok].
  pose proof Hok as [[Hchain Hep Hlist] Hhead Halign Hpos Hbrk Hrange Hco Hmin].
  split; [|split; [|split; [|split]]]; try assumption.
  - destruct bs as [|[s al] bs]; [discriminate|].
    inversion Hhead; subst. cbn [chain] in Hchain.
    destruct Hchain as (_ & _ & Hh & Hf & _).
    unfold block, mm_block_size, mm_block_allocated. rewrite Hh, Hf.
    rewrite tag_size, tag_alloc by first [reflexivity | now right]. auto.
  - eapply walk_epilogue; eassumption.
  - intros a Hb. destruct (is_block_layout _ _ _ Hok Hb) as (s & al & Hin).
    destruct (layout_tags _ _ _ _ _ Hok Hin) as (Hs & _).
    destruct (layout_size _ _ _ _ _ _ _ Hchain Hin) as (_ & _ & Hh & Hf & Hmod).
    pose proof (layout_lt _ _ _ _ _ _ _ Hchain Hin) as Hlt.
    destruct Hb as (_ & Hne & _).
    pose proof (Hmin _ _ _ Hin Hne) as H16.
    rewrite Hs. repeat split; try lia; zlia.
Qed.

(** What the invariant says about the neighbours of a free block. *)
Lemma heap_ok_neighbours st bs a :
  heap_ok st bs -> is_block st a -> mm_block_allocated st a = 0 ->
  mm_block_allocated st (mm_block_next st a) = 1 /\
  mm_block_allocated st (mm_block_prev st a) = 1.
Proof.
  intros Hok Hb Hfree.
  pose proof Hok as [[Hchain Hep Hlist] Hhead Halign Hpos Hbrk Hrange Hco Hmin].
  destruct (is_block_layout _ _ _ Hok Hb) as (s & al & Hin).
  destruct (layout_tags _ _ _ _ _ Hok Hin) as (Hs & Hal & _).
  rewrite Hfree in Hal. subst al.
  destruct Hb as (_ & Hne & _).
  destruct (layout_split _ _ _ _ _ Hin) as (pre0 & post & -> & Ha).
  destruct (exists_last (l := pre0)) as (pre & [sp ap] & ->).
  { intros ->. cbn in Ha. lia. }
  rewrite <- app_assoc in Hchain, Hco. cbn [app] in Hchain, Hco.
  rewrite total_app in Ha. cbn [total] in Ha.
  apply chain_app in Hchain as [_ Hc]. cbn [chain] in Hc.
  destruct Hc as (Hsp & Hap & Hph & Hpf & _ & _ & _ & _ & Hpost).
  replace (heap_blocks st + total pre + sp) with a in * by lia.
  apply coalesced_app in Hco as [_ Hco]. cbn [coalesced] in Hco.
  destruct Hco as (Hp0 & Hn0 & _).
  split.
  - unfold mm_block_next. rewrite Hs. unfold mm_block_allocated.
    destruct post as [|[sn an] post'].
    + cbn [chain] in Hpost. rewrite Hpost, Hep. reflexivity.
    + cbn [chain] in Hpost. destruct Hpost as (Hsn & Han & Hnh & _).
      rewrite Hnh, tag_alloc by tauto.
      specialize (Hn0 eq_refl). lia.
  - unfold mm_block_prev, mm_block_allocated.
    replace (heap_blocks st + total pre) with (a - sp) in * by lia.
    rewrite Hpf, tag_size by tauto. rewrite Hph, tag_alloc by tauto.
    destruct Hap as [-> | ->]; [|reflexivity].
    exfalso. now apply Hp0.
Qed.

(** X3: Coalescing is complete: at every reachable state both physical
    neighbours of a free block are allocated (a block, the prologue or the
    epilogue), so no two free blocks are adjacent. *)
Theorem reachable_no_adjacent_free st a :
  reachable st -> is_block st a -> mm_block_allocated st a = 0 ->
  mm_block_allocated st (mm_block_next st a) = 1 /\
  mm_block_allocated st (mm_block_prev st a) = 1.
Proof.
  intros Hr. destruct (reachable_heap_ok _ Hr) as [bs Hok].
  now apply heap_ok_neighbours with (bs := bs).
Qed.

(** Two different blocks of the invariant's chain do not share a byte. *)
Lemma heap_ok_disjoint st bs x1 s1 al1 x2 s2 al2 :
  heap_ok st bs ->
  In (x1, s1, al1) (layout (heap_blocks st) bs) ->
  In (x2, s2, al2) (layout (heap_blocks st) bs) ->
  x1 <> x2 -> x1 + s1 <= x2 \/ x2 + s2 <= x1.
Proof.
  intros [[Hchain _ _] _ _ _ _ _ _ _] H1 H2 Hne.
  destruct (layout_disjoint _ _ _ _ _ _ _ _ _ _ Hchain H1 H2) as [E | H];
    [inversion E; congruence | exact H].
Qed.

(** X4: Live blocks never overlap: at a reachable state the blocks of two
    different live pointers, tags included, share no byte. *)
Theorem live_blocks_disjoint st p q :
  reachable st -> live st p -> live st q -> p <> q ->
  p - 4 + mm_block_size st (p - 4) <= q - 4 \/
  q - 4 + mm_block_size st (q - 4) <= p - 4.
Proof.
  intros Hr Hp Hq Hne. destruct (reachable_heap_ok _ Hr) as [bs Hok].
  destruct (live_live_in _ _ _ Hok Hp) as (_ & sp & Hinp).
  destruct (live_live_in _ _ _ Hok Hq) as (_ & sq & Hinq).
  destruct (layout_tags _ _ _ _ _ Hok Hinp) as (-> & _).
  destruct (layout_tags _ _ _ _ _ Hok Hinq) as (-> & _).
  eapply heap_ok_disjoint; try eassumption. lia.
Qed.

(** ** What the operations do to live blocks *)

(** X5: For requests whose block size fits an [int], a successful
    [mm_malloc] at a reachable state returns a pointer that is not null:
    the 8-byte aligned payload of an allocated block with room for the
    request. *)
Theorem mm_malloc_in_range st fuel n p st' :
  reachable st -> 0 < n -> n + 15 < 2 ^ 31 ->
  mm_malloc fuel st n = Some (p, st') ->
  p <> NULL /\ p mod 8 = 0 /\ live st' p /\
  mm_block_allocated st' (p - 4) = 1 /\
  mm_block_size st' (p - 4) mod 8 = 0 /\
  n <= mm_block_size st' (p - 4) - 8.
Proof.
  intros Hr Hn Hn15 Hrun. destruct (reachable_heap_ok _ Hr) as [bs Hok].
  destruct (mm_malloc_ok _ _ _ _ _ _ Hok Hn Hn15 Hrun)
    as (bs' & S' & Hok' & Hin & HS' & _ & _ & Hhb & Hlt & _).
  rewrite <- Hhb in Hin, Hlt.
  destruct (layout_tags _ _ _ _ _ Hok' Hin) as (Hs & Ha & Hs8 & _).
  pose proof Hok' as [[Hchain _ _] _ Halign Hpos _ _ _ _].
  destruct (layout_size _ _ _ _ _ _ _ Hchain Hin) as (_ & _ & _ & _ & Hmod).
  split; [unfold NULL; lia|]. split; [zlia|]. split; [|split; [assumption|split; [apply mm_block_size_mod8 | lia]]].
  eapply live_in_live; try eassumption. lia.
Qed.

(** X6: [mm_malloc] leaves every live block alone: a pointer that was live
    is still live, none of the words of its block (tags and payload) has
    changed, and the block returned is a different one that shares no byte
    with it. *)
Theorem mm_malloc_preserves_live st fuel n p st' q :
  reachable st -> 0 < n -> n + 15 < 2 ^ 31 ->
  mm_malloc fuel st n = Some (p, st') -> live st q ->
  live st' q /\ q <> p /\
  block_kept st st' (q - 4) (mm_block_size st (q - 4)) /\
  (p - 4 + mm_block_size st' (p - 4) <= q - 4 \/
   q - 4 + mm_block_size st (q - 4) <= p - 4).
Proof.
  intros Hr Hn Hn15 Hrun Hq.
  destruct (reachable_live _ _ Hr Hq) as (bs & s & Hok & Hne & Hin & Hs).
  destruct (mm_malloc_ok _ _ _ _ _ _ Hok Hn Hn15 Hrun)
    as (bs' & S' & Hok' & Hnew & HS' & Hkeep & Hfresh & Hhb & Hlt & Hcont & _).
  pose proof (Hkeep _ _ Hin) as Hin'.
  pose proof (Hfresh _ _ Hin) as Hqp.
  rewrite <- Hhb in Hin', Hnew, Hne.
  destruct (layout_tags _ _ _ _ _ Hok' Hnew) as (-> & _).
  rewrite Hs.
  split; [eapply live_in_live; eassumption|].
  split; [lia|]. split; [now apply (Hcont _ _ Hin)|].
  eapply heap_ok_disjoint; try eassumption. lia.
Qed.

(** X7: [mm_free] leaves every other live block alone: a pointer other than
    the one freed is still live, and none of the words of its block has
    changed. *)
Theorem mm_free_preserves_others st p q :
  reachable st -> live st p -> live st q -> q <> p ->
  live (mm_free st p) q /\
  block_kept st (mm_free st p) (q - 4) (mm_block_size st (q - 4)).
Proof.
  intros Hr Hp Hq Hne.
  destruct (reachable_live _ _ Hr Hq) as (bs & s & Hok & Hqne & Hin & Hs).
  destruct (mm_free_ok _ _ _ Hok (live_live_in _ _ _ Hok Hp))
    as (bs' & Hok' & (_ & _ & Hhb) & Hothers & _).
  destruct (Hothers _ _ Hin) as [Hin' Hkept]; [lia|].
  rewrite Hs. split; [|assumption].
  rewrite <- Hhb in Hin', Hqne. eapply live_in_live; eassumption.
Qed.

(** X8: [mm_free] releases the block: the pointer is no longer live, the
    bytes of its block now lie inside a free block that is on the free list,
    and the break has not moved (memory is never returned to the store). *)
Theorem mm_free_releases_block st p :
  reachable st -> live st p ->
  ~ live (mm_free st p) p /\
  mem_brk (mm_free st p) = mem_brk st /\
  exists a,
    In a (mm_list_headp (mm_free st p)) /\
    mm_block_allocated (mm_free st p) a = 0 /\
    a <= p - 4 /\
    p - 4 + mm_block_size st (p - 4) <= a + mm_block_size (mm_free st p) a.
Proof.
  intros Hr Hp.
  destruct (reachable_live _ _ Hr Hp) as (bs & s & Hok & Hne & Hin & Hs).
  destruct (layout_tags _ _ _ _ _ Hok Hin) as (_ & _ & Hs8 & _).
  destruct (mm_free_ok _ _ _ Hok (live_live_in _ _ _ Hok Hp))
    as (bs' & Hok' & (Hb & _ & Hhb) & _ & _ & a & sa & Hfa & Ha1 & Ha2).
  rewrite <- Hhb in Hfa. rewrite Hs in Ha2.
  destruct (layout_tags _ _ _ _ _ Hok' Hfa) as (Hsa & Haa & _).
  split; [|split; [assumption|]].
  - intros Hl. destruct (live_live_in _ _ _ Hok' Hl) as (_ & s' & Hin').
    destruct (layout_tags _ _ _ _ _ Hok' Hin') as (_ & _ & Hs'8 & _).
    pose proof Hok' as [[Hchain' _ _] _ _ _ _ _ _ _].
    destruct (layout_disjoint _ _ _ _ _ _ _ _ _ _ Hchain' Hin' Hfa) as [E | H];
      [inversion E | lia].
  - exists a. rewrite Hsa, Hs.
    split; [|auto].
    destruct Hok' as [[_ _ Hlist] _ _ _ _ _ _ _].
    apply (Permutation_in _ (Permutation_sym Hlist)).
    apply free_addrs_layout. now exists sa.
Qed.


(** X10: [mm_realloc] leaves every other live block alone: a pointer other
    than the one resized is still live, is not the pointer returned, and
    none of the words of its block has changed. *)
Theorem mm_realloc_preserves_others st fuel p n q st' r :
  reachable st -> live st p -> 0 < n -> n + 15 < 2 ^ 31 ->
  mm_realloc fuel st p n = Some (q, st') -> live st r -> r <> p ->
  live st' r /\ r <> q /\
  block_kept st st' (r - 4) (mm_block_size st (r - 4)).
Proof.
  intros Hr Hp Hn Hn15 Hrun Hlr Hrp.
  destruct (reachable_live _ _ Hr Hp) as (bs & s & Hok & Hne & Hin & Hs).
  destruct (live_live_in _ _ _ Hok Hlr) as (Hrne & sr & Hinr).
  destruct (layout_tags _ _ _ _ _ Hok Hinr) as (-> & _).
  destruct (mm_realloc_live_ok _ _ _ _ _ _ _ _ Hok Hne Hin Hn Hn15 Hrun)
    as (bs' & S' & Hok' & Hhb & _ & _ & _ & _ & Hothers & Hmoved & _).
  destruct (Hothers _ _ Hinr) as [Hinr' Hkept]; [lia|].
  rewrite <- Hhb in Hinr', Hrne.
  split; [eapply live_in_live; eassumption|]. split; [|assumption].
  destruct Hmoved as [-> | (Hfresh & _)]; [assumption|].
  intros ->. now apply (Hfresh _ _ Hinr).
Qed.

(** ** Searching the free list, growing the heap *)

Lemma find_fit_from_first st size : forall l,
  (exists l1 b l2,
     l = l1 ++ b :: l2 /\ find_fit_from st l size = b /\
     size <= mm_block_size st b /\
     Forall (fun x => mm_block_size st x < size) l1) \/
  (find_fit_from st l size = NULL /\
   Forall (fun x => mm_block_size st x < size) l).
Proof.
  induction l as [|bp l IH]; cbn [find_fit_from].
  - right. split; [reflexivity | constructor].
  - destruct (Z.leb_spec size (mm_block_size st bp)) as [Hfit | Hsmall].
    + left. exists [], bp, l. repeat split; [assumption | constructor].
    + destruct IH as [(l1 & b & l2 & -> & Hb & Hsz & Hall) | [Hnull Hall]].
      * left. exists (bp :: l1), b, l2.
        repeat split; try assumption. now constructor.
      * right. split; [assumption | now constructor].
Qed.

(** X11: [find_fit] is a first-fit search in list order: it returns the
    first block of the free list whose size is at least the size asked for,
    every block before it in the list being too small; it returns [NULL]
    only when every block of the list is too small. *)
Theorem find_fit_first_fit st size :
  (exists l1 b l2,
     mm_list_headp st = l1 ++ b :: l2 /\ find_fit st size = b /\
     size <= mm_block_size st b /\
     Forall (fun x => mm_block_size st x < size) l1) \/
  (find_fit st size = NULL /\
   Forall (fun x => mm_block_size st x < size) (mm_list_headp st)).
Proof. apply find_fit_from_first. Qed.

(** X12: [mm_malloc] grows the heap only when no free block fits, and then
    by exactly the larger of the block size needed and 512 bytes, in a
    single extension; the store's limit and the heap base stay as they are. *)
Theorem mm_malloc_break st fuel n p st' :
  reachable st -> 0 < n -> n + 15 < 2 ^ 31 ->
  mm_malloc fuel st n = Some (p, st') ->
  mem_brk st' =
    mem_brk st +
    (if find_fit st (required_block_size (wrap32 n)) =? NULL
     then if 512 <? required_block_size (wrap32 n)
          then required_block_size (wrap32 n) else 512
     else 0) /\
  mem_max_addr st' = mem_max_addr st /\ heap_blocks st' = heap_blocks st.
Proof.
  intros Hr Hn Hn15 Hrun. destruct (reachable_heap_ok _ Hr) as [bs Hok].
  destruct (mm_malloc_ok _ _ _ _ _ _ Hok Hn Hn15 Hrun)
    as (bs' & S' & _ & _ & _ & _ & _ & Hhb & _ & _ & Hbrk & Hmax & _).
  auto.
Qed.

(** X13: [extend_heap] on a reachable state: when the store has no room for
    [size] more bytes it returns [NULL] and changes nothing; otherwise the
    break moves up by exactly [size] and the block returned is free, on the
    free list, at least [size] bytes large (the new bytes merged with the
    last block when that one was free) and ends at the new epilogue. *)
Theorem extend_heap_result st size :
  reachable st -> 16 <= size -> size mod 8 = 0 ->
  (mem_max_addr st < mem_brk st + size -> extend_heap st size = (NULL, st)) /\
  (mem_brk st + size <= mem_max_addr st ->
   let bp := fst (extend_heap st size) in
   let st' := snd (extend_heap st size) in
   mem_brk st' = mem_brk st + size /\
   is_block st' bp /\ mm_block_allocated st' bp = 0 /\
   In bp (mm_list_headp st') /\ size <= mm_block_size st' bp /\
   mm_block_next st' bp = mem_brk st' - 4).
Proof.
  intros Hr Hsz Hmod. destruct (reachable_heap_ok _ Hr) as [bs Hok]. split.
  - intros Hfull. apply extend_heap_fails, mem_sbrk_full. assumption.
  - intros Hroom. cbv zeta.
    destruct (extend_heap_ok st bs size Hok Hsz Hmod Hroom)
      as (bs' & Hok' & _ & Hhb & _ & Hbrk & _ & _ & sa & Hin & Hsa & Hend).
    rewrite <- Hhb in Hin.
    destruct (layout_tags _ _ _ _ _ Hok' Hin) as (Hs & Ha & _).
    pose proof Hok' as [[Hchain _ Hlist] Hhead _ _ _ _ _ _].
    assert (Hfree : In (fst (extend_heap st size))
                       (mm_list_headp (snd (extend_heap st size)))).
    { apply (Permutation_in _ (Permutation_sym Hlist)).
      apply free_addrs_layout. now exists sa. }
    split; [assumption|]. split; [|split; [assumption|split; [assumption|]]].
    + now apply (proj1 (proj2 (heap_ok_free_list _ _ Hok') _)).
    + unfold mm_block_next. rewrite Hs, Hbrk. lia.
Qed.

(** ** The allocation loop ends once the heap has grown *)

Lemma malloc_loop_returns st bs r fuel :
  heap_ok st bs -> 8 <= r -> r mod 8 = 0 ->
  mem_brk st + (if 512 <? r then r else 512) <= mem_max_addr st ->
  exists bp st1, malloc_loop (S fuel) st r (find_fit st r) = Some (bp, st1).
Proof.
  intros Hok Hr8 Hrm Hroom.
  destruct (Z.eq_dec (find_fit st r) NULL) as [E | E].
  - rewrite E, malloc_loop_grow.
    assert (Ht : 16 <= (if 512 <? r then r else 512) /\
                 (if 512 <? r then r else 512) mod 8 = 0 /\
                 r <= (if 512 <? r then r else 512)).
    { destruct (Z.ltb_spec 512 r); zlia. }
    revert Hroom Ht. generalize (if 512 <? r then r else 512) as tempp.
    intros tempp Hroom (Ht16 & Htm & Hrt).
    destruct (extend_heap_ok st bs tempp Hok Ht16 Htm Hroom)
      as (bs' & Hok' & _ & Hhb & _ & _ & _ & _ & sa & Hin & Hsa & _).
    rewrite <- Hhb in Hin.
    assert (Hfit : find_fit (snd (extend_heap st tempp)) r <> NULL).
    { eapply find_fit_free_block; [exact Hok' | exact Hin | lia]. }
    rewrite malloc_loop_found by assumption. eauto.
  - rewrite malloc_loop_found by assumption. eauto.
Qed.

Lemma mm_malloc_returns_ok st bs fuel n :
  heap_ok st bs -> 0 < n -> n + 15 < 2 ^ 31 ->
  mem_brk st + (if 512 <? required_block_size (wrap32 n)
                then required_block_size (wrap32 n) else 512)
    <= mem_max_addr st ->
  exists p st', mm_malloc (S fuel) st n = Some (p, st').
Proof.
  intros Hok Hn Hn15 Hroom.
  rewrite mm_malloc_unfold by lia.
  destruct (required_block_size_bounds n Hn Hn15) as (Hr16 & Hrn & Hrm & Hrmax).
  revert Hroom Hr16 Hrn Hrm Hrmax.
  generalize (required_block_size (wrap32 n)) as r.
  intros r Hroom Hr16 Hrn Hrm Hrmax.
  assert (Hr8 : 8 <= r) by lia.
  destruct (malloc_loop_returns st bs r fuel Hok Hr8 Hrm Hroom)
    as (bp & st1 & ->).
  eauto.
Qed.

(** X14: With room in the store for one extension, [mm_malloc] returns after
    at most one turn of its loop. *)
Theorem mm_malloc_returns st fuel n :
  reachable st -> 0 < n -> n + 15 < 2 ^ 31 ->
  mem_brk st + (if 512 <? required_block_size (wrap32 n)
                then required_block_size (wrap32 n) else 512)
    <= mem_max_addr st ->
  exists p st', mm_malloc (S fuel) st n = Some (p, st').
Proof.
  intros Hr Hn Hn15 Hroom. destruct (reachable_heap_ok _ Hr) as [bs Hok].
  now apply mm_malloc_returns_ok with (bs := bs).
Qed.

(** X15: A freed block is available at once: after [mm_free] of a live
    pointer, a request that fitted the payload of the freed block is served
    from the free list, without entering the loop (any fuel will do) and
    without moving the break. *)
Theorem freed_block_is_reused st fuel p n :
  reachable st -> live st p ->
  0 < n -> n <= mm_block_size st (p - 4) - 8 ->
  exists q st',
    mm_malloc fuel (mm_free st p) n = Some (q, st') /\
    mem_brk st' = mem_brk st.
Proof.
  intros Hr Hp Hn Hfit.
  destruct (reachable_live _ _ Hr Hp) as (bs & s & Hok & Hne & Hin & Hs).
  rewrite Hs in Hfit.
  pose proof Hok as [[Hchain _ _] _ _ _ Hbrk Hrange _ _].
  pose proof (layout_lt _ _ _ _ _ _ _ Hchain Hin) as Hlt.
  destruct (layout_size _ _ _ _ _ _ _ Hchain Hin) as ((_ & Hs8) & _).
  assert (Hn15 : n + 15 < 2 ^ 31) by zlia.
  destruct (mm_free_ok _ _ _ Hok (live_live_in _ _ _ Hok Hp))
    as (bs' & Hok' & (Hb & _ & Hhb) & _ & _ & a & sa & Hfa & Ha1 & Ha2).
  rewrite Hs in Ha2. rewrite <- Hhb in Hfa.
  destruct (required_block_size_bounds n Hn Hn15) as (Hr16 & Hrn & Hrm & Hrmax).
  assert (Hrs : required_block_size (wrap32 n) <= s).
  { rewrite required_block_size_in_range by lia. unfold round_up_8. zlia. }
  assert (Hfound : find_fit (mm_free st p) (required_block_size (wrap32 n))
                   <> NULL).
  { eapply find_fit_free_block; [exact Hok' | exact Hfa | lia]. }
  assert (Hrun : mm_malloc fuel (mm_free st p) n =
                 Some (fst (place (mm_free st p)
                              (find_fit (mm_free st p)
                                 (required_block_size (wrap32 n)))
                              (required_block_size (wrap32 n))) + 4,
                       snd (place (mm_free st p)
                              (find_fit (mm_free st p)
                                 (required_block_size (wrap32 n)))
                              (required_block_size (wrap32 n))))).
  { rewrite mm_malloc_unfold by lia.
    now rewrite malloc_loop_found by assumption. }
  destruct (mm_malloc_ok _ _ _ _ _ _ Hok' Hn Hn15 Hrun)
    as (bs2 & S2 & _ & _ & _ & _ & _ & _ & _ & _ & Hbrk2 & _).
  apply Z.eqb_neq in Hfound. rewrite Hfound in Hbrk2.
  do 2 eexists. split; [exact Hrun|]. lia.
Qed.

(** X16: With room in the store for one extension, [mm_realloc] returns: on
    a null or live pointer, for any request whose block size fits an [int]. *)
Theorem mm_realloc_returns st fuel p n :
  reachable st -> p = NULL \/ live st p ->
  0 <= n -> n + 15 < 2 ^ 31 ->
  mem_brk st + (if 512 <? required_block_size (wrap32 n)
                then required_block_size (wrap32 n) else 512)
    <= mem_max_addr st ->
  exists q st', mm_realloc (S fuel) st p n = Some (q, st').
Proof.
  intros Hr Hp Hn Hn15 Hroom. destruct (reachable_heap_ok _ Hr) as [bs Hok].
  destruct (Z.eq_dec n 0) as [-> | Hnz].
  { unfold mm_realloc, mm_malloc. cbn [Z.eqb].
    destruct (p =? NULL); eauto. }
  assert (Hnpos : 0 < n) by lia.
  destruct (mm_malloc_returns_ok st bs fuel n Hok Hnpos Hn15 Hroom)
    as (q1 & st1 & Hm).
  destruct Hp as [-> | Hl].
  { unfold mm_realloc. cbn [Z.eqb NULL]. eauto. }
  destruct (live_live_in _ _ _ Hok Hl) as (Hne & s & Hin).
  pose proof Hok as [[Hchain Hep _] _ _ Hpos Hbrk Hrange _ _].
  pose proof (layout_lt _ _ _ _ _ _ _ Hchain Hin) as Hlt.
  destruct (layout_size _ _ _ _ _ _ _ Hchain Hin) as (Hs & _ & Hh & _ & _).
  assert (Hsz : mm_block_size st (p - 4) = s).
  { unfold mm_block_size. rewrite Hh. apply tag_size; [tauto | now right]. }
  assert (HpN : p <> NULL) by (unfold NULL; lia).
  destruct (Z.le_gt_cases n (s - 8)) as [Hfits | Hgrow].
  { rewrite (mm_realloc_fits (S fuel) st p n s) by (assumption || lia).
    eauto. }
  assert (Hmoves : forall sn an,
    mem st (p - 4 + s) = Z.lor sn an -> 0 <= sn /\ sn mod 8 = 0 ->
    an = 0 \/ an = 1 -> s + sn < 2 ^ 31 -> an = 1 \/ s + sn - 8 < n ->
    exists q st', mm_realloc (S fuel) st p n = Some (q, st')).
  { intros sn an Hnh Hsn Han Hsum Hno.
    rewrite (mm_realloc_moves (S fuel) st p n s sn an)
      by first [assumption | lia].
    rewrite Hm. destruct (q1 =? NULL); eauto. }
  destruct (layout_split _ _ _ _ _ Hin) as (pre & post & -> & Hpa).
  pose proof Hchain as Hc.
  apply chain_app in Hc as [Hc1 Hc2]. rewrite <- Hpa in Hc2.
  cbn [chain] in Hc2. destruct Hc2 as (_ & _ & _ & _ & Hc2).
  pose proof (chain_le _ _ _ _ Hc2) as Hle2.
  destruct post as [|[sn an] post'].
  - cbn [chain] in Hc2. apply (Hmoves 0 1); try lia.
    + rewrite Hc2. exact Hep.
    + split; [lia | reflexivity].
  - cbn [chain] in Hc2. destruct Hc2 as (Hsn & Han & Hnh & _ & Hc3).
    pose proof (chain_le _ _ _ _ Hc3) as Hle3.
    destruct Han as [-> | ->].
    + destruct (Z.le_gt_cases n (s + sn - 8)) as [Habs | Hbig].
      * assert (Hrng : s - 8 < n <= s + sn - 8) by lia.
        destruct (absorb_ok (S fuel) st pre s sn post' p n Hok Hpa Hne Hrng)
          as (st2 & Hrun2 & _).
        eauto.
      * apply (Hmoves sn 0); try tauto; try lia.
    + apply (Hmoves sn 1); try tauto; try lia.
Qed.

(** ** Where a freed block enters the free list *)

(** A live block of a well-formed heap, seen as [free_coalesce] needs it. *)
Lemma live_in_pre_free st bs p s :
  heap_ok st bs -> p - 4 <> heap_blocks st ->
  In (p - 4, s, 1) (layout (heap_blocks st) bs) ->
  exists pre sp ap post,
    bs = (pre ++ [(sp, ap)]) ++ (s, 1) :: post /\
    pre_free st (p - 4) pre sp ap s 1 post.
Proof.
  intros Hok Hne Hin.
  pose proof Hok as [[Hchain Hep Hlist] Hhead Halign Hpos Hbrk Hrange Hco Hmin].
  destruct (layout_split _ _ _ _ _ Hin) as (pre0 & post & -> & Hp).
  pose proof Hchain as Hc. apply chain_app in Hc as [Hc1 Hc2].
  cbn [chain] in Hc2. destruct Hc2 as (Hs & _ & Hh & Hf & Hpost).
  destruct (exists_last (l := pre0)) as (pre & [sp ap] & ->).
  { intros ->. cbn in Hp. lia. }
  rewrite <- Hp in *.
  exists pre, sp, ap, post. split; [reflexivity|].
  constructor; try assumption; try tauto; try lia.
  now rewrite <- app_assoc in Hlist.
Qed.

(** The tags next to the block that [free_coalesce] works on. *)
Lemma pre_free_tags st bp pre sp ap s al post :
  pre_free st bp pre sp ap s al post ->
  mm_block_allocated st (mm_block_prev st bp) = ap /\
  (ap = 0 \/ ap = 1) /\
  mm_block_next st bp = bp + s /\
  (mm_block_allocated st (bp + s) =? 0) = next_is_free post.
Proof.
  intros [Hpre Hhdr Hs Hal Hpost Hep Hlist Hrange].
  apply chain_app in Hpre as [Hpre HP]. cbn [chain] in HP.
  destruct HP as (Hsp & Hap & HPh & HPf & Hmid).
  replace (heap_blocks st + total pre) with (bp - sp) in * by lia.
  replace (bp - sp + sp - 4) with (bp - 4) in HPf by lia.
  unfold mm_block_prev, mm_block_next, mm_block_allocated, mm_block_size.
  rewrite HPf, Hhdr, !tag_size by tauto. rewrite HPh, tag_alloc by tauto.
  split; [reflexivity|]. split; [assumption|]. split; [reflexivity|].
  destruct post as [|[sn an] post']; cbn [chain next_is_free] in *.
  - rewrite Hpost, Hep. reflexivity.
  - destruct Hpost as (Hsn & Han & Hnh & _).
    rewrite Hnh, tag_alloc by tauto. reflexivity.
Qed.

(** X17: The insertion policy of [mm_free]: the freed block is put at the
    head of the free list when the block before it is allocated; when that
    block is free it absorbs the freed block and keeps its own place in the
    list. In both cases a free block right after the freed one is taken out
    of the list (it is merged too); nothing else in the list moves. *)
Theorem mm_free_list_policy st p :
  reachable st -> live st p ->
  mm_list_headp (mm_free st p) =
    (if mm_block_allocated st (mm_block_prev st (p - 4)) =? 0
     then [] else [p - 4]) ++
    (if mm_block_allocated st (mm_block_next st (p - 4)) =? 0
     then remove_first (mm_block_next st (p - 4)) (mm_list_headp st)
     else mm_list_headp st).
Proof.
  intros Hr Hp.
  destruct (reachable_live _ _ Hr Hp) as (bs & s & Hok & Hne & Hin & Hs).
  destruct (live_in_pre_free _ _ _ _ Hok Hne Hin)
    as (pre & sp & ap & post & _ & Hpf).
  destruct (free_coalesce_shape _ _ _ _ _ _ _ _ Hpf) as (_ & _ & _ & _ & Hl).
  destruct (pre_free_tags _ _ _ _ _ _ _ _ Hpf) as (-> & _ & -> & ->).
  destruct Hok as [_ _ _ Hpos _ _ _ _].
  destruct Hpf as [Hpre _ _ _ _ _ _ _]. apply chain_le in Hpre.
  rewrite mm_free_unfold by (unfold NULL; lia). exact Hl.
Qed.

(** ** The size of the block that [mm_malloc] hands out *)

(** X18: The block returned by [mm_malloc] is never much larger than needed:
    its size is the required block size (the request plus 8, rounded up to a
    multiple of 8) or 8 bytes more, the latter when the free block chosen
    was too small to be split. *)
Theorem mm_malloc_block_size st fuel n p st' :
  reachable st -> 0 < n -> n + 15 < 2 ^ 31 ->
  mm_malloc fuel st n = Some (p, st') ->
  mm_block_size st' (p - 4) = round_up_8 (n + 8) \/
  mm_block_size st' (p - 4) = round_up_8 (n + 8) + 8.
Proof.
  intros Hr Hn Hn15 Hrun. destruct (reachable_heap_ok _ Hr) as [bs Hok].
  destruct (mm_malloc_ok _ _ _ _ _ _ Hok Hn Hn15 Hrun)
    as (bs' & S' & Hok' & Hin & _ & _ & _ & Hhb & _ & _ & _ & _ & Htight & _).
  rewrite <- Hhb in Hin.
  destruct (layout_tags _ _ _ _ _ Hok' Hin) as (-> & _).
  pose proof Hok' as [[Hchain _ _] _ _ _ _ _ _ _].
  destruct (layout_size _ _ _ _ _ _ _ Hchain Hin) as ((_ & HS8) & _).
  rewrite required_block_size_in_range in Htight by lia.
  unfold round_up_8 in *. zlia.
Qed.

(** ** When [mm_realloc] has to move the block *)

(** The tag that follows a block: the header of the next block, or the
    epilogue. *)
Lemma next_tag st bs x s al :
  heap_ok st bs -> In (x, s, al) (layout (heap_blocks st) bs) ->
  exists sn an,
    mem st (x + s) = Z.lor sn an /\ (0 <= sn /\ sn mod 8 = 0) /\
    (an = 0 \/ an = 1) /\ s + sn < 2 ^ 31.
Proof.
  intros Hok Hin.
  pose proof Hok as [[Hchain Hep _] _ _ _ Hbrk Hrange _ _].
  pose proof (layout_lt _ _ _ _ _ _ _ Hchain Hin) as Hlt.
  destruct (layout_split _ _ _ _ _ Hin) as (pre & post & -> & Hx).
  apply chain_app in Hchain as [_ Hc]. rewrite <- Hx in Hc.
  cbn [chain] in Hc. destruct Hc as (_ & _ & _ & _ & Hc).
  pose proof (chain_le _ _ _ _ Hc) as Hle.
  destruct post as [|[sn an] post']; cbn [chain] in Hc.
  - exists 0, 1. rewrite Hc. split; [exact Hep|]. repeat split; lia.
  - destruct Hc as (Hsn & Han & Hnh & _ & Hc).
    pose proof (chain_le _ _ _ _ Hc).
    exists sn, an. repeat split; try tauto; lia.
Qed.

(** X19: When the request exceeds the capacity and the next block is
    allocated or too small to make up the difference, [mm_realloc] moves the
    block: it returns what [mm_malloc] returns for the request, a pointer
    that is neither null nor the old one, after copying the whole old
    payload there and freeing the old block. *)
Theorem mm_realloc_moves_block st fuel p n q st' :
  reachable st -> live st p -> n + 15 < 2 ^ 31 ->
  mm_block_size st (p - 4) - 8 < n ->
  mm_block_allocated st (mm_block_next st (p - 4)) = 1 \/
  mm_block_size st (p - 4) + mm_block_size st (mm_block_next st (p - 4)) - 8 < n ->
  mm_realloc fuel st p n = Some (q, st') ->
  q <> NULL /\ q <> p /\
  exists st1,
    mm_malloc fuel st n = Some (q, st1) /\
    st' = mm_free (memcpy st1 q p (mm_block_size st (p - 4) - 8)) p.
Proof.
  intros Hr Hp Hn15 Hgrow Hno Hrun.
  destruct (reachable_live _ _ Hr Hp) as (bs & s & Hok & Hne & Hin & Hs).
  pose proof Hok as [[Hchain _ _] _ _ Hpos _ _ _ _].
  pose proof (layout_lt _ _ _ _ _ _ _ Hchain Hin) as Hlt.
  destruct (layout_size _ _ _ _ _ _ _ Hchain Hin) as (Hs8 & _ & Hh & _ & _).
  destruct (next_tag _ _ _ _ _ Hok Hin) as (sn & an & Hnh & Hsn & Han & Hsum).
  unfold mm_block_next in Hno. rewrite Hs in *.
  unfold mm_block_allocated, mm_block_size in Hno.
  rewrite Hnh, tag_alloc, tag_size in Hno by tauto.
  assert (Hn : 0 < n) by lia.
  rewrite (mm_realloc_moves fuel st p n s sn an) in Hrun
    by first [assumption | lia | unfold NULL; lia].
  destruct (mm_malloc fuel st n) as [[q1 st1]|] eqn:Hm; [|discriminate].
  destruct (mm_malloc_ok _ _ _ _ _ _ Hok Hn Hn15 Hm)
    as (bs1 & S' & _ & _ & _ & _ & Hfresh & _ & Hq & _).
  assert (Hq0 : q1 <> NULL) by (unfold NULL; lia).
  pose proof Hq0 as Hq0'. apply Z.eqb_neq in Hq0'. rewrite Hq0' in Hrun.
  inversion Hrun; subst q st'.
  split; [assumption|]. split.
  - intros ->. now apply (Hfresh _ _ Hin).
  - exists st1. split; reflexivity.
Qed.

(** X23: [mm_realloc] inherits the loop of [mm_malloc]: when the block has
    to move (the request exceeds the capacity and the next block is
    allocated or too small), no free block fits and [mem_sbrk] refuses the
    growth, [mm_realloc] never returns; the test of [mm_malloc]'s result
    against [NULL] is never reached. *)
Theorem mm_realloc_spins_on_exhaustion st p n :
  reachable st -> live st p -> n + 15 < 2 ^ 31 ->
  mm_block_size st (p - 4) - 8 < n ->
  mm_block_allocated st (mm_block_next st (p - 4)) = 1 \/
  mm_block_size st (p - 4) + mm_block_size st (mm_block_next st (p - 4)) - 8 < n ->
  find_fit st (required_block_size (wrap32 n)) = NULL ->
  mem_sbrk st (if 512 <? required_block_size (wrap32 n)
               then required_block_size (wrap32 n) else 512) = None ->
  forall fuel, mm_realloc fuel st p n = None.
Proof.
  intros Hr Hp Hn15 Hgrow Hno Hfit Hfail fuel.
  destruct (reachable_live _ _ Hr Hp) as (bs & s & Hok & Hne & Hin & Hs).
  pose proof Hok as [[Hchain _ _] _ _ Hpos _ _ _ _].
  pose proof (layout_lt _ _ _ _ _ _ _ Hchain Hin) as Hlt.
  destruct (layout_size _ _ _ _ _ _ _ Hchain Hin) as (Hs8 & _ & Hh & _ & _).
  destruct (next_tag _ _ _ _ _ Hok Hin) as (sn & an & Hnh & Hsn & Han & Hsum).
  unfold mm_block_next in Hno. rewrite Hs in *.
  unfold mm_block_allocated, mm_block_size in Hno.
  rewrite Hnh, tag_alloc, tag_size in Hno by tauto.
  rewrite (mm_realloc_moves fuel st p n s sn an)
    by first [assumption | lia | unfold NULL; lia].
  unfold mm_malloc. replace (n =? 0) with false by lia. cbv zeta.
  rewrite Hfit. now rewrite malloc_loop_stuck.
Qed.

(** ** Allocating and freeing again *)

(** A block of a well-formed chain, seen as [free_coalesce] needs it. *)
Lemma shape_pre_free st pre sp ap s post :
  shape st ((pre ++ [(sp, ap)]) ++ (s, 1) :: post) ->
  mem_brk st - heap_blocks st < 2 ^ 31 ->
  pre_free st (heap_blocks st + total pre + sp) pre sp ap s 1 post.
Proof.
  intros [Hchain Hep Hlist] Hrange.
  apply chain_app in Hchain as [Hc1 Hc2].
  rewrite total_app in *. cbn [total] in *.
  replace (heap_blocks st + (total pre + (sp + 0)))
    with (heap_blocks st + total pre + sp) in * by lia.
  cbn [chain] in Hc2. destruct Hc2 as (Hs & _ & Hh & Hf & Hpost).
  constructor; try assumption; try tauto.
  now rewrite <- app_assoc in Hlist.
Qed.

(** Two well-formed descriptions of the same heap. *)
Lemma heap_ok_same_blocks st st' bs :
  heap_ok st bs -> heap_ok st' bs -> heap_blocks st' = heap_blocks st ->
  same_blocks st st' /\
  Permutation (mm_list_headp st') (mm_list_headp st).
Proof.
  intros Hok Hok' Hhb. split.
  - intros a. split; [split|].
    + intros Hb. destruct (is_block_layout _ _ _ Hok' Hb) as (s & al & Hin).
      destruct Hb as (_ & Hne & _). rewrite Hhb in *.
      eapply layout_is_block; eassumption.
    + intros Hb. destruct (is_block_layout _ _ _ Hok Hb) as (s & al & Hin).
      destruct Hb as (_ & Hne & _). rewrite <- Hhb in *.
      eapply layout_is_block; eassumption.
    + intros Hb. destruct (is_block_layout _ _ _ Hok Hb) as (s & al & Hin).
      destruct (layout_tags _ _ _ _ _ Hok Hin) as (-> & -> & _).
      rewrite <- Hhb in Hin.
      destruct (layout_tags _ _ _ _ _ Hok' Hin) as (-> & -> & _). auto.
  - destruct Hok as [[_ _ Hl] _ _ _ _ _ _ _].
    destruct Hok' as [[_ _ Hl'] _ _ _ _ _ _ _].
    rewrite Hhb in Hl'. rewrite Hl', Hl. reflexivity.
Qed.

Lemma coalesced_pair l s1 a1 s2 a2 r :
  coalesced (l ++ (s1, a1) :: (s2, a2) :: r) -> a1 = 0 -> a2 <> 0.
Proof.
  intros H. apply coalesced_app in H as [_ H]. cbn [coalesced] in H.
  tauto.
Qed.

Lemma round_trip_ok st bs fuel n p st' :
  heap_ok st bs -> 0 < n -> n + 15 < 2 ^ 31 ->
  find_fit st (required_block_size (wrap32 n)) <> NULL ->
  mm_malloc fuel st n = Some (p, st') ->
  heap_ok (mm_free st' p) bs /\ same_bounds st (mm_free st' p).
Proof.
  intros Hok Hn Hn15 Hfound Hrun.
  rewrite mm_malloc_unfold in Hrun by lia.
  destruct (required_block_size_bounds n Hn Hn15) as (Hr16 & Hrn & Hrm & Hrmax).
  revert Hfound Hrun Hr16 Hrn Hrm Hrmax.
  generalize (required_block_size (wrap32 n)) as r.
  intros r Hfound Hrun Hr16 Hrn Hrm Hrmax.
  rewrite malloc_loop_found in Hrun by assumption.
  destruct (find_fit_from_found _ _ _ Hfound) as [Hin Hfits].
  fold (find_fit st r) in Hin, Hfits.
  revert Hrun Hin Hfits. generalize (find_fit st r) as bp.
  intros bp Hrun Hin Hfits. inversion Hrun; subst p st'. clear Hrun.
  pose proof Hok as [[Hchain Hep Hlist] Hhead Halign Hpos Hbrk Hrange Hco Hmin].
  apply (Permutation_in _ Hlist) in Hin.
  apply free_addrs_layout in Hin as [S Hin].
  destruct (layout_tags _ _ _ _ _ Hok Hin) as (HSz & _).
  rewrite HSz in Hfits.
  destruct (layout_size _ _ _ _ _ _ _ Hchain Hin) as (HS & _).
  destruct (layout_split _ _ _ _ _ Hin) as (pre & post & -> & Hbp).
  pose proof Hchain as Hc. apply chain_app in Hc as [Hc1 Hc2].
  cbn [chain] in Hc2. destruct Hc2 as (_ & _ & _ & _ & Hc2).
  pose proof (chain_le _ _ _ _ Hc1) as Hle1.
  pose proof (chain_le _ _ _ _ Hc2) as Hle2.
  pose proof (hd_prologue_pre _ _ _ _ _ _ Hhead Hc1) as Hpre8.
  destruct (place_shape st bp pre S r post) as (Hshape & Hb & Hhandle & _);
    try tauto; try lia.
  { constructor; assumption. }
  destruct Hb as (Eb & Em & Eh).
  assert (Hrange' : mem_brk (snd (place st bp r)) -
                    heap_blocks (snd (place st bp r)) < 2 ^ 31)
    by (rewrite Eb, Eh; lia).
  assert (HpN : fst (place st bp r) + 4 <> NULL).
  { rewrite Hhandle. unfold NULL.
    destruct (S - r <? 16), (75 <=? r); lia. }
  rewrite mm_free_unfold by assumption.
  replace (fst (place st bp r) + 4 - 4) with (fst (place st bp r)) by lia.
  rewrite Hhandle.
  (* the block before the free block, and the one after it, are allocated *)
  destruct (exists_last (l := pre)) as (pre0 & [sp ap] & ->).
  { intros ->. cbn in Hpre8. lia. }
  assert (Hap : ap <> 0).
  { intros ->. rewrite <- app_assoc in Hco. cbn [app] in Hco.
    now apply (coalesced_pair _ _ _ _ _ _ Hco). }
  assert (Han : forall sn an post', post = (sn, an) :: post' -> an <> 0).
  { intros sn an post' ->.
    now apply (coalesced_pair _ _ _ _ _ _ Hco). }
  rewrite total_app in Hbp. cbn [total] in Hbp.
  revert Hshape Hrange' Eb Em Eh.
  generalize (snd (place st bp r)) as st1. unfold place_blocks.
  intros st1 Hshape Hrange' Eb Em Eh.
  destruct (Z.ltb_spec (S - r) 16) as [Hsmall | Hbig];
    [|destruct (Z.leb_spec 75 r) as [Hhigh | Hlow]].
  - (* the whole block was used *)
    pose proof (shape_pre_free _ _ _ _ _ _ Hshape Hrange') as Hpf.
    rewrite Eh in Hpf.
    replace (heap_blocks st + total pre0 + sp) with bp in Hpf by lia.
    destruct (free_coalesce_shape _ _ _ _ _ _ _ _ Hpf) as (Hsh & Hb & _).
    assert (E : coalesce_blocks pre0 sp ap S post =
                (pre0 ++ [(sp, ap)]) ++ (S, 0) :: post).
    { unfold coalesce_blocks. apply Z.eqb_neq in Hap. rewrite Hap.
      rewrite <- app_assoc. cbn [app].
      destruct post as [|[sn an] post']; [reflexivity|].
      specialize (Han _ _ _ eq_refl). apply Z.eqb_neq in Han.
      now rewrite Han. }
    rewrite E in Hsh. destruct Hb as (Eb' & Em' & Eh').
    split; [|repeat split; congruence].
    constructor; rewrite ?Eb', ?Em', ?Eh', ?Eb, ?Em, ?Eh; assumption.
  - (* the block was taken from the high end *)
    assert (EL : (pre0 ++ [(sp, ap)]) ++ (S - r, 0) :: (r, 1) :: post =
                 ((pre0 ++ [(sp, ap)]) ++ [(S - r, 0)]) ++ (r, 1) :: post)
      by (rewrite <- (app_assoc _ [(S - r, 0)]); reflexivity).
    rewrite EL in Hshape.
    pose proof (shape_pre_free _ _ _ _ _ _ Hshape Hrange') as Hpf.
    rewrite Eh in Hpf. rewrite total_app in Hpf. cbn [total] in Hpf.
    replace (heap_blocks st + (total pre0 + (sp + 0)) + (S - r))
      with (bp + (S - r)) in Hpf by lia.
    destruct (free_coalesce_shape _ _ _ _ _ _ _ _ Hpf) as (Hsh & Hb & _).
    assert (E : coalesce_blocks (pre0 ++ [(sp, ap)]) (S - r) 0 r post =
                (pre0 ++ [(sp, ap)]) ++ (S, 0) :: post).
    { unfold coalesce_blocks. cbn [Z.eqb].
      replace (r + (S - r)) with S by lia.
      destruct post as [|[sn an] post']; [reflexivity|].
      specialize (Han _ _ _ eq_refl). apply Z.eqb_neq in Han.
      now rewrite Han. }
    rewrite E in Hsh. destruct Hb as (Eb' & Em' & Eh').
    split; [|repeat split; congruence].
    constructor; rewrite ?Eb', ?Em', ?Eh', ?Eb, ?Em, ?Eh; assumption.
  - (* the block was taken from the low end *)
    pose proof (shape_pre_free _ _ _ _ _ _ Hshape Hrange') as Hpf.
    rewrite Eh in Hpf.
    replace (heap_blocks st + total pre0 + sp) with bp in Hpf by lia.
    destruct (free_coalesce_shape _ _ _ _ _ _ _ _ Hpf) as (Hsh & Hb & _).
    assert (E : coalesce_blocks pre0 sp ap r ((S - r, 0) :: post) =
                (pre0 ++ [(sp, ap)]) ++ (S, 0) :: post).
    { unfold coalesce_blocks. cbn [Z.eqb].
      apply Z.eqb_neq in Hap. rewrite Hap.
      replace (r + (S - r)) with S by lia.
      now rewrite <- app_assoc. }
    rewrite E in Hsh. destruct Hb as (Eb' & Em' & Eh').
    split; [|repeat split; congruence].
    constructor; rewrite ?Eb', ?Em', ?Eh', ?Eb, ?Em, ?Eh; assumption.
Qed.

(** X20: Allocating and freeing again is a round trip on the block
    structure: when the request is served from the free list (no free
    block is missing, so the heap does not grow), [mm_free] of the pointer
    that [mm_malloc] returned leaves the heap with the same blocks, sizes
    and allocation bits as before the allocation, the same blocks in the
    free list (possibly in another order) and the same bounds. *)
Theorem malloc_free_round_trip st fuel n p st' :
  reachable st -> 0 < n -> n + 15 < 2 ^ 31 ->
  find_fit st (required_block_size (wrap32 n)) <> NULL ->
  mm_malloc fuel st n = Some (p, st') ->
  same_blocks st (mm_free st' p) /\
  Permutation (mm_list_headp (mm_free st' p)) (mm_list_headp st) /\
  same_bounds st (mm_free st' p).
Proof.
  intros Hr Hn Hn15 Hfound Hrun.
  destruct (reachable_heap_ok _ Hr) as [bs Hok].
  destruct (round_trip_ok _ _ _ _ _ _ Hok Hn Hn15 Hfound Hrun) as [Hok' Hb].
  destruct (heap_ok_same_blocks st (mm_free st' p) bs Hok Hok') as [H1 H2].
  { apply Hb. }
  auto.
Qed.

(** ** Nothing is written outside the heap *)

(** X21: The allocator never writes outside its heap: whatever [mm_malloc],
    [mm_free] or [mm_realloc] does at a reachable state, on null or live
    pointers and requests whose block size fits an [int], every word below
    the prologue or at or above the break reached is left as it was. *)
Theorem operations_stay_in_heap st :
  reachable st ->
  (forall fuel n p st',
     0 <= n -> n + 15 < 2 ^ 31 -> mm_malloc fuel st n = Some (p, st') ->
     outside_kept st st') /\
  (forall p, p = NULL \/ live st p -> outside_kept st (mm_free st p)) /\
  (forall fuel p n q st',
     p = NULL \/ live st p -> 0 <= n -> n + 15 < 2 ^ 31 ->
     mm_realloc fuel st p n = Some (q, st') ->
     outside_kept st st').
Proof.
  intros Hr. destruct (reachable_heap_ok _ Hr) as [bs Hok].
  assert (Hmalloc : forall fuel n p st',
            0 <= n -> n + 15 < 2 ^ 31 -> mm_malloc fuel st n = Some (p, st') ->
            outside_kept st st').
  { intros fuel n p st' Hn Hn15 Hrun.
    destruct (Z.eq_dec n 0) as [-> | Hnz].
    - cbn in Hrun. inversion Hrun; subst. intros y _. reflexivity.
    - assert (Hnpos : 0 < n) by lia.
      destruct (mm_malloc_ok _ _ _ _ _ _ Hok Hnpos Hn15 Hrun)
        as (bs' & S' & _ & _ & _ & _ & _ & _ & _ & _ & _ & _ & _ & Hout).
      exact Hout. }
  assert (Hfree : forall p, p = NULL \/ live st p ->
                            outside_kept st (mm_free st p)).
  { intros p [-> | Hl].
    - intros y _. reflexivity.
    - destruct (mm_free_ok _ _ _ Hok (live_live_in _ _ _ Hok Hl))
        as (bs' & _ & _ & _ & Hout & _).
      exact Hout. }
  split; [exact Hmalloc|]. split; [exact Hfree|].
  intros fuel p n q st' Hp Hn Hn15 Hrun.
  destruct Hp as [-> | Hl].
  { unfold mm_realloc in Hrun. cbn [Z.eqb NULL] in Hrun.
    eapply Hmalloc; eassumption. }
  destruct (live_live_in _ _ _ Hok Hl) as (Hne & s & Hin).
  destruct (Z.eq_dec n 0) as [-> | Hnz].
  - pose proof Hok as [[Hchain _ _] _ _ Hpos _ _ _ _].
    pose proof (layout_lt _ _ _ _ _ _ _ Hchain Hin) as Hlt.
    assert (HpN : p <> NULL) by (unfold NULL; lia).
    unfold mm_realloc in Hrun. apply Z.eqb_neq in HpN. rewrite HpN in Hrun.
    cbn [Z.eqb] in Hrun. inversion Hrun; subst. apply Hfree. now right.
  - assert (Hnpos : 0 < n) by lia.
    destruct (mm_realloc_live_ok _ _ _ _ _ _ _ _ Hok Hne Hin Hnpos Hn15 Hrun)
      as (bs' & S' & _ & _ & _ & _ & _ & _ & _ & _ & _ & _ & Hout).
    exact Hout.
Qed.

(** ** Which address [mm_malloc] returns *)

Lemma mm_malloc_fit fuel st n :
  n <> 0 -> find_fit st (required_block_size (wrap32 n)) <> NULL ->
  mm_malloc fuel st n =
    Some (fst (place st (find_fit st (required_block_size (wrap32 n)))
                 (required_block_size (wrap32 n))) + 4,
          snd (place st (find_fit st (required_block_size (wrap32 n)))
                 (required_block_size (wrap32 n)))).
Proof.
  intros Hn Hfound. rewrite mm_malloc_unfold by assumption.
  now rewrite malloc_loop_found by assumption.
Qed.

(** X22: Which address [mm_malloc] returns when a free block fits: the
    block used is the one [find_fit] finds, the first fit of the free list.
    When that block is split and the required size is at least 75 the
    payload starts 4 bytes into its high end, the last [r] bytes of the
    block; otherwise it starts 4 bytes into the block itself. *)
Theorem mm_malloc_address st fuel n p st' :
  reachable st -> 0 < n -> n + 15 < 2 ^ 31 ->
  find_fit st (required_block_size (wrap32 n)) <> NULL ->
  mm_malloc fuel st n = Some (p, st') ->
  let r := required_block_size (wrap32 n) in
  let b := find_fit st r in
  let S := mm_block_size st b in
  p = (if S - r <? 16 then b else if 75 <=? r then b + (S - r) else b) + 4.
Proof.
  intros Hr Hn Hn15 Hfound Hrun. cbv zeta.
  destruct (reachable_heap_ok _ Hr) as [bs Hok].
  rewrite mm_malloc_fit in Hrun by (assumption || lia).
  destruct (required_block_size_bounds n Hn Hn15) as (Hr16 & Hrn & Hrm & Hrmax).
  revert Hfound Hrun Hr16 Hrn Hrm Hrmax.
  generalize (required_block_size (wrap32 n)) as r.
  intros r Hfound Hrun Hr16 Hrn Hrm Hrmax.
  destruct (find_fit_from_found _ _ _ Hfound) as [Hin Hfits].
  fold (find_fit st r) in Hin, Hfits.
  revert Hrun Hin Hfits. generalize (find_fit st r) as bp.
  intros bp Hrun Hin Hfits. inversion Hrun; subst p st'. clear Hrun.
  pose proof Hok as [[Hchain Hep Hlist] Hhead Halign Hpos Hbrk Hrange Hco Hmin].
  apply (Permutation_in _ Hlist) in Hin.
  apply free_addrs_layout in Hin as [S Hin].
  destruct (layout_tags _ _ _ _ _ Hok Hin) as (HSz & _).
  rewrite HSz in *.
  destruct (layout_split _ _ _ _ _ Hin) as (pre & post & -> & Hbp).
  destruct (place_shape st bp pre S r post) as (_ & _ & Hhandle & _);
    [constructor; assumption | assumption | lia | assumption | lia |].
  now rewrite Hhandle.
Qed.

(** ** The statements at work on concrete heaps *)

Lemma fresh_heap_reachable : reachable fresh_heap.
Proof. apply (reach_init (arena 4096)); closed_fact. Qed.

Lemma heap_one_alloc_reachable : reachable heap_one_alloc.
Proof.
  assert (H1 : mm_malloc 0 fresh_heap 8 = Some (1016, heap_one_alloc))
    by (vm_compute; reflexivity).
  assert (Hn : 0 <= 8 /\ 8 + 15 < 2 ^ 31) by lia.
  destruct Hn as [Hn0 Hn15].
  exact (reach_malloc _ _ _ _ _ fresh_heap_reachable Hn0 Hn15 H1).
Qed.

Lemma two_allocs_reachable : reachable two_allocs.
Proof.
  assert (H1 : mm_malloc 0 fresh_heap 40 =
               Some (1016, state_after (mm_malloc 0 fresh_heap 40) fresh_heap))
    by (vm_compute; reflexivity).
  assert (H2 : mm_malloc 1 (state_after (mm_malloc 0 fresh_heap 40) fresh_heap)
                 40 = Some (1064, two_allocs))
    by (vm_compute; reflexivity).
  assert (Hn : 0 <= 40 /\ 40 + 15 < 2 ^ 31) by lia.
  destruct Hn as [Hn0 Hn15].
  exact (reach_malloc _ _ _ _ _
           (reach_malloc _ _ _ _ _ fresh_heap_reachable Hn0 Hn15 H1)
           Hn0 Hn15 H2).
Qed.

(** The first, second and third block after the prologue of a concrete
    heap are reached by the heap walk. *)
Ltac replace_walk s a :=
  match goal with
  | |- heap_walk s ?x => replace x with a by (vm_compute; reflexivity)
  end.

Ltac walk_first_block :=
  match goal with
  | |- heap_walk ?s _ =>
      replace_walk s (mm_block_next s (heap_blocks s));
      apply walk_next; [apply walk_first | vm_compute; discriminate]
  end.

Ltac walk_second_block :=
  match goal with
  | |- heap_walk ?s _ =>
      replace_walk s (mm_block_next s (mm_block_next s (heap_blocks s)));
      apply walk_next;
      [apply walk_next; [apply walk_first | vm_compute; discriminate]
      | vm_compute; discriminate]
  end.

Ltac walk_third_block :=
  match goal with
  | |- heap_walk ?s _ =>
      replace_walk s
        (mm_block_next s (mm_block_next s (mm_block_next s (heap_blocks s))));
      apply walk_next;
      [apply walk_next;
       [apply walk_next; [apply walk_first | vm_compute; discriminate]
       | vm_compute; discriminate]
      | vm_compute; discriminate]
  end.

Ltac closed_live walk :=
  split; [split; [walk | split; vm_compute; discriminate]
         | vm_compute; discriminate].

Lemma heap_one_alloc_live : live heap_one_alloc 1016.
Proof. closed_live ltac:(idtac; walk_first_block). Qed.

Lemma two_allocs_live_low : live two_allocs 1016.
Proof. closed_live ltac:(idtac; walk_first_block). Qed.

Lemma two_allocs_live_high : live two_allocs 1064.
Proof. closed_live ltac:(idtac; walk_second_block). Qed.

Lemma two_allocs_free_block : is_block two_allocs 1108.
Proof. split; [walk_third_block | split; vm_compute; discriminate]. Qed.

(** A call that returned a non-null pointer, put as an equation. *)
Lemma returned (r : option (Z * state)) (dflt : state) (p : Z) :
  pointer_of r = p -> p <> NULL -> r = Some (p, state_after r dflt).
Proof.
  destruct r as [[q s]|]; cbn; intros E Hp; [now subst | congruence].
Qed.

Lemma two_allocs_realloc :
  mm_realloc 0 two_allocs 1016 100 = Some (1480, moved_heap).
Proof.
  assert (E : pointer_of (mm_realloc 0 two_allocs 1016 100) = 1480)
    by (vm_compute; reflexivity).
  assert (Hp : 1480 <> NULL) by discriminate.
  exact (returned (mm_realloc 0 two_allocs 1016 100) two_allocs 1480 E Hp).
Qed.

Lemma heap_one_alloc_malloc :
  mm_malloc 0 heap_one_alloc 8 = Some (1032, two_small_allocs).
Proof.
  assert (E : pointer_of (mm_malloc 0 heap_one_alloc 8) = 1032)
    by (vm_compute; reflexivity).
  assert (Hp : 1032 <> NULL) by discriminate.
  exact (returned (mm_malloc 0 heap_one_alloc 8) heap_one_alloc 1032 E Hp).
Qed.

Lemma fresh_heap_malloc :
  mm_malloc 1 fresh_heap 100 = Some (1480, grown_heap).
Proof.
  assert (E : pointer_of (mm_malloc 1 fresh_heap 100) = 1480)
    by (vm_compute; reflexivity).
  assert (Hp : 1480 <> NULL) by discriminate.
  exact (returned (mm_malloc 1 fresh_heap 100) fresh_heap 1480 E Hp).
Qed.

Lemma reachable_free_list_invariant_witness :
  reachable two_allocs /\
  NoDup (mm_list_headp two_allocs) /\
  forall a, In a (mm_list_headp two_allocs) <->
            is_block two_allocs a /\ mm_block_allocated two_allocs a = 0.
Proof.
  split; [exact two_allocs_reachable|].
  exact (reachable_free_list_invariant two_allocs two_allocs_reachable).
Defined.

Lemma reachable_heap_well_formed_witness :
  reachable two_allocs /\
  block two_allocs (heap_blocks two_allocs) 8 1 /\
  mem two_allocs (mem_brk two_allocs - 4) = Z.lor 0 1 /\
  heap_walk two_allocs (mem_brk two_allocs - 4) /\
  mem_brk two_allocs <= mem_max_addr two_allocs /\
  forall a, is_block two_allocs a ->
    a mod 8 = 4 /\ 16 <= mm_block_size two_allocs a /\
    mem two_allocs (a + mm_block_size two_allocs a - 4) = mem two_allocs a /\
    heap_blocks two_allocs + 8 <= a /\
    a + mm_block_size two_allocs a <= mem_brk two_allocs - 4.
Proof.
  split; [exact two_allocs_reachable|].
  exact (reachable_heap_well_formed two_allocs two_allocs_reachable).
Defined.

Lemma reachable_no_adjacent_free_witness :
  (reachable two_allocs /\ is_block two_allocs 1108 /\
   mm_block_allocated two_allocs 1108 = 0) /\
  mm_block_allocated two_allocs (mm_block_next two_allocs 1108) = 1 /\
  mm_block_allocated two_allocs (mm_block_prev two_allocs 1108) = 1.
Proof.
  assert (H : mm_block_allocated two_allocs 1108 = 0)
    by (vm_compute; reflexivity).
  split; [split; [exact two_allocs_reachable
                 |split; [exact two_allocs_free_block | exact H]]|].
  exact (reachable_no_adjacent_free two_allocs 1108 two_allocs_reachable
           two_allocs_free_block H).
Defined.

Lemma live_blocks_disjoint_witness :
  (reachable two_allocs /\ live two_allocs 1016 /\ live two_allocs 1064 /\
   1016 <> 1064) /\
  (1016 - 4 + mm_block_size two_allocs (1016 - 4) <= 1064 - 4 \/
   1064 - 4 + mm_block_size two_allocs (1064 - 4) <= 1016 - 4).
Proof.
  assert (H : 1016 <> 1064) by discriminate.
  split; [split; [exact two_allocs_reachable
                 |split; [exact two_allocs_live_low
                         |split; [exact two_allocs_live_high | exact H]]]|].
  exact (live_blocks_disjoint two_allocs 1016 1064 two_allocs_reachable
           two_allocs_live_low two_allocs_live_high H).
Defined.

Lemma mm_malloc_in_range_witness :
  (reachable heap_one_alloc /\ 0 < 8 /\ 8 + 15 < 2 ^ 31 /\
   mm_malloc 0 heap_one_alloc 8 = Some (1032, two_small_allocs)) /\
  1032 <> NULL /\ 1032 mod 8 = 0 /\ live two_small_allocs 1032 /\
  mm_block_allocated two_small_allocs (1032 - 4) = 1 /\
  mm_block_size two_small_allocs (1032 - 4) mod 8 = 0 /\
  8 <= mm_block_size two_small_allocs (1032 - 4) - 8.
Proof.
  assert (H1 : 0 < 8) by reflexivity.
  assert (H2 : 8 + 15 < 2 ^ 31) by reflexivity.
  pose proof heap_one_alloc_malloc as H3.
  split; [split; [exact heap_one_alloc_reachable
                 |split; [exact H1 | split; [exact H2 | exact H3]]]|].
  exact (mm_malloc_in_range heap_one_alloc 0 8 1032 two_small_allocs
           heap_one_alloc_reachable H1 H2 H3).
Defined.

Lemma mm_malloc_preserves_live_witness :
  (reachable heap_one_alloc /\ 0 < 8 /\ 8 + 15 < 2 ^ 31 /\
   mm_malloc 0 heap_one_alloc 8 = Some (1032, two_small_allocs) /\
   live heap_one_alloc 1016) /\
  live two_small_allocs 1016 /\ 1016 <> 1032 /\
  block_kept heap_one_alloc two_small_allocs
    (1016 - 4) (mm_block_size heap_one_alloc (1016 - 4)) /\
  (1032 - 4 + mm_block_size two_small_allocs (1032 - 4) <= 1016 - 4 \/
   1016 - 4 + mm_block_size heap_one_alloc (1016 - 4) <= 1032 - 4).
Proof.
  assert (H1 : 0 < 8) by reflexivity.
  assert (H2 : 8 + 15 < 2 ^ 31) by reflexivity.
  pose proof heap_one_alloc_malloc as H3.
  split; [split; [exact heap_one_alloc_reachable
                 |split; [exact H1
                         |split; [exact H2
                                 |split; [exact H3
                                         | exact heap_one_alloc_live]]]]|].
  exact (mm_malloc_preserves_live heap_one_alloc 0 8 1032 two_small_allocs
           1016 heap_one_alloc_reachable H1 H2 H3 heap_one_alloc_live).
Defined.

Lemma mm_free_preserves_others_witness :
  (reachable two_allocs /\ live two_allocs 1016 /\ live two_allocs 1064 /\
   1064 <> 1016) /\
  live (mm_free two_allocs 1016) 1064 /\
  block_kept two_allocs (mm_free two_allocs 1016) (1064 - 4)
    (mm_block_size two_allocs (1064 - 4)).
Proof.
  assert (H : 1064 <> 1016) by discriminate.
  split; [split; [exact two_allocs_reachable
                 |split; [exact two_allocs_live_low
                         |split; [exact two_allocs_live_high | exact H]]]|].
  exact (mm_free_preserves_others two_allocs 1016 1064 two_allocs_reachable
           two_allocs_live_low two_allocs_live_high H).
Defined.

Lemma mm_free_releases_block_witness :
  (reachable two_allocs /\ live two_allocs 1064) /\
  ~ live (mm_free two_allocs 1064) 1064 /\
  mem_brk (mm_free two_allocs 1064) = mem_brk two_allocs /\
  exists a,
    In a (mm_list_headp (mm_free two_allocs 1064)) /\
    mm_block_allocated (mm_free two_allocs 1064) a = 0 /\
    a <= 1064 - 4 /\
    1064 - 4 + mm_block_size two_allocs (1064 - 4)
      <= a + mm_block_size (mm_free two_allocs 1064) a.
Proof.
  split; [split; [exact two_allocs_reachable | exact two_allocs_live_high]|].
  exact (mm_free_releases_block two_allocs 1064 two_allocs_reachable
           two_allocs_live_high).
Defined.


Lemma mm_realloc_preserves_others_witness :
  (reachable two_allocs /\ live two_allocs 1016 /\ 0 < 100 /\
   100 + 15 < 2 ^ 31 /\
   mm_realloc 0 two_allocs 1016 100 = Some (1480, moved_heap) /\
   live two_allocs 1064 /\ 1064 <> 1016) /\
  live moved_heap 1064 /\ 1064 <> 1480 /\
  block_kept two_allocs moved_heap
    (1064 - 4) (mm_block_size two_allocs (1064 - 4)).
Proof.
  assert (H1 : 0 < 100) by reflexivity.
  assert (H2 : 100 + 15 < 2 ^ 31) by reflexivity.
  pose proof two_allocs_realloc as H3.
  assert (H4 : 1064 <> 1016) by discriminate.
  split; [split; [exact two_allocs_reachable
                 |split; [exact two_allocs_live_low
                         |split; [exact H1
                                 |split; [exact H2
                                         |split; [exact H3
                                                 |split; [exact two_allocs_live_high
                                                         | exact H4]]]]]]|].
  exact (mm_realloc_preserves_others two_allocs 0 1016 100 1480 moved_heap
           1064 two_allocs_reachable two_allocs_live_low H1 H2 H3
           two_allocs_live_high H4).
Defined.

Lemma mm_malloc_break_witness :
  (reachable fresh_heap /\ 0 < 100 /\ 100 + 15 < 2 ^ 31 /\
   mm_malloc 1 fresh_heap 100 = Some (1480, grown_heap)) /\
  mem_brk grown_heap =
    mem_brk fresh_heap +
    (if find_fit fresh_heap (required_block_size (wrap32 100)) =? NULL
     then if 512 <? required_block_size (wrap32 100)
          then required_block_size (wrap32 100) else 512
     else 0) /\
  mem_max_addr grown_heap = mem_max_addr fresh_heap /\
  heap_blocks grown_heap = heap_blocks fresh_heap.
Proof.
  assert (H1 : 0 < 100) by reflexivity.
  assert (H2 : 100 + 15 < 2 ^ 31) by reflexivity.
  pose proof fresh_heap_malloc as H3.
  split; [split; [exact fresh_heap_reachable
                 |split; [exact H1 | split; [exact H2 | exact H3]]]|].
  exact (mm_malloc_break fresh_heap 1 100 1480 grown_heap
           fresh_heap_reachable H1 H2 H3).
Defined.

Lemma extend_heap_result_witness :
  (reachable fresh_heap /\ 16 <= 512 /\ 512 mod 8 = 0 /\
   mem_brk fresh_heap + 512 <= mem_max_addr fresh_heap) /\
  mem_brk (snd (extend_heap fresh_heap 512)) = mem_brk fresh_heap + 512 /\
  is_block (snd (extend_heap fresh_heap 512))
    (fst (extend_heap fresh_heap 512)) /\
  mm_block_allocated (snd (extend_heap fresh_heap 512))
    (fst (extend_heap fresh_heap 512)) = 0 /\
  In (fst (extend_heap fresh_heap 512))
     (mm_list_headp (snd (extend_heap fresh_heap 512))) /\
  512 <= mm_block_size (snd (extend_heap fresh_heap 512))
           (fst (extend_heap fresh_heap 512)) /\
  mm_block_next (snd (extend_heap fresh_heap 512))
    (fst (extend_heap fresh_heap 512)) =
  mem_brk (snd (extend_heap fresh_heap 512)) - 4.
Proof.
  assert (H1 : 16 <= 512) by discriminate.
  assert (H2 : 512 mod 8 = 0) by reflexivity.
  assert (H3 : mem_brk fresh_heap + 512 <= mem_max_addr fresh_heap)
    by (vm_compute; discriminate).
  split; [split; [exact fresh_heap_reachable
                 |split; [exact H1 | split; [exact H2 | exact H3]]]|].
  exact (proj2 (extend_heap_result fresh_heap 512 fresh_heap_reachable H1 H2)
           H3).
Defined.

Lemma mm_malloc_returns_witness :
  (reachable fresh_heap /\ 0 < 100 /\ 100 + 15 < 2 ^ 31 /\
   mem_brk fresh_heap +
   (if 512 <? required_block_size (wrap32 100)
    then required_block_size (wrap32 100) else 512)
     <= mem_max_addr fresh_heap) /\
  exists p st', mm_malloc 1 fresh_heap 100 = Some (p, st').
Proof.
  assert (H1 : 0 < 100) by reflexivity.
  assert (H2 : 100 + 15 < 2 ^ 31) by reflexivity.
  assert (H3 : mem_brk fresh_heap +
               (if 512 <? required_block_size (wrap32 100)
                then required_block_size (wrap32 100) else 512)
               <= mem_max_addr fresh_heap)
    by (vm_compute; discriminate).
  split; [split; [exact fresh_heap_reachable
                 |split; [exact H1 | split; [exact H2 | exact H3]]]|].
  exact (mm_malloc_returns fresh_heap 0 100 fresh_heap_reachable H1 H2 H3).
Defined.

Lemma freed_block_is_reused_witness :
  (reachable two_allocs /\ live two_allocs 1016 /\ 0 < 40 /\
   40 <= mm_block_size two_allocs (1016 - 4) - 8) /\
  exists q st',
    mm_malloc 0 (mm_free two_allocs 1016) 40 = Some (q, st') /\
    mem_brk st' = mem_brk two_allocs.
Proof.
  assert (H1 : 0 < 40) by reflexivity.
  assert (H2 : 40 <= mm_block_size two_allocs (1016 - 4) - 8)
    by (vm_compute; discriminate).
  split; [split; [exact two_allocs_reachable
                 |split; [exact two_allocs_live_low
                         |split; [exact H1 | exact H2]]]|].
  exact (freed_block_is_reused two_allocs 0 1016 40 two_allocs_reachable
           two_allocs_live_low H1 H2).
Defined.

Lemma mm_realloc_returns_witness :
  (reachable two_allocs /\ (1016 = NULL \/ live two_allocs 1016) /\
   0 <= 100 /\ 100 + 15 < 2 ^ 31 /\
   mem_brk two_allocs +
   (if 512 <? required_block_size (wrap32 100)
    then required_block_size (wrap32 100) else 512)
     <= mem_max_addr two_allocs) /\
  exists q st', mm_realloc 1 two_allocs 1016 100 = Some (q, st').
Proof.
  assert (H0 : 1016 = NULL \/ live two_allocs 1016)
    by (right; exact two_allocs_live_low).
  assert (H1 : 0 <= 100) by discriminate.
  assert (H2 : 100 + 15 < 2 ^ 31) by reflexivity.
  assert (H3 : mem_brk two_allocs +
               (if 512 <? required_block_size (wrap32 100)
                then required_block_size (wrap32 100) else 512)
               <= mem_max_addr two_allocs)
    by (vm_compute; discriminate).
  split; [split; [exact two_allocs_reachable
                 |split; [exact H0
                         |split; [exact H1 | split; [exact H2 | exact H3]]]]|].
  exact (mm_realloc_returns two_allocs 0 1016 100 two_allocs_reachable
           H0 H1 H2 H3).
Defined.

Lemma mm_free_list_policy_witness :
  (reachable two_allocs /\ live two_allocs 1064) /\
  mm_list_headp (mm_free two_allocs 1064) =
    (if mm_block_allocated two_allocs (mm_block_prev two_allocs (1064 - 4)) =? 0
     then [] else [1064 - 4]) ++
    (if mm_block_allocated two_allocs (mm_block_next two_allocs (1064 - 4)) =? 0
     then remove_first (mm_block_next two_allocs (1064 - 4))
            (mm_list_headp two_allocs)
     else mm_list_headp two_allocs).
Proof.
  split; [split; [exact two_allocs_reachable | exact two_allocs_live_high]|].
  exact (mm_free_list_policy two_allocs 1064 two_allocs_reachable
           two_allocs_live_high).
Defined.

Lemma mm_malloc_block_size_witness :
  (reachable heap_one_alloc /\ 0 < 8 /\ 8 + 15 < 2 ^ 31 /\
   mm_malloc 0 heap_one_alloc 8 = Some (1032, two_small_allocs)) /\
  (mm_block_size two_small_allocs (1032 - 4) = round_up_8 (8 + 8) \/
   mm_block_size two_small_allocs (1032 - 4) = round_up_8 (8 + 8) + 8).
Proof.
  assert (H1 : 0 < 8) by reflexivity.
  assert (H2 : 8 + 15 < 2 ^ 31) by reflexivity.
  pose proof heap_one_alloc_malloc as H3.
  split; [split; [exact heap_one_alloc_reachable
                 |split; [exact H1 | split; [exact H2 | exact H3]]]|].
  exact (mm_malloc_block_size heap_one_alloc 0 8 1032 two_small_allocs
           heap_one_alloc_reachable H1 H2 H3).
Defined.

Lemma mm_realloc_moves_block_witness :
  (reachable two_allocs /\ live two_allocs 1016 /\ 100 + 15 < 2 ^ 31 /\
   mm_block_size two_allocs (1016 - 4) - 8 < 100 /\
   (mm_block_allocated two_allocs (mm_block_next two_allocs (1016 - 4)) = 1 \/
    mm_block_size two_allocs (1016 - 4) +
    mm_block_size two_allocs (mm_block_next two_allocs (1016 - 4)) - 8 < 100) /\
   mm_realloc 0 two_allocs 1016 100 = Some (1480, moved_heap)) /\
  1480 <> NULL /\ 1480 <> 1016 /\
  exists st1,
    mm_malloc 0 two_allocs 100 = Some (1480, st1) /\
    moved_heap =
      mm_free (memcpy st1 1480 1016 (mm_block_size two_allocs (1016 - 4) - 8))
        1016.
Proof.
  assert (H1 : 100 + 15 < 2 ^ 31) by reflexivity.
  assert (H2 : mm_block_size two_allocs (1016 - 4) - 8 < 100)
    by (vm_compute; reflexivity).
  assert (H3 : mm_block_allocated two_allocs
                 (mm_block_next two_allocs (1016 - 4)) = 1 \/
               mm_block_size two_allocs (1016 - 4) +
               mm_block_size two_allocs
                 (mm_block_next two_allocs (1016 - 4)) - 8 < 100)
    by (left; vm_compute; reflexivity).
  pose proof two_allocs_realloc as H4.
  split; [split; [exact two_allocs_reachable
                 |split; [exact two_allocs_live_low
                         |split; [exact H1
                                 |split; [exact H2
                                         |split; [exact H3 | exact H4]]]]]|].
  exact (mm_realloc_moves_block two_allocs 0 1016 100 1480 moved_heap
           two_allocs_reachable two_allocs_live_low H1 H2 H3 H4).
Defined.

Lemma malloc_free_round_trip_witness :
  (reachable heap_one_alloc /\ 0 < 8 /\ 8 + 15 < 2 ^ 31 /\
   find_fit heap_one_alloc (required_block_size (wrap32 8)) <> NULL /\
   mm_malloc 0 heap_one_alloc 8 = Some (1032, two_small_allocs)) /\
  same_blocks heap_one_alloc (mm_free two_small_allocs 1032) /\
  Permutation (mm_list_headp (mm_free two_small_allocs 1032))
    (mm_list_headp heap_one_alloc) /\
  same_bounds heap_one_alloc (mm_free two_small_allocs 1032).
Proof.
  assert (H1 : 0 < 8) by reflexivity.
  assert (H2 : 8 + 15 < 2 ^ 31) by reflexivity.
  assert (H3 : find_fit heap_one_alloc (required_block_size (wrap32 8))
               <> NULL) by (vm_compute; discriminate).
  pose proof heap_one_alloc_malloc as H4.
  split; [split; [exact heap_one_alloc_reachable
                 |split; [exact H1
                         |split; [exact H2 | split; [exact H3 | exact H4]]]]|].
  exact (malloc_free_round_trip heap_one_alloc 0 8 1032 two_small_allocs
           heap_one_alloc_reachable H1 H2 H3 H4).
Defined.

Lemma operations_stay_in_heap_witness :
  reachable two_allocs /\
  (forall fuel n p st',
     0 <= n -> n + 15 < 2 ^ 31 ->
     mm_malloc fuel two_allocs n = Some (p, st') ->
     outside_kept two_allocs st') /\
  (forall p, p = NULL \/ live two_allocs p ->
             outside_kept two_allocs (mm_free two_allocs p)) /\
  (forall fuel p n q st',
     p = NULL \/ live two_allocs p -> 0 <= n -> n + 15 < 2 ^ 31 ->
     mm_realloc fuel two_allocs p n = Some (q, st') ->
     outside_kept two_allocs st').
Proof.
  split; [exact two_allocs_reachable|].
  exact (operations_stay_in_heap two_allocs two_allocs_reachable).
Defined.

Lemma mm_malloc_address_witness :
  (reachable heap_one_alloc /\ 0 < 8 /\ 8 + 15 < 2 ^ 31 /\
   find_fit heap_one_alloc (required_block_size (wrap32 8)) <> NULL /\
   mm_malloc 0 heap_one_alloc 8 = Some (1032, two_small_allocs)) /\
  let r := required_block_size (wrap32 8) in
  let b := find_fit heap_one_alloc r in
  let S := mm_block_size heap_one_alloc b in
  1032 = (if S - r <? 16 then b else if 75 <=? r then b + (S - r) else b) + 4.
Proof.
  assert (H1 : 0 < 8) by reflexivity.
  assert (H2 : 8 + 15 < 2 ^ 31) by reflexivity.
  assert (H3 : find_fit heap_one_alloc (required_block_size (wrap32 8))
               <> NULL) by (vm_compute; discriminate).
  pose proof heap_one_alloc_malloc as H4.
  split; [split; [exact heap_one_alloc_reachable
                 |split; [exact H1
                         |split; [exact H2 | split; [exact H3 | exact H4]]]]|].
  exact (mm_malloc_address heap_one_alloc 0 8 1032 two_small_allocs
           heap_one_alloc_reachable H1 H2 H3 H4).
Defined.

Lemma full_heap_one_alloc_reachable : reachable full_heap_one_alloc.
Proof.
  assert (H0 : reachable full_heap) by (apply (reach_init (arena 80)); closed_fact).
  assert (H1 : mm_malloc 0 full_heap 8 = Some (1016, full_heap_one_alloc)).
  { assert (E : pointer_of (mm_malloc 0 full_heap 8) = 1016)
      by (vm_compute; reflexivity).
    assert (Hp : 1016 <> NULL) by discriminate.
    exact (returned (mm_malloc 0 full_heap 8) full_heap 1016 E Hp). }
  assert (Hn : 0 <= 8 /\ 8 + 15 < 2 ^ 31) by lia.
  destruct Hn as [Hn0 Hn15].
  exact (reach_malloc _ _ _ _ _ H0 Hn0 Hn15 H1).
Qed.

Lemma full_heap_one_alloc_live : live full_heap_one_alloc 1016.
Proof. closed_live ltac:(idtac; walk_first_block). Qed.

Lemma mm_realloc_spins_on_exhaustion_witness :
  (reachable full_heap_one_alloc /\ live full_heap_one_alloc 1016 /\
   100 + 15 < 2 ^ 31 /\
   mm_block_size full_heap_one_alloc (1016 - 4) - 8 < 100 /\
   (mm_block_allocated full_heap_one_alloc
      (mm_block_next full_heap_one_alloc (1016 - 4)) = 1 \/
    mm_block_size full_heap_one_alloc (1016 - 4) +
    mm_block_size full_heap_one_alloc
      (mm_block_next full_heap_one_alloc (1016 - 4)) - 8 < 100) /\
   find_fit full_heap_one_alloc (required_block_size (wrap32 100)) = NULL /\
   mem_sbrk full_heap_one_alloc
     (if 512 <? required_block_size (wrap32 100)
      then required_block_size (wrap32 100) else 512) = None) /\
  forall fuel, mm_realloc fuel full_heap_one_alloc 1016 100 = None.
Proof.
  assert (H1 : 100 + 15 < 2 ^ 31) by reflexivity.
  assert (H2 : mm_block_size full_heap_one_alloc (1016 - 4) - 8 < 100)
    by (vm_compute; reflexivity).
  assert (H3 : mm_block_allocated full_heap_one_alloc
                 (mm_block_next full_heap_one_alloc (1016 - 4)) = 1 \/
               mm_block_size full_heap_one_alloc (1016 - 4) +
               mm_block_size full_heap_one_alloc
                 (mm_block_next full_heap_one_alloc (1016 - 4)) - 8 < 100)
    by (right; vm_compute; reflexivity).
  assert (H4 : find_fit full_heap_one_alloc
                 (required_block_size (wrap32 100)) = NULL)
    by (vm_compute; reflexivity).
  assert (H5 : mem_sbrk full_heap_one_alloc
                 (if 512 <? required_block_size (wrap32 100)
                  then required_block_size (wrap32 100) else 512) = None)
    by (vm_compute; reflexivity).
  split; [split; [exact full_heap_one_alloc_reachable
                 |split; [exact full_heap_one_alloc_live
                         |split; [exact H1
                                 |split; [exact H2
                                         |split; [exact H3
                                                 |split; [exact H4
                                                         | exact H5]]]]]]|].
  exact (mm_realloc_spins_on_exhaustion full_heap_one_alloc 1016 100
           full_heap_one_alloc_reachable full_heap_one_alloc_live
           H1 H2 H3 H4 H5).
Defined.

(** ** A request beyond the range of [int] breaks the invariant *)

(** C9 at an input where the conversion to [int] loses the request: the
    calls [mm_malloc(4294967288)], [p = mm_malloc(56)], [mm_free(p)] on the
    freshly initialised heap all return, [p] is the payload of an
    allocated block when it is freed, and afterwards the first block after
    the prologue, at 1012, has its allocation bit clear but is not in the
    free list, which is empty. *)
Theorem free_block_missing_from_list :
  (exists p1 s1 p2 s2,
     mm_malloc 0 fresh_heap 4294967288 = Some (p1, s1) /\
     mm_malloc 0 s1 56 = Some (p2, s2) /\
     live s2 p2 /\
     corrupted_heap = mm_free s2 p2) /\
  is_block corrupted_heap 1012 /\
  mm_block_allocated corrupted_heap 1012 = 0 /\
  ~ In 1012 (mm_list_headp corrupted_heap) /\
  mm_list_headp corrupted_heap = [].
Proof.
  split.
  - do 4 eexists. split; [vm_compute; reflexivity|].
    split; [vm_compute; reflexivity|]. split; [|reflexivity].
    split; [split; [|split]|]; try (vm_compute; discriminate).
    match goal with
    | |- heap_walk ?s (?p - 4) =>
        replace (p - 4) with (mm_block_next s (heap_blocks s))
          by (vm_compute; reflexivity)
    end.
    apply walk_next; [apply walk_first | vm_compute; discriminate].
  - split; [|closed_facts; auto].
    split; [|split]; try (vm_compute; discriminate).
    replace 1012 with (mm_block_next corrupted_heap (heap_blocks corrupted_heap))
      by (vm_compute; reflexivity).
    apply walk_next; [apply walk_first | vm_compute; discriminate].
Qed.
